(** * Cortex: incremental indexing and retrieval pipeline

    A shallow embedding of the document chunker and the vector retriever
    (the document-chunker and vector-retriever parts of src/db.ts), the
    per-file and the batch sync (src/file-sync-embeddings.ts), the
    embedding client (src/ollama-embedding-client.ts), the delete tool
    (src/tools/delete.ts) and the parser of the ignore file, with the
    properties the specification states about them and further
    properties the code has. *)

From Stdlib Require Import String Ascii.
From Stdlib Require Import List ZArith NArith Bool Lia.
From Stdlib Require Import Reals Lra Psatz.
Import ListNotations.

Local Open Scope Z_scope.

(** ** JavaScript strings

    A JavaScript string is a sequence of UTF-16 code units; [length],
    [slice] and the regular expressions of the chunker all work on code
    units.  Paths, digests and column tags are only ever compared, and are
    kept as [string]. *)

Definition code_unit := N.
Definition jsstring := list code_unit.

(** The code units of a literal. *)
Definition js (s : string) : jsstring :=
  map N_of_ascii (list_ascii_of_string s).

Definition len (s : jsstring) : Z := Z.of_nat (length s).

(** [String.prototype.slice(start, end)]: negative indices count from the
    end, both are clamped to the string. *)
Definition slice (s : jsstring) (start end_ : Z) : jsstring :=
  let from := if start <? 0 then Z.max (len s + start) 0 else Z.min start (len s) in
  let to := if end_ <? 0 then Z.max (len s + end_) 0 else Z.min end_ (len s) in
  firstn (Z.to_nat (Z.max (to - from) 0)) (skipn (Z.to_nat from) s).

(** [s.slice(start)], the end left out. *)
Definition slice_from (s : jsstring) (start : Z) : jsstring :=
  slice s start (len s).

(** LineTerminator: LF, CR, LS, PS. *)
Definition is_line_terminator (c : code_unit) : bool :=
  (N.eqb c 10 || N.eqb c 13 || N.eqb c 8232 || N.eqb c 8233)%N.

(** What [\s] matches and [trim] removes: WhiteSpace and LineTerminator. *)
Definition is_space (c : code_unit) : bool :=
  ((N.leb 9 c && N.leb c 13) || N.eqb c 32 || N.eqb c 160 || N.eqb c 5760
   || (N.leb 8192 c && N.leb c 8202) || N.eqb c 8232 || N.eqb c 8233
   || N.eqb c 8239 || N.eqb c 8287 || N.eqb c 12288 || N.eqb c 65279)%N.

Definition is_hash (c : code_unit) : bool := N.eqb c 35.

Fixpoint take_while (p : code_unit -> bool) (s : jsstring) : jsstring :=
  match s with
  | c :: r => if p c then c :: take_while p r else []
  | [] => []
  end.

Fixpoint drop_while (p : code_unit -> bool) (s : jsstring) : jsstring :=
  match s with
  | c :: r => if p c then drop_while p r else s
  | [] => []
  end.

Definition trimStart (s : jsstring) : jsstring := drop_while is_space s.
Definition trimEnd (s : jsstring) : jsstring := rev (drop_while is_space (rev s)).
Definition trim (s : jsstring) : jsstring := trimEnd (trimStart s).

(** ** The heading pattern of the Markdown chunker

    [content.split(/^(#{1,6}\s+.+)$/gm)] cuts the content at every match of
    the pattern and keeps the matched heading lines (the capture group)
    between the pieces.  The pattern is matched as a backtracking engine
    does it: one to six [#] at the start of a line, then the longest run of
    white space that still leaves a character of the same line for [.+],
    then the rest of that line. *)

(** The longest [j <= n], at least 1, that has a character other than a line
    terminator at offset [j] of [rest]. *)
Fixpoint space_run (rest : jsstring) (n : nat) : option nat :=
  match n with
  | O => None
  | S n' =>
      match nth_error rest n with
      | Some c => if is_line_terminator c then space_run rest n' else Some n
      | None => space_run rest n'
      end
  end.

(** The length of the match of [#{1,6}\s+.+$] at the front of [s], which
    starts a line. *)
Definition heading_at (s : jsstring) : option nat :=
  let hashes := length (take_while is_hash s) in
  if ((1 <=? hashes) && (hashes <=? 6))%nat then
    let rest := skipn hashes s in
    match space_run rest (length (take_while is_space rest)) with
    | Some j =>
        let line := take_while (fun c => negb (is_line_terminator c)) (skipn j rest) in
        Some (hashes + j + length line)%nat
    | None => None
    end
  else None.

(** The scan of [split]: [bol] says whether [rest] starts a line, [cur] is
    the piece read since the last heading. *)
Fixpoint split_headings (fuel : nat) (bol : bool) (cur rest : jsstring)
    : list jsstring :=
  match fuel with
  | O => [cur ++ rest]
  | S fuel' =>
      match rest with
      | [] => [cur]
      | c :: rest' =>
          match (if bol then heading_at rest else None) with
          | Some n =>
              cur :: firstn n rest :: split_headings fuel' false [] (skipn n rest)
          | None =>
              split_headings fuel' (is_line_terminator c) (cur ++ [c]) rest'
          end
      end
  end.

Definition split_on_headings (content : jsstring) : list jsstring :=
  split_headings (S (length content)) true [] content.

(** [part.match(/^#{1,6}\s+/)] *)
Definition is_heading (part : jsstring) : bool :=
  let hashes := length (take_while is_hash part) in
  ((1 <=? hashes) && (hashes <=? 6))%nat
  && match skipn hashes part with
     | c :: _ => is_space c
     | [] => false
     end.

(** [part.replace(/^#+\s+/, '')] *)
Definition strip_heading_marker (part : jsstring) : jsstring :=
  match take_while is_hash part, drop_while is_hash part with
  | _ :: _, c :: rest => if is_space c then drop_while is_space rest else part
  | _, _ => part
  end.

(** ** Chunks (src/types.ts) *)

Module Chunk.
Record t := mk {
  content : jsstring;
  index : Z;
  section : option jsstring;
  tokenCount : Z;
  hash : string
}.
End Chunk.

Inductive FileType := md | ts | tsx | json.

Definition MAX_CHUNK_SIZE : Z := 256 * 4.
Definition OVERLAP_SIZE : Z := 25 * 4.

Section Chunker.

(** [crypto.createHash('sha256').update(s).digest('hex')], Node's
    library: any function from strings to digests. *)
Variable sha256 : jsstring -> string.

Definition createChunk (content : jsstring) (index : Z)
    (section : option jsstring) : Chunk.t :=
  {| Chunk.content := content;
     Chunk.index := index;
     Chunk.section := section;
     Chunk.tokenCount := len content / 4;
     Chunk.hash := sha256 content |}.

Definition hashFile (content : jsstring) : string := sha256 content.

(** The [while] loop of [chunkPlainText]; one unit of fuel per iteration,
    [None] when the fuel runs out before the loop ends. *)
Fixpoint chunkPlainText_loop (fuel : nat) (content : jsstring)
    (start chunkIndex : Z) (chunks : list Chunk.t) : option (list Chunk.t) :=
  match fuel with
  | O => None
  | S fuel' =>
      if start <? len content then
        let end_ := Z.min (start + MAX_CHUNK_SIZE) (len content) in
        let chunk := slice content start end_ in
        let chunks := chunks ++ [createChunk chunk chunkIndex None] in
        let nextStart := end_ - OVERLAP_SIZE in
        if nextStart <=? start then Some chunks
        else chunkPlainText_loop fuel' content nextStart (chunkIndex + 1) chunks
      else Some chunks
  end.

(** Fuel for [chunkPlainText]: every iteration but the last moves [start]
    forward, and [start] stays below the length. *)
Definition plain_fuel (content : jsstring) : nat := S (length content).

Definition chunkPlainText (content : jsstring) : list Chunk.t :=
  match chunkPlainText_loop (plain_fuel content) content 0 0 [] with
  | Some chunks => chunks
  | None => []
  end.

Definition chunkTypeScript (content : jsstring) : list Chunk.t :=
  chunkPlainText content.

(** The state of the [for] loop of [chunkMarkdown]. *)
Record MdState := {
  currentSection : jsstring;
  currentContent : jsstring;
  chunkIndex : Z;
  chunks : list Chunk.t
}.

Definition md_step (st : MdState) (part : jsstring) : MdState :=
  if is_heading part then
    {| currentSection := trim (strip_heading_marker part);
       currentContent := currentContent st;
       chunkIndex := chunkIndex st;
       chunks := chunks st |}
  else
    let content := currentContent st ++ part in
    if MAX_CHUNK_SIZE <? len content then
      {| currentSection := currentSection st;
         currentContent := slice_from content (- OVERLAP_SIZE);
         chunkIndex := chunkIndex st + 1;
         chunks := chunks st ++
           [createChunk (trim content) (chunkIndex st) (Some (currentSection st))] |}
    else
      {| currentSection := currentSection st;
         currentContent := content;
         chunkIndex := chunkIndex st;
         chunks := chunks st |}.

Definition md_init : MdState :=
  {| currentSection := []; currentContent := []; chunkIndex := 0; chunks := [] |}.

Definition chunkMarkdown (content : jsstring) : list Chunk.t :=
  let st := fold_left md_step (split_on_headings content) md_init in
  match trim (currentContent st) with
  | [] => chunks st
  | rest => chunks st ++ [createChunk rest (chunkIndex st) (Some (currentSection st))]
  end.

Definition chunkDocument (filePath : string) (content : jsstring)
    (fileType : FileType) : list Chunk.t :=
  match fileType with
  | md => chunkMarkdown content
  | ts | tsx => chunkTypeScript content
  | json => chunkPlainText content
  end.

End Chunker.

(** ** The table [cortex_file_chunks] and the outside world *)

(** A JSON array of numbers, and a pgvector value. *)
Definition vector := list R.

Module Row.
Record t := mk {
  file_path : string;
  file_hash : string;
  file_type : string;
  chunk_index : Z;
  chunk_hash : string;
  content : jsstring;
  token_count : Z;
  embedding : vector;
  section : option jsstring;
  language : option string
}.
End Row.

Definition Table := list Row.t.

(** What a rejected promise carries. *)
Inductive Exn :=
| FsError            (* fs.readFile rejects *)
| FetchFailed        (* fetch rejects, or the body is not JSON *)
| HttpError          (* the reply's status is not 2xx *)
| InvalidEmbedding   (* the client: data.embedding is not an array *)
| CountMismatch      (* the client: fewer vectors than texts *)
| TypeError          (* embedding.join on something that is not an array *)
| DatabaseError.     (* the statement did not run: connection, cast, limit *)

Inductive Outcome (A : Type) :=
| Ok (a : A)
| Throw (e : Exn).
Arguments Ok {A} a.
Arguments Throw {A} e.

(** A reply of the embedding service to POST /api/embeddings. *)
Inductive Response :=
| NoReply                             (* fetch or response.json() rejects *)
| Status                              (* response.ok is false *)
| Json (embedding : option vector).   (* data.embedding, when it is an array of numbers *)

(** The awaited calls of the pipeline, as the log records them. *)
Inductive Event :=
| ReadFile (path : string)
| SelectFileHash (path : string)
| DeleteChunks (path : string)
| ChunkDocument (path : string)
| Embedding (prompt : jsstring)
| InsertChunk (row : Row.t)
| SelectNearest (queryEmbedding : option vector) (filter : list string) (topK : Z).

(** What one call of the pipeline meets outside: the file system, the
    embedding service and the database.  The service and the database are
    asked by the number of awaits made so far, so they may answer the same
    request differently each time.  Of pgvector, which is no part of this
    repository, the database brings its operator [<=>], computed in
    floating point ([None] is NaN), and its index on the embedding column
    (HNSW, an approximate index): [scanned t q r] says whether a scan of
    the table [t] for the nearest rows to [q] comes by the row [r]; a
    sequential scan comes by every row. *)
Record Env := {
  fs : string -> Outcome jsstring;
  ollama : nat -> jsstring -> Response;
  postgres_up : nat -> bool;
  distance : vector -> vector -> option R;
  scanned : Table -> vector -> Row.t -> bool
}.

(** The table, and the log of awaited calls, each with the table as it
    stands when the call has settled: what a reader of the table can see
    between two awaits. *)
Record World := {
  table : Table;
  log : list (Event * Table)
}.

Definition M (A : Type) := World -> Outcome A * World.

Definition ret {A} (a : A) : M A := fun w => (Ok a, w).

Definition throw {A} (e : Exn) : M A := fun w => (Throw e, w).

Definition bind {A B} (m : M A) (k : A -> M B) : M B :=
  fun w =>
    match m w with
    | (Ok a, w') => k a w'
    | (Throw e, w') => (Throw e, w')
    end.

Definition try_catch {A} (m : M A) (handler : Exn -> M A) : M A :=
  fun w =>
    match m w with
    | (Ok a, w') => (Ok a, w')
    | (Throw e, w') => handler e w'
    end.

Notation "x <- m ;; k" := (bind m (fun x => k))
  (at level 61, m at next level, right associativity).
Notation "m ;;; k" := (bind m (fun _ => k))
  (at level 61, right associativity).

(** An awaited call that leaves the table alone. *)
Definition await {A} (e : Event) (result : nat -> Outcome A) : M A :=
  fun w =>
    (result (length (log w)),
     {| table := table w; log := log w ++ [(e, table w)] |}).

(** A statement: its result and the table it leaves, or an error and the
    table untouched. *)
Definition Statement (A : Type) := Table -> Outcome (A * Table).

(** [await sql`...`] *)
Definition sql {A} (env : Env) (e : Event) (s : Statement A) : M A :=
  fun w =>
    if postgres_up env (length (log w)) then
      match s (table w) with
      | Ok (a, t') => (Ok a, {| table := t'; log := log w ++ [(e, t')] |})
      | Throw x => (Throw x, {| table := table w; log := log w ++ [(e, table w)] |})
      end
    else
      (Throw DatabaseError, {| table := table w; log := log w ++ [(e, table w)] |}).

(** SELECT file_hash FROM cortex_file_chunks WHERE file_path = $1 LIMIT 1 *)
Definition select_file_hash (filePath : string) : Statement (list string) :=
  fun t =>
    Ok (map Row.file_hash
          (firstn 1 (filter (fun r => String.eqb (Row.file_path r) filePath) t)),
        t).

(** DELETE FROM cortex_file_chunks WHERE file_path = $1 *)
Definition delete_chunks (filePath : string) : Statement unit :=
  fun t =>
    Ok (tt, filter (fun r => negb (String.eqb (Row.file_path r) filePath)) t).

(** INSERT INTO cortex_file_chunks (...) VALUES (...) *)
Definition insert_chunk (row : Row.t) : Statement unit :=
  fun t => Ok (tt, t ++ [row]).

Module FileResult.
Record t := mk { chunks : Z; skipped : bool }.
End FileResult.

Definition fileTypeName (fileType : FileType) : string :=
  match fileType with
  | md => "md"
  | ts => "ts"
  | tsx => "tsx"
  | json => "json"
  end.

Definition getLanguage (fileType : FileType) : option string :=
  match fileType with
  | ts | tsx => Some "typescript"%string
  | json => Some "json"%string
  | md => None
  end.

(** [chunk.section || null] *)
Definition section_or_null (section : option jsstring) : option jsstring :=
  match section with
  | Some (c :: s) => Some (c :: s)
  | _ => None
  end.

(** The write path's guard [chunk.content.length > 4000]. *)
Definition oversized (chunk : Chunk.t) : bool := 4000 <? len (Chunk.content chunk).

Section Sync.

Variable sha256 : jsstring -> string.

(** Node's [path.extname]. *)
Variable extname : string -> string.

Variable env : Env.

Definition getFileType (filePath : string) : FileType :=
  let ext := match extname filePath with
             | String _ rest => rest
             | EmptyString => EmptyString
             end in
  if String.eqb ext "md" then md
  else if String.eqb ext "ts" then ts
  else if String.eqb ext "tsx" then tsx
  else if String.eqb ext "json" then json
  else md.

(** [getEmbedding]: the reply's [embedding] field, whatever it is. *)
Definition getEmbedding (text : jsstring) : M (option vector) :=
  await (Embedding text)
    (fun n =>
       match ollama env n text with
       | NoReply => Throw FetchFailed
       | Status => Throw HttpError
       | Json embedding => Ok embedding
       end).

Definition chunk_row (filePath fileHash : string) (fileType : FileType)
    (chunk : Chunk.t) (embedding : vector) : Row.t :=
  {| Row.file_path := filePath;
     Row.file_hash := fileHash;
     Row.file_type := fileTypeName fileType;
     Row.chunk_index := Chunk.index chunk;
     Row.chunk_hash := Chunk.hash chunk;
     Row.content := Chunk.content chunk;
     Row.token_count := Chunk.tokenCount chunk;
     Row.embedding := embedding;
     Row.section := section_or_null (Chunk.section chunk);
     Row.language := getLanguage fileType |}.

(** The [for (const chunk of chunks)] loop of [syncFile]. *)
Fixpoint process_chunks (filePath fileHash : string) (fileType : FileType)
    (chunks : list Chunk.t) (created : Z) : M Z :=
  match chunks with
  | [] => ret created
  | chunk :: rest =>
      if oversized chunk then
        process_chunks filePath fileHash fileType rest created
      else
        embedding <- getEmbedding (Chunk.content chunk) ;;
        match embedding with
        | None => throw TypeError
        | Some v =>
            let row := chunk_row filePath fileHash fileType chunk v in
            sql env (InsertChunk row) (insert_chunk row) ;;;
            process_chunks filePath fileHash fileType rest (created + 1)
        end
  end.

Definition syncFile (filePath : string) (force : bool) : M FileResult.t :=
  let fileType := getFileType filePath in
  content <- await (ReadFile filePath) (fun _ => fs env filePath) ;;
  let fileHash := hashFile sha256 content in
  existing <- sql env (SelectFileHash filePath) (select_file_hash filePath) ;;
  if negb force
     && match existing with
        | stored :: _ => String.eqb stored fileHash
        | [] => false
        end
  then ret {| FileResult.chunks := 0; FileResult.skipped := true |}
  else
    sql env (DeleteChunks filePath) (delete_chunks filePath) ;;;
    chunks <- await (ChunkDocument filePath)
                (fun _ => Ok (chunkDocument sha256 filePath content fileType)) ;;
    created <- process_chunks filePath fileHash fileType chunks 0 ;;
    ret {| FileResult.chunks := created; FileResult.skipped := false |}.

End Sync.

(** ** The retriever (src/vector-retriever.ts) *)

Local Open Scope R_scope.

Fixpoint dot (a b : vector) : R :=
  match a, b with
  | x :: a', y :: b' => x * y + dot a' b'
  | _, _ => 0
  end.

(** The cosine distance of two vectors of one dimension in exact
    arithmetic: one minus the cosine of their angle, and no number
    ([None]) when one of them has norm zero.  pgvector computes [a <=> b]
    in floating point, with rounding, so this is not its operator: it
    stands for it only in the databases of the worked runs, whose vectors
    are (1) and (-1), where the two agree.  The properties are proved of
    every operator ([distance]). *)
Definition cosine_distance (a b : vector) : option R :=
  if Req_dec_T (dot a a * dot b b) 0 then None
  else Some (1 - dot a b / sqrt (dot a a * dot b b)).

(** The order of ORDER BY on float8: NaN sorts after every number. *)
Definition distance_leb (x y : option R) : bool :=
  match x, y with
  | _, None => true
  | None, Some _ => false
  | Some a, Some b => if Rle_dec a b then true else false
  end.

Fixpoint insert_by_distance (x : Row.t * option R) (l : list (Row.t * option R))
    : list (Row.t * option R) :=
  match l with
  | [] => [x]
  | y :: l' =>
      if distance_leb (snd y) (snd x) then y :: insert_by_distance x l'
      else x :: l
  end.

(** Rows by increasing distance; rows at the same distance stay in the
    order of the table. *)
Definition order_by_distance (l : list (Row.t * option R))
    : list (Row.t * option R) :=
  fold_left (fun sorted x => insert_by_distance x sorted) l [].

Local Close Scope R_scope.

(** SELECT ..., 1 - (embedding <=> $q::vector) AS similarity
    FROM cortex_file_chunks [WHERE file_type = ANY($types)]
    ORDER BY embedding <=> $q::vector LIMIT $topK.
    The statement fails on an undefined parameter, on a vector with no
    component, on a negative limit, and on a row whose vector has another
    dimension than the query's.  It returns, by increasing distance and
    up to the limit, the rows the scan comes by: with the index these
    need not be all the rows of the table, nor the nearest.  Each row
    comes with its similarity column. *)
Definition select_nearest (env : Env) (queryEmbedding : option vector)
    (fileTypes : option (list string)) (topK : Z)
    : Statement (list (Row.t * option R)) :=
  fun t =>
    match queryEmbedding with
    | None | Some [] => Throw DatabaseError
    | Some q =>
        let rows :=
          match fileTypes with
          | Some types =>
              filter (fun r => existsb (String.eqb (Row.file_type r)) types) t
          | None => t
          end in
        if topK <? 0 then Throw DatabaseError
        else if forallb (fun r => Nat.eqb (length (Row.embedding r)) (length q)) rows
        then
          let ranked :=
            firstn (Z.to_nat topK)
              (order_by_distance
                 (map (fun r => (r, distance env (Row.embedding r) q))
                    (filter (scanned env t q) rows))) in
          Ok (map (fun rd => (fst rd, option_map (fun d => (1 - d)%R) (snd rd))) ranked,
              t)
        else Throw DatabaseError
    end.

Module RetrievalResult.
Record t := mk {
  filePath : string;
  content : jsstring;
  section : option jsstring;
  similarity : option R;   (* [None]: NaN *)
  chunkIndex : Z;
  fileType : string
}.
End RetrievalResult.

Section Retriever.

Variable env : Env.

(** The [for (const text of texts)] loop of the client's [embed]. *)
Fixpoint embed_each (texts : list jsstring) (embeddings : list vector)
    : M (list vector) :=
  match texts with
  | [] => ret embeddings
  | text :: rest =>
      reply <- await (Embedding text) (fun n => Ok (ollama env n text)) ;;
      match reply with
      | NoReply => throw FetchFailed
      | Status => throw HttpError
      | Json None => throw InvalidEmbedding
      | Json (Some v) => embed_each rest (embeddings ++ [v])
      end
  end.

(** [embeddingClient.instance.embed] *)
Definition embed (texts : list jsstring) : M (list vector) :=
  match texts with
  | [] => ret []
  | _ =>
      try_catch
        (embeddings <- embed_each texts [] ;;
         if Nat.eqb (length embeddings) (length texts) then ret embeddings
         else throw CountMismatch)
        (fun error => throw error)
  end.

Definition to_result (row : Row.t * option R) : RetrievalResult.t :=
  {| RetrievalResult.filePath := Row.file_path (fst row);
     RetrievalResult.content := Row.content (fst row);
     RetrievalResult.section := Row.section (fst row);
     RetrievalResult.similarity := snd row;
     RetrievalResult.chunkIndex := Row.chunk_index (fst row);
     RetrievalResult.fileType := Row.file_type (fst row) |}.

Definition queryVectorDatabase (query : jsstring) (topK : Z)
    (fileTypeFilter : option (list string)) : M (list RetrievalResult.t) :=
  try_catch
    (embeddings <- embed [query] ;;
     let queryEmbedding := nth_error embeddings 0 in
     results <-
       match fileTypeFilter with
       | Some (fileType :: others) =>
           sql env (SelectNearest queryEmbedding (fileType :: others) topK)
             (select_nearest env queryEmbedding (Some (fileType :: others)) topK)
       | _ =>
           sql env (SelectNearest queryEmbedding [] topK)
             (select_nearest env queryEmbedding None topK)
       end ;;
     ret (map to_result results))
    (fun error => ret []).

End Retriever.

(** ** The batch sync (src/file-sync-embeddings.ts, src/types.ts) *)

(** An entry of [errors] is the text [`${filePath}: ${message}`]; it is
    kept as the path and what was thrown. *)
Module SyncResult.
Record t := mk {
  filesProcessed : Z;
  chunksCreated : Z;
  chunksUpdated : Z;
  chunksSkipped : Z;
  files : list string;
  errors : list (string * Exn)
}.
End SyncResult.

Section Batch.

Variable sha256 : jsstring -> string.
Variable extname : string -> string.
Variable env : Env.

(** The body of the loop of [syncFiles], on the result object it
    updates. *)
Definition sync_next (force : bool) (result : SyncResult.t) (filePath : string)
    : M SyncResult.t :=
  try_catch
    (fileResult <- syncFile sha256 extname env filePath force ;;
     if FileResult.skipped fileResult then
       ret {| SyncResult.filesProcessed := SyncResult.filesProcessed result;
              SyncResult.chunksCreated := SyncResult.chunksCreated result;
              SyncResult.chunksUpdated := SyncResult.chunksUpdated result;
              SyncResult.chunksSkipped := SyncResult.chunksSkipped result + 1;
              SyncResult.files := SyncResult.files result;
              SyncResult.errors := SyncResult.errors result |}
     else
       ret {| SyncResult.filesProcessed := SyncResult.filesProcessed result + 1;
              SyncResult.chunksCreated :=
                SyncResult.chunksCreated result + FileResult.chunks fileResult;
              SyncResult.chunksUpdated := SyncResult.chunksUpdated result;
              SyncResult.chunksSkipped := SyncResult.chunksSkipped result;
              SyncResult.files := SyncResult.files result ++ [filePath];
              SyncResult.errors := SyncResult.errors result |})
    (fun error =>
       ret {| SyncResult.filesProcessed := SyncResult.filesProcessed result;
              SyncResult.chunksCreated := SyncResult.chunksCreated result;
              SyncResult.chunksUpdated := SyncResult.chunksUpdated result;
              SyncResult.chunksSkipped := SyncResult.chunksSkipped result;
              SyncResult.files := SyncResult.files result;
              SyncResult.errors := SyncResult.errors result ++ [(filePath, error)] |}).

(** The [for (const filePath of filePaths)] loop of [syncFiles]. *)
Fixpoint sync_each (filePaths : list string) (force : bool) (result : SyncResult.t)
    : M SyncResult.t :=
  match filePaths with
  | [] => ret result
  | filePath :: rest =>
      result' <- sync_next force result filePath ;;
      sync_each rest force result'
  end.

Definition syncFiles (filePaths : list string) (force : bool) : M SyncResult.t :=
  sync_each filePaths force
    {| SyncResult.filesProcessed := 0;
       SyncResult.chunksCreated := 0;
       SyncResult.chunksUpdated := 0;
       SyncResult.chunksSkipped := 0;
       SyncResult.files := [];
       SyncResult.errors := [] |}.

End Batch.

(** ** The ignore file (the configuration utilities) *)

(** [content.split('\n')]: [cur] is the line read so far. *)
Fixpoint split_lines_from (cur rest : jsstring) : list jsstring :=
  match rest with
  | [] => [cur]
  | c :: rest' =>
      if N.eqb c 10 then cur :: split_lines_from [] rest'
      else split_lines_from (cur ++ [c]) rest'
  end.

Definition split_lines (content : jsstring) : list jsstring :=
  split_lines_from [] content.

(** [line.startsWith(c)] for a one-character [c]. *)
Definition starts_with (c : code_unit) (line : jsstring) : bool :=
  match line with
  | d :: _ => N.eqb d c
  | [] => false
  end.

(** The lines that are kept: not empty, no comment ([#]), no negation
    ([!]). *)
Definition is_pattern (line : jsstring) : bool :=
  (0 <? len line) && negb (starts_with 35%N line) && negb (starts_with 33%N line).

Definition parseIgnoreFile (content : jsstring) : list jsstring :=
  filter is_pattern (map trim (split_lines content)).

(** [lines.join('\n')] *)
Fixpoint join_lines (lines : list jsstring) : jsstring :=
  match lines with
  | [] => []
  | [line] => line
  | line :: rest => line ++ [10%N] ++ join_lines rest
  end.

(** ** The delete tool (src/tools/delete.ts) *)

(** [s.replace(/\/+/g, '/')] *)
Fixpoint collapse_slashes (s : string) : string :=
  match s with
  | EmptyString => EmptyString
  | String c rest =>
      if Ascii.eqb c "/" then
        match rest with
        | String d _ =>
            if Ascii.eqb d "/" then collapse_slashes rest
            else String c (collapse_slashes rest)
        | EmptyString => String c EmptyString
        end
      else String c (collapse_slashes rest)
  end.

(** The path the tool deletes for the file [f] it is given. *)
Definition absolute (workspaceRoot f : string) : string :=
  if negb (String.eqb workspaceRoot "") && negb (String.prefix workspaceRoot f)
  then collapse_slashes (workspaceRoot ++ "/" ++ f)
  else f.

(** [[...new Set(l)]]: the first occurrence of each element, in order. *)
Fixpoint distinct (seen l : list string) : list string :=
  match l with
  | [] => []
  | x :: rest =>
      if existsb (String.eqb x) seen then distinct seen rest
      else x :: distinct (x :: seen) rest
  end.

Definition listed (filePaths : list string) (r : Row.t) : bool :=
  existsb (String.eqb (Row.file_path r)) filePaths.

(** DELETE FROM cortex_file_chunks WHERE file_path = ANY($1)
    RETURNING file_path *)
Definition delete_any (filePaths : list string) : Statement (list string) :=
  fun t =>
    Ok (map Row.file_path (filter (listed filePaths) t),
        filter (fun r => negb (listed filePaths r)) t).

(** SELECT COUNT( * )::int as count FROM cortex_file_chunks *)
Definition count_chunks : Statement Z :=
  fun t => Ok (Z.of_nat (length t), t).

(** DELETE FROM cortex_file_chunks *)
Definition delete_all : Statement unit :=
  fun t => Ok (tt, []).

(** UPDATE cortex_metadata SET ...: a statement on another table. *)
Definition reset_metadata : Statement unit :=
  fun t => Ok (tt, t).

(** [await sql`...`] as the [n]-th await of a tool call. *)
Definition run_statement {A} (env : Env) (n : nat) (s : Statement A) (t : Table)
    : Outcome (A * Table) :=
  if postgres_up env n then s t else Throw DatabaseError.

(** What the text of the tool's reply says. *)
Inductive DeleteReply :=
| ConfirmationRequired                                   (* Deletion requires confirmation. *)
| FilesDeleted (deletedFiles : list string) (chunks : Z) (* Deleted embeddings for ... file(s) *)
| AllDeleted (beforeCount : Z)                           (* All data deleted from Cortex *)
| DeletionFailed (error : Exn).                          (* Deletion failed: ... *)

(** [deleteTool], with the value of WORKSPACE_ROOT; it returns its reply
    and leaves a table. *)
Definition deleteTool (env : Env) (workspaceRoot : string)
    (files : option (list string)) (confirm : bool) (t : Table)
    : DeleteReply * Table :=
  if negb confirm then (ConfirmationRequired, t)
  else
    match files with
    | Some (f :: others) =>
        let filePaths := map (absolute workspaceRoot) (f :: others) in
        match run_statement env 0 (delete_any filePaths) t with
        | Ok (result, t') =>
            (FilesDeleted (distinct [] result) (Z.of_nat (length result)), t')
        | Throw error => (DeletionFailed error, t)
        end
    | _ =>
        match run_statement env 0 count_chunks t with
        | Ok (beforeCount, t1) =>
            match run_statement env 1 delete_all t1 with
            | Ok (_, t2) =>
                match run_statement env 2 reset_metadata t2 with
                | Ok (_, t3) => (AllDeleted beforeCount, t3)
                | Throw error => (DeletionFailed error, t2)
                end
            | Throw error => (DeletionFailed error, t1)
            end
        | Throw error => (DeletionFailed error, t)
        end
    end.

(** * The vocabulary of the properties *)

(** ** Chunks *)

Definition ceil_div (a b : Z) : Z := (a + b - 1) / b.

(** A chunk minus the overlap window it repeats from its predecessor, all
    put together. *)
Definition non_overlapping (chunks : list Chunk.t) : jsstring :=
  match chunks with
  | [] => []
  | first :: rest =>
      Chunk.content first
      ++ concat (map (fun c => slice_from (Chunk.content c) OVERLAP_SIZE) rest)
  end.

(** The chunks are numbered from [i] on. *)
Fixpoint numbered_from (i : Z) (chunks : list Chunk.t) : Prop :=
  match chunks with
  | [] => True
  | c :: rest => Chunk.index c = i /\ numbered_from (i + 1) rest
  end.

Ltac unfold_sizes := unfold MAX_CHUNK_SIZE, OVERLAP_SIZE in *.

(** The end of the window that starts at [start]. *)
Definition window_end (content : jsstring) (start : Z) : Z :=
  Z.min (start + MAX_CHUNK_SIZE) (len content).

Section Runs.

Variable sha256 : jsstring -> string.

(** The iterations of the loop of [chunkPlainText] from [start] on: the
    loop is over, it breaks after this chunk, or it goes round again. *)
Inductive plain_run (content : jsstring) : Z -> Z -> list Chunk.t -> Prop :=
| run_over start i :
    len content <= start ->
    plain_run content start i []
| run_break start i :
    start < len content ->
    window_end content start - OVERLAP_SIZE <= start ->
    plain_run content start i
      [createChunk sha256 (slice content start (window_end content start)) i None]
| run_again start i out :
    start < len content ->
    start < window_end content start - OVERLAP_SIZE ->
    plain_run content (window_end content start - OVERLAP_SIZE) (i + 1) out ->
    plain_run content start i
      (createChunk sha256 (slice content start (window_end content start)) i None
       :: out).

End Runs.

(** ** Tables and runs *)

(** A call of the pipeline starts on a table, with nothing awaited yet. *)
Definition start (t : Table) : World := {| table := t; log := [] |}.

Definition rows_of (filePath : string) (t : Table) : Table :=
  filter (fun r => String.eqb (Row.file_path r) filePath) t.

Definition other_rows (filePath : string) (t : Table) : Table :=
  filter (fun r => negb (String.eqb (Row.file_path r) filePath)) t.

(** The fingerprint the table records for a path: the file hash of the
    first of its rows, as the lookup with LIMIT 1 reads it. *)
Definition stored_fingerprint (filePath : string) (t : Table) : option string :=
  match rows_of filePath t with
  | r :: _ => Some (Row.file_hash r)
  | [] => None
  end.

Definition row_key (r : Row.t) : string * Z := (Row.file_path r, Row.chunk_index r).

(** No two rows of the table share (file path, chunk index). *)
Definition unique_keys (t : Table) : Prop := NoDup (map row_key t).

(** The rows of one path all carry one file hash, so whichever row the
    lookup with LIMIT 1 returns, it returns that hash. *)
Definition one_fingerprint (t : Table) : Prop :=
  forall r r', In r t -> In r' t ->
               Row.file_path r = Row.file_path r' -> Row.file_hash r = Row.file_hash r'.

(** The chunks the write path does not hold back. *)
Definition storable (chunks : list Chunk.t) : list Chunk.t :=
  filter (fun c => negb (oversized c)) chunks.

(** Calls that neither chunk, nor embed, nor write. *)
Definition reads_only (e : Event) : Prop :=
  match e with
  | ReadFile _ | SelectFileHash _ => True
  | _ => False
  end.

Definition chunks_or_embeds (e : Event) : Prop :=
  match e with
  | ChunkDocument _ | Embedding _ => True
  | _ => False
  end.

(** [rows] are the rows of [chunks], in order, each with some vector. *)
Definition rows_for (filePath fileHash : string) (fileType : FileType)
    (chunks : list Chunk.t) (rows : list Row.t) : Prop :=
  Forall2 (fun c r => exists v, r = chunk_row filePath fileHash fileType c v)
    chunks rows.

Definition skip_result : FileResult.t :=
  {| FileResult.chunks := 0; FileResult.skipped := true |}.

(** The world after the file was read, the fingerprint looked up, the old
    rows deleted and the content chunked. *)
Definition ready (filePath : string) (t : Table) : World :=
  {| table := other_rows filePath t;
     log := [ (ReadFile filePath, t);
              (SelectFileHash filePath, t);
              (DeleteChunks filePath, other_rows filePath t);
              (ChunkDocument filePath, other_rows filePath t) ] |}.

Section Syncs.

Variable sha256 : jsstring -> string.
Variable extname : string -> string.

(** The stored fingerprint is the digest of [content]. *)
Definition unchanged (filePath : string) (content : jsstring) (t : Table) : bool :=
  match stored_fingerprint filePath t with
  | Some stored => String.eqb stored (hashFile sha256 content)
  | None => false
  end.

(** The chunks of the content as [syncFile] cuts them. *)
Definition new_chunks (filePath : string) (content : jsstring) : list Chunk.t :=
  chunkDocument sha256 filePath content (getFileType extname filePath).

(** Further syncs of one path without force, each in the world it meets:
    their outcomes, and the table they leave. *)
Fixpoint resync (envs : list Env) (filePath : string) (t : Table)
    : list (Outcome FileResult.t) * Table :=
  match envs with
  | [] => ([], t)
  | env :: rest =>
      let run := syncFile sha256 extname env filePath false (start t) in
      let later := resync rest filePath (table (snd run)) in
      (fst run :: fst later, snd later)
  end.

Variable env : Env.

(** The run of [syncFile] from the deletion on. *)
Definition proceeds (filePath : string) (content : jsstring) (t : Table)
    : Outcome FileResult.t * World :=
  match process_chunks env filePath (hashFile sha256 content)
          (getFileType extname filePath) (new_chunks filePath content) 0
          (ready filePath t) with
  | (Ok created, w) =>
      (Ok {| FileResult.chunks := created; FileResult.skipped := false |}, w)
  | (Throw e, w) => (Throw e, w)
  end.

End Syncs.

(** Rows in the order of ORDER BY: each distance is at most the next. *)
Fixpoint by_distance (l : list (Row.t * option R)) : Prop :=
  match l with
  | x :: (y :: _) as rest => distance_leb (snd x) (snd y) = true /\ by_distance rest
  | _ => True
  end.

(** The WHERE clause chosen by [queryVectorDatabase]. *)
Definition where_types (fileTypeFilter : option (list string))
    : option (list string) :=
  match fileTypeFilter with
  | Some (fileType :: others) => Some (fileType :: others)
  | _ => None
  end.

Arguments select_nearest : simpl never.

(** ** Windows, trimming and headings *)

(** The number of windows the fixed-window chunker cuts from [n]
    characters. *)
Definition window_count (n : Z) : Z :=
  if n <=? 0 then 0
  else if n <=? OVERLAP_SIZE then 1
  else ceil_div (n - OVERLAP_SIZE) (MAX_CHUNK_SIZE - OVERLAP_SIZE) + 1.

(** No white space at either end. *)
Definition trimmed (s : jsstring) : Prop := trim s = s.

(** No [#] anywhere. *)
Definition hash_free (s : jsstring) : Prop := Forall (fun c => is_hash c = false) s.

(** The text of a Markdown content outside its heading lines. *)
Definition body_text (parts : list jsstring) : jsstring :=
  concat (filter (fun part => negb (is_heading part)) parts).

(** The label of the last heading line of the parts, [label] if there is
    none. *)
Definition last_label (label : jsstring) (parts : list jsstring) : jsstring :=
  fold_left (fun label part =>
               if is_heading part then trim (strip_heading_marker part) else label)
    parts label.

(** ** The embedding service and the order of the results *)

(** The service answers the requests for [texts], made one after the other
    from the [n]-th await on, with the vectors [vectors]. *)
Fixpoint answered (env : Env) (n : nat) (texts : list jsstring)
    (vectors : list vector) : Prop :=
  match texts, vectors with
  | [], [] => True
  | text :: texts', v :: vectors' =>
      ollama env n text = Json (Some v) /\ answered env (S n) texts' vectors'
  | _, _ => False
  end.

(** What the client raises on a reply, if anything. *)
Definition refusal (reply : Response) : option Exn :=
  match reply with
  | NoReply => Some FetchFailed
  | Status => Some HttpError
  | Json None => Some InvalidEmbedding
  | Json (Some _) => None
  end.

(** The requests the client logs for [texts]. *)
Definition requests (texts : list jsstring) (t : Table) : list (Event * Table) :=
  map (fun text => (Embedding text, t)) texts.

(** The order of the results: similarity going down, NaN last. *)
Definition similarity_geb (x y : option R) : bool :=
  match x, y with
  | _, None => true
  | None, Some _ => false
  | Some a, Some b => if Rle_dec b a then true else false
  end.

Fixpoint by_similarity (l : list RetrievalResult.t) : Prop :=
  match l with
  | x :: (y :: _) as rest =>
      similarity_geb (RetrievalResult.similarity x) (RetrievalResult.similarity y) = true
      /\ by_similarity rest
  | _ => True
  end.

(** ** Calls that start later *)

(** The outside world as a call meets it that starts when [n] awaits have
    been made. *)
Definition later (n : nat) (env : Env) : Env :=
  {| fs := fs env;
     ollama := fun k => ollama env (n + k);
     postgres_up := fun k => postgres_up env (n + k);
     distance := distance env;
     scanned := scanned env |}.

(** A run from [start (table w)], told as the run from [w] it is. *)
Definition resume {A} (w : World) (run : Outcome A * World) : Outcome A * World :=
  (fst run, {| table := table (snd run); log := log w ++ log (snd run) |}).

(** The prompts sent to the embedding service, in the order of the
    requests. *)
Definition prompts (l : list (Event * Table)) : list jsstring :=
  flat_map (fun s => match fst s with
                     | Embedding prompt => [prompt]
                     | _ => []
                     end) l.

(** What [createChunk] and [chunk_row] make of a chunk, read off a row. *)
Definition well_formed_row (sha256 : jsstring -> string) (r : Row.t) : Prop :=
  Row.chunk_hash r = sha256 (Row.content r)
  /\ Row.token_count r = len (Row.content r) / 4
  /\ len (Row.content r) <= 4000
  /\ 0 <= Row.chunk_index r
  /\ Row.section r <> Some []
  /\ match Row.language r with
     | Some language =>
         (language = "typescript"%string
          /\ (Row.file_type r = "ts"%string \/ Row.file_type r = "tsx"%string))
         \/ (language = "json"%string /\ Row.file_type r = "json"%string)
     | None => Row.file_type r = "md"%string
     end.

(** The digest and the token count [createChunk] gives a chunk. *)
Definition made (sha256 : jsstring -> string) (c : Chunk.t) : Prop :=
  Chunk.hash c = sha256 (Chunk.content c)
  /\ Chunk.tokenCount c = len (Chunk.content c) / 4.

(** ** Batches *)

(** The reads of a file that is skipped. *)
Definition skip_reads (t : Table) (filePath : string) : list (Event * Table) :=
  [(ReadFile filePath, t); (SelectFileHash filePath, t)].

(** The table records for [filePath] the digest of what the file holds. *)
Definition up_to_date (sha256 : jsstring -> string) (env : Env) (t : Table)
    (filePath : string) : Prop :=
  exists content,
    fs env filePath = Ok content
    /\ stored_fingerprint filePath t = Some (hashFile sha256 content).

(** The calls of [syncFile] a batch makes, one for each path in the order
    of the list, each from the world the call before left: every path with
    what its call returned or threw, and the world after the last call. *)
Fixpoint file_runs (sha256 : jsstring -> string) (extname : string -> string)
    (env : Env) (filePaths : list string) (force : bool) (w : World)
    : list (string * Outcome FileResult.t) * World :=
  match filePaths with
  | [] => ([], w)
  | filePath :: rest =>
      let run := syncFile sha256 extname env filePath force w in
      let others := file_runs sha256 extname env rest force (snd run) in
      ((filePath, fst run) :: fst others, snd others)
  end.

(** The calls that returned and were not skipped, with their results. *)
Fixpoint processed (runs : list (string * Outcome FileResult.t))
    : list (string * FileResult.t) :=
  match runs with
  | [] => []
  | (filePath, Ok fileResult) :: rest =>
      if FileResult.skipped fileResult then processed rest
      else (filePath, fileResult) :: processed rest
  | (_, Throw _) :: rest => processed rest
  end.

(** The paths of the calls that returned as skipped. *)
Fixpoint passed_over (runs : list (string * Outcome FileResult.t)) : list string :=
  match runs with
  | [] => []
  | (filePath, Ok fileResult) :: rest =>
      if FileResult.skipped fileResult then filePath :: passed_over rest
      else passed_over rest
  | (_, Throw _) :: rest => passed_over rest
  end.

(** The calls that threw, with what they threw. *)
Fixpoint failures (runs : list (string * Outcome FileResult.t))
    : list (string * Exn) :=
  match runs with
  | [] => []
  | (filePath, Throw e) :: rest => (filePath, e) :: failures rest
  | (_, Ok _) :: rest => failures rest
  end.

(** The chunks that the calls in [done] report. *)
Definition chunks_reported (done : list (string * FileResult.t)) : Z :=
  fold_right Z.add 0 (map (fun run => FileResult.chunks (snd run)) done).

(** ** Stand-ins for the worked runs

    A digest that reads a text back as it is (so different texts have
    different digests), the extension of a plain file name, a file system of
    four files, an embedding service that answers every request with one
    vector or not at all, and a database that answers every statement. *)

Definition text_digest (s : jsstring) : string :=
  string_of_list_ascii (map ascii_of_N s).

(** The part of a plain file name from its last dot on. *)
Fixpoint name_extension (name : string) : string :=
  match name with
  | EmptyString => EmptyString
  | String c rest =>
      match name_extension rest with
      | EmptyString => if Ascii.eqb c "." then name else EmptyString
      | ext => ext
      end
  end.

Definition files (filePath : string) : Outcome jsstring :=
  if String.eqb filePath "a.ts" then Ok (js "hello")
  else if String.eqb filePath "empty.ts" then Ok []
  else if String.eqb filePath "big.md" then Ok (repeat 97%N 4001)
  else if String.eqb filePath "title.md" then Ok (js "# Title" ++ [10%N] ++ js "body")
  else Throw FsError.

Definition answering (reply : Response) : Env :=
  {| fs := files;
     ollama := fun _ _ => reply;
     postgres_up := fun _ => true;
     distance := cosine_distance;
     scanned := fun _ _ _ => true |}.

Definition service_up : Env := answering (Json (Some [1%R])).
Definition service_down : Env := answering NoReply.

(** A row left by an earlier sync of [filePath], of content since changed. *)
Definition stale_row (filePath : string) : Row.t :=
  {| Row.file_path := filePath;
     Row.file_hash := "stale";
     Row.file_type := "ts";
     Row.chunk_index := 0;
     Row.chunk_hash := "stale";
     Row.content := js "old";
     Row.token_count := 0;
     Row.embedding := [1%R];
     Row.section := None;
     Row.language := None |}.

(** A row of a.ts as a sync of "hello" writes it. *)
Definition hello_row : Row.t :=
  chunk_row "a.ts" (text_digest (js "hello")) ts
    (createChunk text_digest (js "hello") 0 None) [1%R].

(** An embedding service that answers every query with the vector (-1). *)
Definition service_opposite : Env := answering (Json (Some [(-1)%R])).

(** A database that answers no statement. *)
Definition database_down : Env :=
  {| fs := files;
     ollama := fun _ _ => Json (Some [1%R]);
     postgres_up := fun _ => false;
     distance := cosine_distance;
     scanned := fun _ _ _ => true |}.

(** An embedding service that answers its first [n] awaits only. *)
Definition service_until (n : nat) : Env :=
  {| fs := fun filePath =>
             if String.eqb filePath "long.ts" then Ok (repeat 97%N 200)
             else Throw FsError;
     ollama := fun k _ => if (k <? n)%nat then Json (Some [1%R]) else NoReply;
     postgres_up := fun _ => true;
     distance := cosine_distance;
     scanned := fun _ _ _ => true |}.

(** * Properties *)

(** ** Slices *)

Lemma len_nonneg (s : jsstring) : 0 <= len s.
Proof. unfold len. lia. Qed.

Lemma slice_inside (s : jsstring) (a b : Z) :
  0 <= a -> a <= b -> b <= len s ->
  slice s a b = firstn (Z.to_nat (b - a)) (skipn (Z.to_nat a) s).
Proof.
  intros Ha Hab Hb. unfold slice.
  destruct (a <? 0) eqn:Ea; [apply Z.ltb_lt in Ea; lia|].
  destruct (b <? 0) eqn:Eb; [apply Z.ltb_lt in Eb; lia|].
  rewrite (Z.min_l a), (Z.min_l b) by lia.
  rewrite Z.max_l by lia. reflexivity.
Qed.

Lemma len_slice (s : jsstring) (a b : Z) :
  0 <= a -> a <= b -> b <= len s -> len (slice s a b) = b - a.
Proof.
  intros Ha Hab Hb. rewrite slice_inside by assumption.
  unfold len in *. rewrite length_firstn, length_skipn. lia.
Qed.

Lemma slice_whole (s : jsstring) : slice s 0 (len s) = s.
Proof.
  rewrite slice_inside by (pose proof (len_nonneg s); lia).
  simpl. unfold len. rewrite Z.sub_0_r, Nat2Z.id. apply firstn_all.
Qed.

Lemma slice_empty (s : jsstring) (a : Z) :
  0 <= a -> a <= len s -> slice s a a = [].
Proof.
  intros Ha Hb. rewrite slice_inside by lia.
  rewrite Z.sub_diag. reflexivity.
Qed.

(** Two adjacent slices make one. *)
Lemma slice_app (s : jsstring) (a b c : Z) :
  0 <= a -> a <= b -> b <= c -> c <= len s ->
  slice s a b ++ slice s b c = slice s a c.
Proof.
  intros Ha Hab Hbc Hc. rewrite !slice_inside by lia.
  replace (Z.to_nat (c - a)) with (Z.to_nat (b - a) + Z.to_nat (c - b))%nat by lia.
  replace (Z.to_nat b) with (Z.to_nat (b - a) + Z.to_nat a)%nat by lia.
  rewrite <- skipn_skipn.
  generalize (skipn (Z.to_nat a) s) as l.
  generalize (Z.to_nat (b - a)) as n. generalize (Z.to_nat (c - b)) as m.
  intros m n. induction n as [|n IH]; intros l.
  - reflexivity.
  - destruct l as [|x l].
    + simpl. now rewrite firstn_nil.
    + simpl. now rewrite IH.
Qed.

(** A slice of a slice, taken from offset [k] on. *)
Lemma slice_from_slice (s : jsstring) (a b k : Z) :
  0 <= a -> a <= b -> b <= len s -> 0 <= k ->
  slice_from (slice s a b) k = slice s (Z.min (a + k) b) b.
Proof.
  intros Ha Hab Hb Hk. unfold slice_from.
  rewrite len_slice by lia.
  destruct (Z.le_gt_cases (a + k) b) as [Hin|Hout].
  - rewrite Z.min_l by lia.
    rewrite (slice_inside (slice s a b)) by (rewrite ?len_slice; lia).
    rewrite !slice_inside by lia.
    rewrite skipn_firstn_comm, skipn_skipn.
    replace (Z.to_nat k + Z.to_nat a)%nat with (Z.to_nat (a + k)) by lia.
    replace (Z.to_nat (b - a) - Z.to_nat k)%nat with (Z.to_nat (b - (a + k))) by lia.
    replace (Z.to_nat (b - a - k)) with (Z.to_nat (b - (a + k))) by lia.
    rewrite firstn_firstn. now rewrite Nat.min_id.
  - rewrite Z.min_r by lia. rewrite (slice_empty s b) by lia.
    assert (Ht : len (slice s a b) = b - a) by (apply len_slice; lia).
    revert Ht. generalize (slice s a b) as t. intros t Ht.
    unfold slice. rewrite Ht.
    destruct (k <? 0) eqn:Ek; [apply Z.ltb_lt in Ek; lia|].
    destruct (b - a <? 0) eqn:Eb; [apply Z.ltb_lt in Eb; lia|].
    rewrite (Z.min_r k), (Z.min_l (b - a)) by lia.
    rewrite Z.sub_diag. reflexivity.
Qed.

(** ** The split on heading lines *)

Lemma heading_at_positive (s : jsstring) (n : nat) :
  heading_at s = Some n -> (1 <= n)%nat.
Proof.
  unfold heading_at.
  destruct ((1 <=? length (take_while is_hash s))
            && (length (take_while is_hash s) <=? 6))%nat eqn:Hhashes;
    [|discriminate].
  apply andb_true_iff in Hhashes. destruct Hhashes as [Hone _].
  apply Nat.leb_le in Hone.
  destruct (space_run _ _); [|discriminate].
  intros H. inversion H. lia.
Qed.

(** The scan of [split] never runs out of fuel: each step takes at least
    one character, and with more fuel than characters the result is that of
    [split_on_headings]. *)
Lemma split_headings_fuel (k : nat) :
  forall (rest : jsstring) (fuel : nat) (bol : bool) (cur : jsstring),
    length rest = k -> (k < fuel)%nat ->
    split_headings fuel bol cur rest = split_headings (S k) bol cur rest.
Proof.
  induction k as [k IH] using lt_wf_ind.
  intros rest fuel bol cur Hlen Hfuel.
  destruct fuel as [|fuel]; [lia|].
  destruct rest as [|c rest]; [reflexivity|].
  simpl split_headings.
  destruct (if bol then heading_at (c :: rest) else None) as [n|] eqn:Hmatch.
  - assert (Hn : (1 <= n)%nat).
    { destruct bol; [|discriminate]. now apply heading_at_positive in Hmatch. }
    do 2 f_equal.
    assert (Hshort : (length (skipn n (c :: rest)) < k)%nat)
      by (rewrite length_skipn, Hlen; simpl in Hlen; lia).
    rewrite (IH _ Hshort (skipn n (c :: rest)) fuel false [] eq_refl) by lia.
    rewrite (IH _ Hshort (skipn n (c :: rest)) k false [] eq_refl) by lia.
    reflexivity.
  - simpl in Hlen. destruct k as [|k]; [lia|].
    assert (Hrest : length rest = k) by lia.
    apply (IH k (Nat.lt_succ_diag_r k) rest fuel _ _ Hrest). lia.
Qed.

(** The pieces of the split, heading lines included, are the content. *)
Lemma split_headings_concat (fuel : nat) :
  forall (bol : bool) (cur rest : jsstring),
    concat (split_headings fuel bol cur rest) = cur ++ rest.
Proof.
  induction fuel as [|fuel IH]; intros bol cur rest; simpl.
  - now rewrite app_nil_r.
  - destruct rest as [|c rest]; [reflexivity|].
    destruct (if bol then heading_at (c :: rest) else None) as [n|].
    + simpl concat. rewrite IH. simpl app at 2.
      now rewrite firstn_skipn.
    + rewrite IH. now rewrite <- app_assoc.
Qed.

(** ** The fixed-window chunker *)

Section PlainText.

Variable sha256 : jsstring -> string.

(** With fuel for the characters left, the loop ends by itself. *)
Lemma chunkPlainText_loop_run (fuel : nat) :
  forall content start i acc,
    Z.max 0 (len content - start) < Z.of_nat fuel ->
    exists out,
      chunkPlainText_loop sha256 fuel content start i acc = Some (acc ++ out)
      /\ plain_run sha256 content start i out.
Proof.
  induction fuel as [|fuel IH]; intros content start i acc Hfuel; [lia|].
  simpl. destruct (start <? len content) eqn:Hs.
  - apply Z.ltb_lt in Hs. fold (window_end content start).
    destruct (window_end content start - OVERLAP_SIZE <=? start) eqn:Hn.
    + apply Z.leb_le in Hn. eexists. split; [reflexivity|].
      now apply run_break.
    + apply Z.leb_gt in Hn.
      destruct (IH content (window_end content start - OVERLAP_SIZE) (i + 1)
                  (acc ++ [createChunk sha256
                             (slice content start (window_end content start)) i None]))
        as [out [Hrun Hout]].
      { unfold window_end in *. unfold_sizes. lia. }
      exists (createChunk sha256 (slice content start (window_end content start)) i None
                :: out).
      split.
      * rewrite Hrun, <- app_assoc. reflexivity.
      * now apply run_again.
  - apply Z.ltb_ge in Hs. exists []. rewrite app_nil_r. split; [reflexivity|].
    now apply run_over.
Qed.

Lemma chunkPlainText_run (content : jsstring) :
  plain_run sha256 content 0 0 (chunkPlainText sha256 content).
Proof.
  unfold chunkPlainText.
  destruct (chunkPlainText_loop_run (plain_fuel content) content 0 0 [])
    as [out [Hrun Hout]].
  { unfold plain_fuel, len. lia. }
  rewrite Hrun. exact Hout.
Qed.

Lemma plain_run_deterministic (content : jsstring) (start i : Z)
    (out out' : list Chunk.t) :
  plain_run sha256 content start i out -> plain_run sha256 content start i out' -> out = out'.
Proof.
  intros Hout. revert out'.
  induction Hout as [s i Hs | s i Hs Hn | s i out Hs Hn Hr IH];
    intros out' Hout'; inversion Hout'; subst; try lia; try reflexivity.
  f_equal. now apply IH.
Qed.

(** More fuel changes nothing. *)
Lemma chunkPlainText_fuel (content : jsstring) (fuel : nat) :
  (plain_fuel content <= fuel)%nat ->
  chunkPlainText_loop sha256 fuel content 0 0 [] = Some (chunkPlainText sha256 content).
Proof.
  intros Hfuel.
  destruct (chunkPlainText_loop_run fuel content 0 0 []) as [out [Hrun Hout]].
  { unfold plain_fuel, len in *. lia. }
  rewrite Hrun. simpl. f_equal.
  eapply plain_run_deterministic; [exact Hout | apply chunkPlainText_run].
Qed.

(** The number of chunks from [start] on. *)
Lemma plain_run_count (content : jsstring) (start i : Z) (out : list Chunk.t) :
  plain_run sha256 content start i out ->
  (len content - start <= OVERLAP_SIZE -> Z.of_nat (length out) <= 1)
  /\ (OVERLAP_SIZE < len content - start ->
      (MAX_CHUNK_SIZE - OVERLAP_SIZE) * (Z.of_nat (length out) - 2)
      < len content - start - OVERLAP_SIZE).
Proof.
  induction 1 as [start i Hs | start i Hs Hn | start i out Hs Hn Hrun IH];
    unfold window_end in *; simpl length; unfold_sizes.
  - lia.
  - lia.
  - destruct IH as [IH1 IH2]. lia.
Qed.

(** Every chunk is a window of one to [MAX_CHUNK_SIZE] characters. *)
Lemma plain_run_sizes (content : jsstring) (start i : Z) (out : list Chunk.t) :
  plain_run sha256 content start i out ->
  0 <= start ->
  Forall (fun c => 0 < len (Chunk.content c) <= MAX_CHUNK_SIZE) out.
Proof.
  induction 1 as [start i Hs | start i Hs Hn | start i out Hs Hn Hrun IH];
    intros Hstart; unfold window_end in *.
  - constructor.
  - constructor; [|constructor]. simpl.
    rewrite len_slice by (unfold_sizes; lia). unfold_sizes. lia.
  - constructor.
    + simpl. rewrite len_slice by (unfold_sizes; lia). unfold_sizes. lia.
    + apply IH. unfold_sizes. lia.
Qed.

Lemma plain_run_numbered (content : jsstring) (start i : Z) (out : list Chunk.t) :
  plain_run sha256 content start i out -> numbered_from i out.
Proof.
  induction 1; simpl; auto.
Qed.

(** What the chunks after the first add to it: the content from the end
    of the first window on. *)
Lemma plain_run_tail (content : jsstring) (start i : Z) (out : list Chunk.t) :
  plain_run sha256 content start i out ->
  0 <= start -> start < len content ->
  concat (map (fun c => slice_from (Chunk.content c) OVERLAP_SIZE) out)
  = slice content (Z.min (start + OVERLAP_SIZE) (len content)) (len content).
Proof.
  induction 1 as [start i Hs | start i Hs Hn | start i out Hs Hn Hrun IH];
    intros Hstart Hlt; unfold window_end in *.
  - lia.
  - simpl. rewrite app_nil_r.
    rewrite slice_from_slice by (unfold_sizes; lia).
    f_equal; unfold_sizes; lia.
  - simpl. rewrite IH by (unfold_sizes; lia).
    rewrite slice_from_slice by (unfold_sizes; lia).
    replace (Z.min (start + OVERLAP_SIZE) (Z.min (start + MAX_CHUNK_SIZE) (len content)))
      with (Z.min (start + OVERLAP_SIZE) (len content)) by (unfold_sizes; lia).
    replace (Z.min (Z.min (start + MAX_CHUNK_SIZE) (len content) - OVERLAP_SIZE
                    + OVERLAP_SIZE) (len content))
      with (Z.min (start + MAX_CHUNK_SIZE) (len content)) by (unfold_sizes; lia).
    apply slice_app; unfold_sizes; lia.
Qed.

End PlainText.

(** ** The chunker as a whole *)

Lemma len_zero (s : jsstring) : len s <= 0 -> s = [].
Proof. destruct s; [reflexivity | unfold len; simpl; lia]. Qed.

Lemma numbered_from_app (i : Z) (l : list Chunk.t) (c : Chunk.t) :
  numbered_from i l -> Chunk.index c = i + Z.of_nat (length l) ->
  numbered_from i (l ++ [c]).
Proof.
  revert i. induction l as [|x l IH]; intros i Hl Hc; simpl in *.
  - split; [lia | exact I].
  - destruct Hl as [Hx Hl]. split; [exact Hx|]. apply IH; [exact Hl | lia].
Qed.

Lemma numbered_from_lower (i : Z) (l : list Chunk.t) :
  numbered_from i l -> Forall (fun c => i <= Chunk.index c) l.
Proof.
  revert i. induction l as [|x l IH]; intros i Hl; simpl in *; constructor.
  - lia.
  - destruct Hl as [_ Hl]. apply IH in Hl.
    eapply Forall_impl; [|exact Hl]. simpl. intros; lia.
Qed.

(** Chunks numbered in a row carry pairwise different numbers. *)
Lemma numbered_from_NoDup (i : Z) (l : list Chunk.t) :
  numbered_from i l -> NoDup (map Chunk.index l).
Proof.
  revert i. induction l as [|x l IH]; intros i Hl; simpl in *; constructor.
  - destruct Hl as [Hx Hl]. apply numbered_from_lower in Hl.
    rewrite in_map_iff. intros [c [Hc Hin]].
    rewrite Forall_forall in Hl. apply Hl in Hin. lia.
  - destruct Hl as [_ Hl]. now apply IH in Hl.
Qed.

Section ChunkerProperties.

Variable sha256 : jsstring -> string.

Lemma md_step_numbered (st : MdState) (part : jsstring) :
  numbered_from 0 (chunks st) /\ chunkIndex st = Z.of_nat (length (chunks st)) ->
  numbered_from 0 (chunks (md_step sha256 st part))
  /\ chunkIndex (md_step sha256 st part)
     = Z.of_nat (length (chunks (md_step sha256 st part))).
Proof.
  intros [Hn Hi]. unfold md_step.
  destruct (is_heading part); [now split|].
  destruct (MAX_CHUNK_SIZE <? len (currentContent st ++ part)); [|now split].
  simpl. split.
  - apply numbered_from_app; [exact Hn | simpl; lia].
  - rewrite length_app. simpl. lia.
Qed.

Lemma chunkMarkdown_numbered (content : jsstring) :
  numbered_from 0 (chunkMarkdown sha256 content).
Proof.
  unfold chunkMarkdown.
  assert (H : forall parts st,
             numbered_from 0 (chunks st)
             /\ chunkIndex st = Z.of_nat (length (chunks st)) ->
             numbered_from 0 (chunks (fold_left (md_step sha256) parts st))
             /\ chunkIndex (fold_left (md_step sha256) parts st)
                = Z.of_nat (length (chunks (fold_left (md_step sha256) parts st)))).
  { induction parts as [|part parts IH]; intros st Hst; simpl; [exact Hst|].
    apply IH. now apply md_step_numbered. }
  destruct (H (split_on_headings content) md_init) as [Hn Hi].
  { simpl. split; [exact I | reflexivity]. }
  destruct (trim (currentContent (fold_left (md_step sha256)
                                    (split_on_headings content) md_init)));
    [exact Hn|].
  apply numbered_from_app; [exact Hn | simpl; lia].
Qed.

(** Whatever the file type, the chunks of a document are numbered 0, 1, 2, ... *)
Lemma chunkDocument_numbered (filePath : string) (content : jsstring)
    (fileType : FileType) :
  numbered_from 0 (chunkDocument sha256 filePath content fileType).
Proof.
  destruct fileType; simpl; unfold chunkTypeScript;
    first [ apply chunkMarkdown_numbered
          | eapply plain_run_numbered; apply chunkPlainText_run ].
Qed.

Lemma chunkDocument_plain (filePath : string) (content : jsstring)
    (fileType : FileType) :
  fileType <> md ->
  chunkDocument sha256 filePath content fileType = chunkPlainText sha256 content.
Proof. destruct fileType; intros H; [contradiction | reflexivity ..]. Qed.

(** C5, as the code has it.  The loop of the fixed-window chunker ends by
    itself on every content: with the fuel of [chunkPlainText], and with
    any amount more, it returns the same chunks.  Their number is at most
    [ceil(length / (MAX_CHUNK_SIZE - OVERLAP_SIZE)) + 1]: after the window
    that reaches the end of the content the loop goes round once more and
    adds the last [OVERLAP_SIZE] characters as a chunk of their own. *)
Theorem chunkPlainText_forward_progress (content : jsstring) (extra : nat) :
  chunkPlainText_loop sha256 (plain_fuel content + extra) content 0 0 []
  = Some (chunkPlainText sha256 content)
  /\ Z.of_nat (length (chunkPlainText sha256 content))
     <= ceil_div (len content) (MAX_CHUNK_SIZE - OVERLAP_SIZE) + 1.
Proof.
  split.
  - apply chunkPlainText_fuel. lia.
  - destruct (plain_run_count sha256 content 0 0 _ (chunkPlainText_run sha256 content))
      as [Hshort Hlong].
    pose proof (len_nonneg content) as Hlen.
    unfold ceil_div. unfold_sizes.
    destruct (Z.le_gt_cases (len content - 0) (25 * 4)) as [Hle|Hgt].
    + specialize (Hshort Hle).
      assert (0 <= (len content + (256 * 4 - 25 * 4) - 1) / (256 * 4 - 25 * 4))
        by (apply Z.div_pos; lia).
      lia.
    + assert (Hlt : 25 * 4 < len content - 0) by lia. specialize (Hlong Hlt).
      assert (Z.of_nat (length (chunkPlainText sha256 content)) - 1
              <= (len content + (256 * 4 - 25 * 4) - 1) / (256 * 4 - 25 * 4))
        by (apply Z.div_le_lower_bound; lia).
      lia.
Qed.

(** C6, as the code has it.  For the file types chunked by fixed windows
    (ts, tsx, json) the first chunk, followed by every later chunk without
    its first [OVERLAP_SIZE] characters, is the content again. *)
Theorem chunkDocument_lossless_plain (filePath : string) (content : jsstring)
    (fileType : FileType) :
  fileType <> md ->
  non_overlapping (chunkDocument sha256 filePath content fileType) = content.
Proof.
  intros Hty. rewrite chunkDocument_plain by exact Hty.
  pose proof (chunkPlainText_run sha256 content) as Hrun.
  pose proof (len_nonneg content) as Hlen.
  inversion Hrun as [s i Hs | s i Hs Hn | s i out Hs Hn Hout]; subst; simpl.
  - symmetry. now apply len_zero.
  - rewrite app_nil_r. unfold window_end in *.
    replace (Z.min (0 + MAX_CHUNK_SIZE) (len content)) with (len content)
      by (unfold_sizes; lia).
    apply slice_whole.
  - rewrite (plain_run_tail sha256 content _ _ _ Hout)
      by (unfold window_end in *; unfold_sizes; lia).
    unfold window_end in *.
    replace (Z.min (Z.min (0 + MAX_CHUNK_SIZE) (len content) - OVERLAP_SIZE
                    + OVERLAP_SIZE) (len content))
      with (Z.min (0 + MAX_CHUNK_SIZE) (len content)) by (unfold_sizes; lia).
    rewrite slice_app by (unfold_sizes; lia).
    apply slice_whole.
Qed.

(** C10.  A file that is not Markdown is cut into chunks of one to
    [MAX_CHUNK_SIZE] = 1024 characters, so the write path's guard against
    chunks of more than 4000 characters holds back none of them (the
    chunks the write path stores are all the chunks): only chunks of a
    Markdown file can be held back. *)
Theorem chunkDocument_plain_sizes (filePath : string) (content : jsstring)
    (fileType : FileType) :
  fileType <> md ->
  Forall (fun c => 0 < len (Chunk.content c) <= 1024 /\ oversized c = false)
    (chunkDocument sha256 filePath content fileType)
  /\ storable (chunkDocument sha256 filePath content fileType)
     = chunkDocument sha256 filePath content fileType.
Proof.
  intros Hty. rewrite chunkDocument_plain by exact Hty.
  pose proof (plain_run_sizes sha256 content 0 0 _ (chunkPlainText_run sha256 content))
    as Hsizes.
  assert (Hall : Forall (fun c => 0 < len (Chunk.content c) <= 1024
                                  /\ oversized c = false)
                   (chunkPlainText sha256 content)).
  { eapply Forall_impl; [|apply Hsizes; lia].
    intros c Hc. unfold_sizes. split; [lia|].
    unfold oversized. apply Z.ltb_ge. lia. }
  split; [exact Hall|].
  unfold storable. apply forallb_filter_id. apply forallb_forall.
  rewrite Forall_forall in Hall. intros c Hin.
  destruct (Hall c Hin) as [_ Hsmall]. now rewrite Hsmall.
Qed.

(** C7, what the code does.  Two [##] sections of 1500 and 200 characters
    come out as two chunks, not three: the first is the whole body of the
    first section, 1500 characters long and labelled with its heading, and
    the second is the last 100 characters read under the first heading
    followed by the body of the second section, 301 characters labelled
    with the second heading. *)
Theorem chunkMarkdown_two_sections :
  chunkMarkdown sha256
    (js "## A" ++ [10%N] ++ repeat 97%N 1500 ++ [10%N]
     ++ js "## B" ++ [10%N] ++ repeat 98%N 200)
  = [ createChunk sha256 (repeat 97%N 1500) 0 (Some (js "A"));
      createChunk sha256 (repeat 97%N 99 ++ [10%N; 10%N] ++ repeat 98%N 200) 1
        (Some (js "B")) ]
  /\ map (fun c => (len (Chunk.content c), Chunk.section c))
       (chunkMarkdown sha256
          (js "## A" ++ [10%N] ++ repeat 97%N 1500 ++ [10%N]
           ++ js "## B" ++ [10%N] ++ repeat 98%N 200))
     = [ (1500, Some (js "A")); (301, Some (js "B")) ].
Proof. split; vm_compute; reflexivity. Qed.

End ChunkerProperties.

(** ** The per-file sync *)

(** Keys that are pairwise different stay so when entries are dropped. *)
Lemma NoDup_map_filter {V K} (key : V -> K) (keep : V -> bool) (entries : list V) :
  NoDup (map key entries) -> NoDup (map key (filter keep entries)).
Proof.
  induction entries as [|x rest IH]; simpl; intros Hkeys; [constructor|].
  inversion Hkeys as [|y keys Hx Hrest]; subst.
  destruct (keep x); simpl; [constructor|]; auto.
  rewrite in_map_iff in *. intros [z [Hz Hin]]. apply Hx.
  exists z. split; [exact Hz|]. apply filter_In in Hin. tauto.
Qed.

Lemma NoDup_map_prefix {A B} (f : A -> B) (l r : list A) (j : nat) :
  NoDup (map f (l ++ r)) -> NoDup (map f (l ++ firstn j r)).
Proof.
  intros H. rewrite <- (firstn_skipn j r) in H.
  rewrite app_assoc, map_app in H. now apply NoDup_app_remove_r in H.
Qed.

Lemma rows_of_other_rows (filePath : string) (t : Table) :
  rows_of filePath (other_rows filePath t) = [].
Proof.
  unfold rows_of, other_rows. induction t as [|r t IH]; [reflexivity|].
  simpl. destruct (String.eqb (Row.file_path r) filePath) eqn:E; simpl; [exact IH|].
  now rewrite E.
Qed.

Lemma rows_of_same_path (filePath : string) (l : Table) :
  Forall (fun r => Row.file_path r = filePath) l ->
  filter (fun r => String.eqb (Row.file_path r) filePath) l = l.
Proof.
  induction 1 as [|r l Hr Hl IH]; simpl; [reflexivity|].
  rewrite Hr, String.eqb_refl. now rewrite IH.
Qed.

Lemma other_rows_idem (filePath : string) (t : Table) :
  other_rows filePath (other_rows filePath t) = other_rows filePath t.
Proof.
  unfold other_rows. induction t as [|r t IH]; [reflexivity|].
  simpl. destruct (String.eqb (Row.file_path r) filePath) eqn:E; simpl; [exact IH|].
  rewrite E. simpl. now rewrite IH.
Qed.

Section SyncProperties.

Variable sha256 : jsstring -> string.
Variable extname : string -> string.

Lemma unchanged_iff (filePath : string) (content : jsstring) (t : Table) :
  unchanged sha256 filePath content t = true
  <-> stored_fingerprint filePath t = Some (hashFile sha256 content).
Proof.
  unfold unchanged. destruct (stored_fingerprint filePath t) as [h|].
  - rewrite String.eqb_eq. split; congruence.
  - split; discriminate.
Qed.

Variable env : Env.

(** The loop over the chunks: it appends the rows of a prefix of the
    storable chunks, all of them when it returns, and every table a reader
    can see on the way ends in a prefix of these rows. *)
Lemma process_chunks_run (filePath fileHash : string) (fileType : FileType) :
  forall (cs : list Chunk.t) (created : Z) (w : World) o w',
    process_chunks env filePath fileHash fileType cs created w = (o, w') ->
    exists (k : nat) (rows : list Row.t) (ext : list (Event * Table)),
      rows_for filePath fileHash fileType (firstn k (storable cs)) rows
      /\ table w' = table w ++ rows
      /\ log w' = log w ++ ext
      /\ Forall (fun s => exists j, snd s = table w ++ firstn j rows) ext
      /\ match o with
         | Ok n => k = length (storable cs) /\ n = created + Z.of_nat k
         | Throw _ => (k < length (storable cs))%nat
         end.
Proof.
  induction cs as [|chunk rest IH]; intros created w o w' Hrun.
  - inversion Hrun; subst. exists 0%nat, [], []. simpl. rewrite !app_nil_r.
    split; [constructor|]. split; [reflexivity|]. split; [reflexivity|].
    split; [constructor|]. split; [reflexivity | lia].
  - simpl process_chunks in Hrun. unfold storable. simpl filter.
    destruct (oversized chunk) eqn:Hbig; simpl negb; cbv iota.
    + now apply IH.
    + fold (storable rest).
      assert (Hfail : forall (ext : list (Event * Table)) (e : Exn),
        Forall (fun s => snd s = table w) ext ->
        (@Throw Z e, {| table := table w; log := log w ++ ext |}) = (o, w') ->
        exists (k : nat) (rows : list Row.t) (ext : list (Event * Table)),
          rows_for filePath fileHash fileType (firstn k (chunk :: storable rest)) rows
          /\ table w' = table w ++ rows
          /\ log w' = log w ++ ext
          /\ Forall (fun s => exists j, snd s = table w ++ firstn j rows) ext
          /\ match o with
             | Ok n => k = length (chunk :: storable rest) /\ n = created + Z.of_nat k
             | Throw _ => (k < length (chunk :: storable rest))%nat
             end).
      { intros ext e Hext Heq. inversion Heq; subst. exists 0%nat, [], ext.
        simpl. rewrite app_nil_r.
        split; [constructor|]. split; [reflexivity|]. split; [reflexivity|].
        split; [|lia].
        eapply Forall_impl; [|exact Hext].
        intros s Hs. exists 0%nat. now rewrite app_nil_r. }
      unfold bind at 1 in Hrun. unfold getEmbedding, await in Hrun.
      destruct (ollama env (length (log w)) (Chunk.content chunk)) as [| |[v|]].
      * eapply Hfail; [|exact Hrun]. repeat constructor.
      * eapply Hfail; [|exact Hrun]. repeat constructor.
      * unfold bind at 1 in Hrun. unfold sql in Hrun.
        simpl table in Hrun; simpl log in Hrun.
        set (row := chunk_row filePath fileHash fileType chunk v) in *.
        destruct (postgres_up env
                    (length (log w ++ [(Embedding (Chunk.content chunk), table w)]))).
        -- simpl insert_chunk in Hrun. cbv iota beta in Hrun.
           apply IH in Hrun.
           destruct Hrun as [k [rows [ext [Hrows [Ht [Hl [Hs Hr]]]]]]].
           simpl table in *; simpl log in *.
           exists (S k), (row :: rows),
             ((Embedding (Chunk.content chunk), table w)
                :: (InsertChunk row, table w ++ [row]) :: ext).
           split; [|split; [|split; [|split]]].
           ++ simpl. constructor; [now exists v | exact Hrows].
           ++ rewrite Ht. now rewrite <- app_assoc.
           ++ rewrite Hl. now rewrite <- !app_assoc.
           ++ constructor; [exists 0%nat; simpl; now rewrite app_nil_r|].
              constructor; [exists 1%nat; reflexivity|].
              eapply Forall_impl; [|exact Hs].
              intros s [j Hj]. exists (S j). rewrite Hj. simpl.
              now rewrite <- app_assoc.
           ++ destruct o; simpl; lia.
        -- rewrite <- app_assoc in Hrun.
           eapply Hfail; [|exact Hrun]. repeat constructor.
      * unfold throw in Hrun. eapply Hfail; [|exact Hrun]. repeat constructor.
Qed.

(** All the runs of [syncFile], by what it meets. *)
Lemma syncFile_cases (filePath : string) (force : bool) (t : Table) :
  syncFile sha256 extname env filePath force (start t)
  = match fs env filePath with
    | Throw e => (Throw e, {| table := t; log := [(ReadFile filePath, t)] |})
    | Ok content =>
        if postgres_up env 1 then
          if negb force && unchanged sha256 filePath content t then
            (Ok skip_result,
             {| table := t;
                log := [(ReadFile filePath, t); (SelectFileHash filePath, t)] |})
          else if postgres_up env 2 then proceeds sha256 extname env filePath content t
          else
            (Throw DatabaseError,
             {| table := t;
                log := [ (ReadFile filePath, t); (SelectFileHash filePath, t);
                         (DeleteChunks filePath, t) ] |})
        else
          (Throw DatabaseError,
           {| table := t;
              log := [(ReadFile filePath, t); (SelectFileHash filePath, t)] |})
    end.
Proof.
  unfold syncFile, start. unfold bind at 1. unfold await at 1. simpl.
  destruct (fs env filePath) as [content|e]; [|reflexivity].
  unfold bind at 1. unfold sql at 1. simpl.
  destruct (postgres_up env 1); [|reflexivity].
  assert (Hsame :
    match map Row.file_hash
            (firstn 1 (filter (fun r => String.eqb (Row.file_path r) filePath) t)) with
    | stored :: _ => String.eqb stored (hashFile sha256 content)
    | [] => false
    end = unchanged sha256 filePath content t).
  { unfold unchanged, stored_fingerprint, rows_of.
    destruct (filter (fun r => String.eqb (Row.file_path r) filePath) t);
      reflexivity. }
  simpl in Hsame. rewrite Hsame.
  destruct (negb force && unchanged sha256 filePath content t); [reflexivity|].
  unfold bind at 1. unfold sql at 1. simpl.
  destruct (postgres_up env 2); [|reflexivity].
  unfold bind at 1. unfold await at 1. simpl.
  unfold proceeds, ready, new_chunks, other_rows, bind, ret.
  destruct (process_chunks env filePath (hashFile sha256 content)
              (getFileType extname filePath)
              (chunkDocument sha256 filePath content (getFileType extname filePath))
              0 _) as [[created|e] w]; reflexivity.
Qed.

Lemma proceeds_snd (filePath : string) (content : jsstring) (t : Table) :
  snd (proceeds sha256 extname env filePath content t)
  = snd (process_chunks env filePath (hashFile sha256 content)
           (getFileType extname filePath) (new_chunks sha256 extname filePath content) 0
           (ready filePath t)).
Proof.
  unfold proceeds.
  now destruct (process_chunks env filePath (hashFile sha256 content)
                  (getFileType extname filePath) (new_chunks sha256 extname filePath content) 0
                  (ready filePath t)) as [[created|e] w].
Qed.

Lemma proceeds_run (filePath : string) (content : jsstring) (t : Table) :
  exists (k : nat) (rows : list Row.t) (ext : list (Event * Table)),
    rows_for filePath (hashFile sha256 content) (getFileType extname filePath)
      (firstn k (storable (new_chunks sha256 extname filePath content))) rows
    /\ table (snd (proceeds sha256 extname env filePath content t)) = other_rows filePath t ++ rows
    /\ log (snd (proceeds sha256 extname env filePath content t)) = log (ready filePath t) ++ ext
    /\ Forall (fun s => exists j, snd s = other_rows filePath t ++ firstn j rows) ext
    /\ match fst (proceeds sha256 extname env filePath content t) with
       | Ok result =>
           k = length (storable (new_chunks sha256 extname filePath content))
           /\ result = {| FileResult.chunks := Z.of_nat k;
                          FileResult.skipped := false |}
       | Throw _ => (k < length (storable (new_chunks sha256 extname filePath content)))%nat
       end.
Proof.
  unfold proceeds.
  destruct (process_chunks env filePath (hashFile sha256 content)
              (getFileType extname filePath) (new_chunks sha256 extname filePath content) 0
              (ready filePath t)) as [o w] eqn:Hrun.
  apply process_chunks_run in Hrun.
  destruct Hrun as [k [rows [ext [Hrows [Ht [Hl [Hs Hr]]]]]]].
  exists k, rows, ext. simpl table in *.
  destruct o as [created|e]; simpl; repeat split; try assumption; try tauto.
  destruct Hr as [_ Hr]. rewrite Hr. reflexivity.
Qed.

(** The loop asks for the embedding of the first storable chunk before
    anything else. *)
Lemma process_chunks_embeds_first (filePath fileHash : string) (fileType : FileType) :
  forall (cs : list Chunk.t) (created : Z) (w : World) (c : Chunk.t)
         (rest : list Chunk.t),
    storable cs = c :: rest ->
    exists ext,
      log (snd (process_chunks env filePath fileHash fileType cs created w))
      = log w ++ (Embedding (Chunk.content c), table w) :: ext.
Proof.
  induction cs as [|chunk cs IH]; intros created w c rest Hst; [discriminate|].
  simpl process_chunks. unfold storable in Hst. simpl filter in Hst.
  destruct (oversized chunk); simpl negb in Hst; cbv iota in Hst.
  - now apply (IH created w c rest).
  - inversion Hst; subst c rest.
    unfold bind at 1. unfold getEmbedding, await.
    destruct (ollama env (length (log w)) (Chunk.content chunk)) as [| |[v|]];
      try (exists []; reflexivity).
    unfold bind at 1. unfold sql. simpl table; simpl log.
    destruct (postgres_up env _).
    + simpl insert_chunk. cbv iota beta.
      destruct (process_chunks env filePath fileHash fileType cs (created + 1) _)
        as [o w'] eqn:Hrun.
      apply process_chunks_run in Hrun.
      destruct Hrun as [k [rows [ext [_ [_ [Hl _]]]]]].
      simpl in *. rewrite Hl. rewrite <- !app_assoc. simpl. eexists. reflexivity.
    + simpl. rewrite <- app_assoc. simpl. eexists. reflexivity.
Qed.

(** C1.  Once the file is read and the fingerprint looked up, [syncFile]
    skips the file -- it returns zero chunks and skipped, leaves the table
    as it is, and has only read -- exactly when force is off and the
    table records for the path the digest of the current content.  In
    every other case its next call is the deletion of the old rows, it
    never reports the file as skipped, and when the deletion is answered
    it chunks the content and asks for the embedding of the first chunk
    it will store.  No chunking and no embedding request comes before the
    fingerprint lookup. *)
Theorem syncFile_skips_iff (filePath : string) (force : bool)
    (content : jsstring) (t : Table) :
  fs env filePath = Ok content ->
  postgres_up env 1 = true ->
  ((fst (syncFile sha256 extname env filePath force (start t)) = Ok skip_result
    /\ table (snd (syncFile sha256 extname env filePath force (start t))) = t
    /\ Forall (fun s => reads_only (fst s) /\ snd s = t)
         (log (snd (syncFile sha256 extname env filePath force (start t)))))
   <-> (force = false
        /\ stored_fingerprint filePath t = Some (hashFile sha256 content)))
  /\ (~ (force = false
         /\ stored_fingerprint filePath t = Some (hashFile sha256 content)) ->
      nth_error (log (snd (syncFile sha256 extname env filePath force (start t)))) 2
      = Some (DeleteChunks filePath,
              if postgres_up env 2 then other_rows filePath t else t)
      /\ (forall result,
            fst (syncFile sha256 extname env filePath force (start t)) = Ok result ->
            FileResult.skipped result = false)
      /\ (postgres_up env 2 = true ->
          nth_error (log (snd (syncFile sha256 extname env filePath force (start t)))) 3
          = Some (ChunkDocument filePath, other_rows filePath t)
          /\ forall c rest,
               storable (new_chunks sha256 extname filePath content) = c :: rest ->
               nth_error
                 (log (snd (syncFile sha256 extname env filePath force (start t)))) 4
               = Some (Embedding (Chunk.content c), other_rows filePath t)))
  /\ (forall i e s,
        nth_error (log (snd (syncFile sha256 extname env filePath force (start t)))) i
        = Some (e, s) ->
        chunks_or_embeds e ->
        (2 <= i)%nat
        /\ nth_error
             (log (snd (syncFile sha256 extname env filePath force (start t)))) 1
           = Some (SelectFileHash filePath, t)).
Proof.
  intros Hfs Hup. rewrite syncFile_cases, Hfs, Hup.
  assert (Hcond : negb force && unchanged sha256 filePath content t = true
                  <-> force = false
                      /\ stored_fingerprint filePath t
                         = Some (hashFile sha256 content)).
  { rewrite andb_true_iff, negb_true_iff, unchanged_iff. tauto. }
  destruct (proceeds_run filePath content t)
    as [k [rows [ext [Hrows [Ht [Hl [Hs Hr]]]]]]].
  assert (Horder : forall (l : list (Event * Table)) i e s,
            nth_error ((ReadFile filePath, t) :: (SelectFileHash filePath, t) :: l) i
            = Some (e, s) ->
            chunks_or_embeds e ->
            (2 <= i)%nat
            /\ nth_error ((ReadFile filePath, t) :: (SelectFileHash filePath, t) :: l) 1
               = Some (SelectFileHash filePath, t)).
  { intros l i e s Hi He. split; [|reflexivity].
    destruct i as [|[|i]]; simpl in Hi; try lia;
      inversion Hi; subst; contradiction. }
  destruct (negb force && unchanged sha256 filePath content t) eqn:Hskip.
  - split; [|split].
    + split; [intros _; now apply Hcond|]. intros _. simpl.
      repeat split; repeat constructor.
    + intros Hnot. exfalso. apply Hnot. now apply Hcond.
    + apply Horder.
  - assert (Hnot : ~ (force = false
                      /\ stored_fingerprint filePath t
                         = Some (hashFile sha256 content))).
    { intros H. apply Hcond in H. discriminate. }
    destruct (postgres_up env 2) eqn:Hdel.
    + split; [|split].
      * split; [|intros H; contradiction].
        intros [_ [_ Hlog]]. rewrite Hl in Hlog. simpl in Hlog.
        inversion Hlog as [|x l1 _ H1]; subst.
        inversion H1 as [|y l2 _ H2]; subst.
        inversion H2 as [|z l3 [Hz _] _]; subst. contradiction.
      * intros _. rewrite Hl. simpl. split; [reflexivity|]. split.
        -- intros result Hres. rewrite Hres in Hr. destruct Hr as [_ Hr].
           now subst result.
        -- intros _. split; [reflexivity|]. intros c rest Hst.
           destruct (process_chunks_embeds_first filePath (hashFile sha256 content)
                       (getFileType extname filePath) (new_chunks sha256 extname filePath content)
                       0 (ready filePath t) c rest Hst) as [ext' Hext'].
           rewrite <- proceeds_snd, Hl in Hext'.
           apply app_inv_head in Hext'. now subst ext.
      * rewrite Hl. simpl. apply Horder.
    + split; [|split].
      * split; [|intros H; contradiction].
        intros [H _]. discriminate.
      * intros _. simpl. split; [reflexivity|]. split; [discriminate|].
        discriminate.
      * simpl. apply Horder.
Qed.

Lemma rows_for_same_path (filePath fileHash : string) (fileType : FileType)
    (cs : list Chunk.t) (rows : list Row.t) :
  rows_for filePath fileHash fileType cs rows ->
  Forall (fun r => Row.file_path r = filePath) rows.
Proof.
  induction 1 as [|c r cs rows [v Hr] Hrest IH]; constructor; [|exact IH].
  now subst r.
Qed.

(** Rows written for a path are rows of that path, keyed by the numbers
    of their chunks. *)
Lemma rows_for_path (filePath fileHash : string) (fileType : FileType)
    (cs : list Chunk.t) (rows : list Row.t) :
  rows_for filePath fileHash fileType cs rows ->
  rows_of filePath rows = rows
  /\ other_rows filePath rows = []
  /\ map row_key rows = map (fun c => (filePath, Chunk.index c)) cs
  /\ Forall (fun r => Row.file_hash r = fileHash) rows
  /\ length rows = length cs.
Proof.
  unfold rows_of, other_rows.
  induction 1 as [|c r cs rows [v Hr] Hrest IH]; simpl.
  - repeat split. constructor.
  - destruct IH as [H1 [H2 [H3 [H4 H5]]]]. subst r. simpl.
    rewrite String.eqb_refl. simpl. rewrite H1, H2, H3, H5.
    repeat split. now constructor.
Qed.

Lemma rows_for_unique (filePath fileHash : string) (fileType : FileType)
    (content : jsstring) (rows : list Row.t) (k : nat) (t : Table) :
  rows_for filePath fileHash fileType
    (firstn k (storable (new_chunks sha256 extname filePath content))) rows ->
  unique_keys t ->
  unique_keys (other_rows filePath t ++ rows).
Proof.
  intros Hrows Ht. unfold unique_keys in *. rewrite map_app.
  destruct (rows_for_path _ _ _ _ _ Hrows) as [_ [_ [Hkeys _]]].
  apply NoDup_app.
  - now apply NoDup_map_filter.
  - rewrite Hkeys.
    pose proof (chunkDocument_numbered sha256 filePath content
                  (getFileType extname filePath)) as Hnum.
    apply numbered_from_NoDup in Hnum. fold (new_chunks sha256 extname filePath content) in Hnum.
    apply (NoDup_map_filter Chunk.index (fun c => negb (oversized c))) in Hnum.
    fold (storable (new_chunks sha256 extname filePath content)) in Hnum.
    apply (NoDup_map_prefix Chunk.index [] _ k) in Hnum. simpl in Hnum.
    revert Hnum. generalize (firstn k (storable (new_chunks sha256 extname filePath content))).
    induction l as [|c l IH]; simpl; intros Hnd; [constructor|].
    inversion Hnd as [|x l' Hx Hl]; subst. constructor; [|now apply IH].
    rewrite in_map_iff in *. intros [z [Hz Hin]]. apply Hx.
    exists z. split; [congruence | exact Hin].
  - intros key Hold Hnew. rewrite Hkeys in Hnew.
    rewrite in_map_iff in Hold, Hnew.
    destruct Hold as [r [Hr Hin]]. destruct Hnew as [c [Hc _]].
    unfold other_rows in Hin. apply filter_In in Hin. destruct Hin as [_ Hne].
    rewrite <- Hr in Hc. unfold row_key in Hc. inversion Hc as [[Hpath Hidx]].
    rewrite <- Hpath, String.eqb_refl in Hne. discriminate.
Qed.

(** Every run keeps the pair (file path, chunk index) unique, in the
    table it leaves and in every table a reader can see on the way. *)
Lemma syncFile_unique_keys (filePath : string) (force : bool) (t : Table) :
  unique_keys t ->
  unique_keys (table (snd (syncFile sha256 extname env filePath force (start t))))
  /\ Forall (fun s => unique_keys (snd s))
       (log (snd (syncFile sha256 extname env filePath force (start t)))).
Proof.
  intros Ht. rewrite syncFile_cases.
  destruct (fs env filePath) as [content|e]; [|simpl; now repeat constructor].
  destruct (postgres_up env 1); [|simpl; now repeat constructor].
  destruct (negb force && unchanged sha256 filePath content t);
    [simpl; now repeat constructor|].
  destruct (postgres_up env 2); [|simpl; now repeat constructor].
  destruct (proceeds_run filePath content t)
    as [k [rows [ext [Hrows [Htab [Hl [Hs Hr]]]]]]].
  pose proof (rows_for_unique _ _ _ _ _ _ _ Hrows Ht) as Hall.
  rewrite Htab, Hl. split; [exact Hall|].
  assert (Hother : unique_keys (other_rows filePath t))
    by (now apply NoDup_map_filter).
  simpl. repeat (constructor; [assumption|]).
  eapply Forall_impl; [|exact Hs].
  intros [e s] [j Hj]. simpl in *. subst s. now apply NoDup_map_prefix.
Qed.

(** A reader never sees old and new rows of the path side by side: each
    table on the way has the old rows of the path, all of them, or some
    first rows of the new ones and no old one. *)
Lemma proceeds_no_mix (filePath : string) (content : jsstring) (t : Table)
    (rows : list Row.t) (k : nat) (ext : list (Event * Table)) :
  rows_for filePath (hashFile sha256 content) (getFileType extname filePath)
    (firstn k (storable (new_chunks sha256 extname filePath content))) rows ->
  Forall (fun s => exists j, snd s = other_rows filePath t ++ firstn j rows) ext ->
  Forall (fun s => rows_of filePath (snd s) = rows_of filePath t
                   \/ exists j, rows_of filePath (snd s) = firstn j rows)
    (log (ready filePath t) ++ ext).
Proof.
  intros Hrows Hs.
  assert (Hnew : forall j, rows_of filePath (other_rows filePath t ++ firstn j rows)
                           = firstn j rows).
  { intros j. unfold rows_of at 1. rewrite filter_app.
    fold (rows_of filePath (other_rows filePath t)).
    rewrite rows_of_other_rows. simpl.
    apply rows_of_same_path.
    pose proof (rows_for_same_path _ _ _ _ _ Hrows) as Hall.
    rewrite <- (firstn_skipn j rows) in Hall. now apply Forall_app in Hall. }
  apply Forall_app. split.
  - simpl. constructor; [left; reflexivity|]. constructor; [left; reflexivity|].
    constructor; [right; exists 0%nat; apply rows_of_other_rows|].
    constructor; [right; exists 0%nat; apply rows_of_other_rows|]. constructor.
  - eapply Forall_impl; [|exact Hs].
    intros [e s] [j Hj]. simpl in *. subst s. right. exists j. apply Hnew.
Qed.

(** Every run leaves the rows of each path with one file hash. *)
Lemma syncFile_one_fingerprint (filePath : string) (force : bool) (t : Table) :
  one_fingerprint t ->
  one_fingerprint (table (snd (syncFile sha256 extname env filePath force (start t)))).
Proof.
  intros Ht. rewrite syncFile_cases.
  destruct (fs env filePath) as [content|e]; [|exact Ht].
  destruct (postgres_up env 1); [|exact Ht].
  destruct (negb force && unchanged sha256 filePath content t); [exact Ht|].
  destruct (postgres_up env 2); [|exact Ht].
  destruct (proceeds_run filePath content t)
    as [k [rows [ext [Hrows [Htab _]]]]].
  rewrite Htab.
  destruct (rows_for_path _ _ _ _ _ Hrows) as [_ [_ [_ [Hhash _]]]].
  pose proof (rows_for_same_path _ _ _ _ _ Hrows) as Hpath.
  rewrite Forall_forall in Hhash, Hpath.
  assert (Hold : forall r, In r (other_rows filePath t) ->
                           In r t /\ Row.file_path r <> filePath).
  { intros r Hin. unfold other_rows in Hin. apply filter_In in Hin.
    destruct Hin as [Hin Hne]. split; [exact Hin|].
    intros Heq. rewrite Heq, String.eqb_refl in Hne. discriminate. }
  intros r r' Hr Hr' Hsame.
  apply in_app_or in Hr. apply in_app_or in Hr'.
  destruct Hr as [Hr|Hr], Hr' as [Hr'|Hr'].
  - apply Hold in Hr, Hr'. now apply Ht.
  - apply Hold in Hr. apply Hpath in Hr'. destruct Hr as [_ Hne]. congruence.
  - apply Hold in Hr'. apply Hpath in Hr. destruct Hr' as [_ Hne]. congruence.
  - rewrite (Hhash r Hr), (Hhash r' Hr'). reflexivity.
Qed.

(** What a reader of the table can see of the path during a run: its old
    rows, or some first rows of the new storable chunks, which carry the
    digest of the content read. *)
Lemma syncFile_never_mixes (filePath : string) (force : bool) (t : Table) :
  match fs env filePath with
  | Ok content =>
      exists (k : nat) (rows : list Row.t),
        rows_for filePath (hashFile sha256 content) (getFileType extname filePath)
          (firstn k (storable (new_chunks sha256 extname filePath content))) rows
        /\ Forall (fun s => rows_of filePath (snd s) = rows_of filePath t
                            \/ exists j, rows_of filePath (snd s) = firstn j rows)
             (log (snd (syncFile sha256 extname env filePath force (start t))))
  | Throw _ =>
      Forall (fun s => snd s = t)
        (log (snd (syncFile sha256 extname env filePath force (start t))))
  end.
Proof.
  rewrite syncFile_cases.
  destruct (fs env filePath) as [content|e]; [|repeat constructor].
  assert (Hsame : forall l : list (Event * Table),
             Forall (fun s => snd s = t) l ->
             exists (k : nat) (rows : list Row.t),
               rows_for filePath (hashFile sha256 content)
                 (getFileType extname filePath)
                 (firstn k (storable (new_chunks sha256 extname filePath content))) rows
               /\ Forall (fun s => rows_of filePath (snd s) = rows_of filePath t
                                   \/ exists j, rows_of filePath (snd s) = firstn j rows)
                    l).
  { intros l Hl. exists 0%nat, []. split; [constructor|].
    eapply Forall_impl; [|exact Hl]. intros s Hs. left. now rewrite Hs. }
  destruct (postgres_up env 1); [|apply Hsame; repeat constructor].
  destruct (negb force && unchanged sha256 filePath content t);
    [apply Hsame; repeat constructor|].
  destruct (postgres_up env 2); [|apply Hsame; repeat constructor].
  destruct (proceeds_run filePath content t)
    as [k [rows [ext [Hrows [Htab [Hl [Hs Hr]]]]]]].
  exists k, rows. split; [exact Hrows|].
  rewrite Hl. now apply (proceeds_no_mix filePath content t rows k ext).
Qed.

Lemma replaced_table (filePath fileHash : string) (fileType : FileType)
    (cs : list Chunk.t) (rows : list Row.t) (t : Table) :
  rows_for filePath fileHash fileType cs rows ->
  rows_of filePath (other_rows filePath t ++ rows) = rows
  /\ other_rows filePath (other_rows filePath t ++ rows) = other_rows filePath t.
Proof.
  intros Hrows. destruct (rows_for_path _ _ _ _ _ Hrows) as [H1 [H2 _]].
  split.
  - unfold rows_of at 1. rewrite filter_app.
    fold (rows_of filePath (other_rows filePath t)) (rows_of filePath rows).
    now rewrite rows_of_other_rows, H1.
  - unfold other_rows at 1. rewrite filter_app.
    fold (other_rows filePath (other_rows filePath t)) (other_rows filePath rows).
    now rewrite other_rows_idem, H2, app_nil_r.
Qed.

(** C2, as the code has it.  Every run of [syncFile], failed ones too,
    keeps the pair (file path, chunk index) unique, in the table it leaves
    and in every table a reader can see on the way: the rows of the path
    are deleted before the first new row is inserted, and the new chunks
    are numbered 0, 1, 2, ...  When [syncFile] returns without skipping,
    the rows of the path are exactly the rows of the new chunks that are
    not oversized (at most 4000 characters), in order: every row the path
    had before is gone, the rows of other paths are as they were, and the
    count returned is the number of rows written. *)
Theorem syncFile_replaces_rows (filePath : string) (force : bool) (t : Table) :
  (unique_keys t ->
   unique_keys (table (snd (syncFile sha256 extname env filePath force (start t))))
   /\ Forall (fun s => unique_keys (snd s))
        (log (snd (syncFile sha256 extname env filePath force (start t)))))
  /\ (forall (content : jsstring) (result : FileResult.t),
        fs env filePath = Ok content ->
        fst (syncFile sha256 extname env filePath force (start t)) = Ok result ->
        FileResult.skipped result = false ->
        exists rows : list Row.t,
          rows_for filePath (hashFile sha256 content) (getFileType extname filePath)
            (storable (new_chunks sha256 extname filePath content)) rows
          /\ table (snd (syncFile sha256 extname env filePath force (start t)))
             = other_rows filePath t ++ rows
          /\ rows_of filePath
               (table (snd (syncFile sha256 extname env filePath force (start t))))
             = rows
          /\ other_rows filePath
               (table (snd (syncFile sha256 extname env filePath force (start t))))
             = other_rows filePath t
          /\ FileResult.chunks result = Z.of_nat (length rows)).
Proof.
  split; [apply syncFile_unique_keys|].
  intros content result Hfs Hok Hskip.
  rewrite syncFile_cases in *. rewrite Hfs in *.
  destruct (postgres_up env 1); [|discriminate].
  destruct (negb force && unchanged sha256 filePath content t).
  { simpl in Hok. inversion Hok; subst result. discriminate. }
  destruct (postgres_up env 2); [|discriminate].
  destruct (proceeds_run filePath content t)
    as [k [rows [ext [Hrows [Htab [Hl [Hs Hr]]]]]]].
  rewrite Hok in Hr. destruct Hr as [Hk Hres]. subst k.
  rewrite firstn_all in Hrows.
  destruct (replaced_table _ _ _ _ _ t Hrows) as [Hnew Hold].
  destruct (rows_for_path _ _ _ _ _ Hrows) as [_ [_ [_ [_ Hlen]]]].
  exists rows. rewrite Htab.
  split; [exact Hrows|]. split; [reflexivity|].
  split; [exact Hnew|]. split; [exact Hold|].
  subst result. simpl. now rewrite Hlen.
Qed.

(** C3, as the code has it.  [syncFile] deletes the old rows before it
    embeds anything and uses no transaction.  In every run a reader of the
    table sees, at every moment, either all old rows of the path or some
    first rows of the new ones -- the rows of the first storable chunks of
    the content read, in order, with the digest of that content -- never
    old and new rows side by side; when the file cannot be read, the
    table as it was.  When the run fails after the fingerprint lookup,
    either the deletion itself was refused and the table is as it was, or
    the old rows of the path are gone and the path is left with the rows
    of the chunks stored before the failure: some first ones of the new
    storable chunks, not all of them.  The rows of other paths are
    untouched. *)
Theorem syncFile_failure_keeps_prefix (filePath : string) (force : bool)
    (t : Table) :
  match fs env filePath with
  | Ok content =>
      exists (k : nat) (rows : list Row.t),
        rows_for filePath (hashFile sha256 content) (getFileType extname filePath)
          (firstn k (storable (new_chunks sha256 extname filePath content))) rows
        /\ Forall (fun s => rows_of filePath (snd s) = rows_of filePath t
                            \/ exists j, rows_of filePath (snd s) = firstn j rows)
             (log (snd (syncFile sha256 extname env filePath force (start t))))
  | Throw _ =>
      Forall (fun s => snd s = t)
        (log (snd (syncFile sha256 extname env filePath force (start t))))
  end
  /\ (forall (content : jsstring) (e : Exn),
        fs env filePath = Ok content ->
        postgres_up env 1 = true ->
        fst (syncFile sha256 extname env filePath force (start t)) = Throw e ->
        (postgres_up env 2 = false
         /\ table (snd (syncFile sha256 extname env filePath force (start t))) = t)
        \/ (postgres_up env 2 = true
            /\ exists (k : nat) (rows : list Row.t),
                 (k < length (storable (new_chunks sha256 extname filePath content)))%nat
                 /\ rows_for filePath (hashFile sha256 content)
                      (getFileType extname filePath)
                      (firstn k (storable (new_chunks sha256 extname filePath content)))
                      rows
                 /\ rows_of filePath
                      (table (snd (syncFile sha256 extname env filePath force
                                     (start t))))
                    = rows
                 /\ other_rows filePath
                      (table (snd (syncFile sha256 extname env filePath force
                                     (start t))))
                    = other_rows filePath t)).
Proof.
  split; [apply syncFile_never_mixes|].
  intros content e Hfs Hup Hthrow.
  rewrite syncFile_cases in *. rewrite Hfs, Hup in *.
  destruct (negb force && unchanged sha256 filePath content t); [discriminate|].
  destruct (postgres_up env 2).
  - right. split; [reflexivity|].
    destruct (proceeds_run filePath content t)
      as [k [rows [ext [Hrows [Htab [Hl [Hs Hr]]]]]]].
    rewrite Hthrow in Hr.
    destruct (replaced_table _ _ _ _ _ t Hrows) as [Hnew Hold].
    exists k, rows. rewrite Htab.
    split; [exact Hr|]. split; [exact Hrows|].
    split; [exact Hnew | exact Hold].
  - left. simpl. split; reflexivity.
Qed.

End SyncProperties.

(** ** Syncing again *)

Lemma other_rows_all (filePath : string) (t : Table) :
  rows_of filePath t = [] -> other_rows filePath t = t.
Proof.
  unfold rows_of, other_rows. induction t as [|r t IH]; simpl; [reflexivity|].
  destruct (String.eqb (Row.file_path r) filePath); [discriminate|].
  intros H. simpl. now rewrite IH.
Qed.

Section Resync.

Variable sha256 : jsstring -> string.
Variable extname : string -> string.

(** After a sync that returned, the path has rows only with the digest of
    the content, and it has none only if no chunk of the content can be
    stored. *)
Lemma syncFile_returned (env : Env) (filePath : string) (force : bool)
    (content : jsstring) (t : Table) (result : FileResult.t) :
  fs env filePath = Ok content ->
  fst (syncFile sha256 extname env filePath force (start t)) = Ok result ->
  match rows_of filePath
          (table (snd (syncFile sha256 extname env filePath force (start t)))) with
  | [] => storable (new_chunks sha256 extname filePath content) = []
  | r :: _ => Row.file_hash r = hashFile sha256 content
  end.
Proof.
  intros Hfs Hok. rewrite syncFile_cases in *. rewrite Hfs in *.
  destruct (postgres_up env 1); [|discriminate].
  destruct (negb force && unchanged sha256 filePath content t) eqn:Hskip.
  - simpl. apply andb_true_iff in Hskip. destruct Hskip as [_ Hsame].
    apply unchanged_iff in Hsame. unfold stored_fingerprint in Hsame.
    destruct (rows_of filePath t); [discriminate | congruence].
  - destruct (postgres_up env 2); [|discriminate].
    destruct (proceeds_run sha256 extname env filePath content t)
      as [k [rows [ext [Hrows [Htab [Hl [Hs Hr]]]]]]].
    rewrite Hok in Hr. destruct Hr as [Hk _]. subst k.
    rewrite firstn_all in Hrows. rewrite Htab.
    destruct (replaced_table _ _ _ _ _ t Hrows) as [Hnew _]. rewrite Hnew.
    destruct (rows_for_path _ _ _ _ _ Hrows) as [_ [_ [_ [Hhash Hlen]]]].
    destruct rows as [|r rows].
    + destruct (storable (new_chunks sha256 extname filePath content));
        [reflexivity | discriminate].
    + now inversion Hhash.
Qed.

(** A sync without force of a path whose rows carry the digest of the
    content is skipped. *)
Lemma syncFile_skips (env : Env) (filePath : string) (content : jsstring)
    (t : Table) (r : Row.t) (rest : Table) :
  fs env filePath = Ok content ->
  postgres_up env 1 = true ->
  rows_of filePath t = r :: rest ->
  Row.file_hash r = hashFile sha256 content ->
  syncFile sha256 extname env filePath false (start t)
  = (Ok skip_result,
     {| table := t;
        log := [(ReadFile filePath, t); (SelectFileHash filePath, t)] |}).
Proof.
  intros Hfs Hup Hrows Hhash. rewrite syncFile_cases, Hfs, Hup.
  unfold unchanged, stored_fingerprint. rewrite Hrows, Hhash, String.eqb_refl.
  reflexivity.
Qed.

(** A sync without force of a path that has no row and no chunk to store
    runs again, writes nothing and returns zero chunks, not skipped. *)
Lemma syncFile_reruns (env : Env) (filePath : string) (content : jsstring)
    (t : Table) :
  fs env filePath = Ok content ->
  postgres_up env 1 = true ->
  postgres_up env 2 = true ->
  rows_of filePath t = [] ->
  storable (new_chunks sha256 extname filePath content) = [] ->
  fst (syncFile sha256 extname env filePath false (start t))
  = Ok {| FileResult.chunks := 0; FileResult.skipped := false |}
  /\ table (snd (syncFile sha256 extname env filePath false (start t))) = t.
Proof.
  intros Hfs Hup Hdel Hrows Hnone. rewrite syncFile_cases, Hfs, Hup, Hdel.
  unfold unchanged, stored_fingerprint. rewrite Hrows. simpl.
  destruct (proceeds_run sha256 extname env filePath content t)
    as [k [rows [ext [Hr [Htab [Hl [Hs Hres]]]]]]].
  rewrite Hnone in *. rewrite firstn_nil in Hr. inversion Hr; subst rows.
  rewrite Htab, app_nil_r, (other_rows_all _ _ Hrows).
  split; [|reflexivity].
  destruct (fst (proceeds sha256 extname env filePath content t)) as [result|e].
  - destruct Hres as [Hk Hres]. subst. reflexivity.
  - simpl in Hres. lia.
Qed.

(** A sync whose fingerprint lookup is refused raises and leaves the
    table as it is. *)
Lemma syncFile_lookup_refused (env : Env) (filePath : string) (force : bool)
    (content : jsstring) (t : Table) :
  fs env filePath = Ok content ->
  postgres_up env 1 = false ->
  fst (syncFile sha256 extname env filePath force (start t)) = Throw DatabaseError
  /\ table (snd (syncFile sha256 extname env filePath force (start t))) = t.
Proof.
  intros Hfs Hup. rewrite syncFile_cases, Hfs, Hup. split; reflexivity.
Qed.

(** C4, as the code has it.  After a sync of the file that returned,
    every further sync of the same content without force writes nothing
    and creates zero chunks, whatever the database and the embedding
    service do.  When the fingerprint lookup is answered, it is reported
    as skipped if the path has a row -- the fingerprint sits in the rows
    of the chunks -- and as not skipped, with zero chunks, if the sync
    stored none (an empty file, or one whose chunks are all oversized),
    unless the deletion is refused, which raises.  When the lookup is
    refused, the sync raises. *)
Theorem syncFile_idempotent (env : Env) (filePath : string) (force : bool)
    (content : jsstring) (t : Table) (result : FileResult.t) (envs : list Env) :
  fs env filePath = Ok content ->
  fst (syncFile sha256 extname env filePath force (start t)) = Ok result ->
  Forall (fun env' => fs env' filePath = Ok content) envs ->
  snd (resync sha256 extname envs filePath
         (table (snd (syncFile sha256 extname env filePath force (start t)))))
  = table (snd (syncFile sha256 extname env filePath force (start t)))
  /\ Forall2
       (fun env' o =>
          o = if postgres_up env' 1 then
                match rows_of filePath
                        (table (snd (syncFile sha256 extname env filePath force
                                       (start t)))) with
                | _ :: _ => Ok skip_result
                | [] =>
                    if postgres_up env' 2
                    then Ok {| FileResult.chunks := 0; FileResult.skipped := false |}
                    else Throw DatabaseError
                end
              else Throw DatabaseError)
       envs
       (fst (resync sha256 extname envs filePath
               (table (snd (syncFile sha256 extname env filePath force (start t)))))).
Proof.
  intros Hfs Hok Henvs.
  pose proof (syncFile_returned env filePath force content t result Hfs Hok) as Hret.
  revert Hret.
  generalize (table (snd (syncFile sha256 extname env filePath force (start t)))).
  intros t1 Hret.
  induction Henvs as [|env' envs Hfs' _ IH]; simpl.
  - split; [reflexivity | constructor].
  - destruct IH as [IH1 IH2].
    destruct (postgres_up env' 1) eqn:Hup'.
    + destruct (rows_of filePath t1) as [|r rest] eqn:Hrows.
      * destruct (postgres_up env' 2) eqn:Hdel.
        -- destruct (syncFile_reruns env' filePath content t1 Hfs' Hup' Hdel Hrows Hret)
             as [Hres Htab].
           rewrite Htab, Hres. split; [exact IH1|]. constructor; [rewrite Hup', ?Hdel; reflexivity | exact IH2].
        -- rewrite syncFile_cases, Hfs', Hup', Hdel.
           unfold unchanged, stored_fingerprint. rewrite Hrows. simpl.
           split; [exact IH1|]. constructor; [rewrite Hup', ?Hdel; reflexivity | exact IH2].
      * rewrite (syncFile_skips env' filePath content t1 r rest Hfs' Hup' Hrows Hret).
        simpl. split; [exact IH1|]. constructor; [rewrite Hup', ?Hdel; reflexivity | exact IH2].
    + destruct (syncFile_lookup_refused env' filePath false content t1 Hfs' Hup')
        as [Hres Htab].
      rewrite Htab, Hres. split; [exact IH1|]. constructor; [rewrite Hup', ?Hdel; reflexivity | exact IH2].
Qed.

End Resync.

(** ** Cosine distance *)

Section Cosine.

Local Open Scope R_scope.

Lemma dot_self_nonneg (a : vector) : 0 <= dot a a.
Proof.
  induction a as [|x a IH]; simpl; [lra|]. nra.
Qed.

(** Cauchy-Schwarz. *)
Lemma dot_squared (a : vector) :
  forall b : vector, dot a b * dot a b <= dot a a * dot b b.
Proof.
  induction a as [|x a IH]; intros b.
  - simpl. pose proof (dot_self_nonneg b). nra.
  - destruct b as [|y b].
    + simpl. pose proof (dot_self_nonneg (x :: a)). simpl in *. nra.
    + simpl. specialize (IH b).
      pose proof (dot_self_nonneg a) as Ha.
      pose proof (dot_self_nonneg b) as Hb.
      set (C := dot a b) in *. set (A := dot a a) in *. set (B := dot b b) in *.
      assert (Hmix : 2 * (C * (x * y)) <= A * (y * y) + B * (x * x)).
      { destruct (Rle_dec (2 * (C * (x * y))) 0) as [Hneg|Hpos].
        - nra.
        - apply Rnot_le_lt in Hpos.
          assert (Hsq : (2 * (C * (x * y))) * (2 * (C * (x * y)))
                        <= (A * (y * y) + B * (x * x)) * (A * (y * y) + B * (x * x))).
          { assert (H4 : 4 * (C * C) * ((x * x) * (y * y))
                         <= 4 * (A * B) * ((x * x) * (y * y))).
            { apply Rmult_le_compat_r; [nra | lra]. }
            pose proof (Rle_0_sqr (A * (y * y) - B * (x * x))) as Hdiff.
            unfold Rsqr in Hdiff. lra. }
          assert (Hsum : 0 <= A * (y * y) + B * (x * x)) by nra.
          nra. }
      nra.
Qed.

(** The cosine distance of exact arithmetic lies between 0 and 2. *)
Lemma cosine_distance_range (a b : vector) (d : R) :
  cosine_distance a b = Some d -> 0 <= d <= 2.
Proof.
  unfold cosine_distance.
  destruct (Req_dec_T (dot a a * dot b b) 0) as [Hzero|Hnz]; [discriminate|].
  intros Hd. injection Hd as Hd. subst d.
  pose proof (dot_self_nonneg a) as Ha. pose proof (dot_self_nonneg b) as Hb.
  pose proof (dot_squared a b) as Hcs.
  assert (Hpos : 0 < dot a a * dot b b) by nra.
  pose proof (sqrt_lt_R0 _ Hpos) as Hn.
  pose proof (sqrt_sqrt (dot a a * dot b b) (Rlt_le _ _ Hpos)) as Hnn.
  set (n := sqrt (dot a a * dot b b)) in *.
  assert (Hup : dot a b <= n) by nra.
  assert (Hlow : - n <= dot a b) by nra.
  assert (Hq : -1 <= dot a b / n <= 1).
  { split; apply Rmult_le_reg_r with n; try exact Hn;
      unfold Rdiv; rewrite Rmult_assoc, Rinv_l by lra; lra. }
  lra.
Qed.

End Cosine.

(** ** The retriever *)

Lemma In_firstn {A} (n : nat) (l : list A) (x : A) : In x (firstn n l) -> In x l.
Proof.
  intros H. rewrite <- (firstn_skipn n l). apply in_or_app. now left.
Qed.

Lemma In_insert_by_distance (x y : Row.t * option R) (l : list (Row.t * option R)) :
  In x (insert_by_distance y l) -> x = y \/ In x l.
Proof.
  induction l as [|z l IH]; simpl.
  - intros [H|[]]. now left.
  - destruct (distance_leb (snd z) (snd y)); simpl.
    + intros [H|H]; [right; now left|]. apply IH in H. tauto.
    + intros [H|[H|H]]; auto.
Qed.

Lemma In_order_by_distance (x : Row.t * option R) (l : list (Row.t * option R)) :
  In x (order_by_distance l) -> In x l.
Proof.
  unfold order_by_distance.
  assert (H : forall acc, In x (fold_left (fun sorted y => insert_by_distance y sorted)
                                  l acc) -> In x l \/ In x acc).
  { induction l as [|y l IH]; intros acc Hin; simpl in *; [now right|].
    apply IH in Hin. destruct Hin as [Hin|Hin]; [tauto|].
    apply In_insert_by_distance in Hin. destruct Hin as [Hin|Hin]; subst; tauto. }
  intros Hin. apply H in Hin. destruct Hin as [Hin|[]]. exact Hin.
Qed.

Lemma distance_leb_total (x y : option R) :
  distance_leb x y = false -> distance_leb y x = true.
Proof.
  destruct x as [a|], y as [b|]; simpl; try discriminate; try reflexivity.
  destruct (Rle_dec a b) as [Hab|Hab]; [discriminate|]. intros _.
  destruct (Rle_dec b a) as [Hba|Hba]; [reflexivity|]. lra.
Qed.

Lemma insert_by_distance_sorted (x : Row.t * option R) (l : list (Row.t * option R)) :
  by_distance l -> by_distance (insert_by_distance x l).
Proof.
  induction l as [|y l IH]; intros Hl; [exact I|].
  simpl insert_by_distance.
  destruct (distance_leb (snd y) (snd x)) eqn:Hyx.
  - destruct l as [|z l].
    + simpl. now split.
    + destruct Hl as [Hyz Hl]. specialize (IH Hl).
      simpl insert_by_distance in *.
      destruct (distance_leb (snd z) (snd x)); simpl; simpl in IH; tauto.
  - apply distance_leb_total in Hyx.
    change (distance_leb (snd x) (snd y) = true /\ by_distance (y :: l)). now split.
Qed.

(** ORDER BY puts the rows by increasing distance. *)
Lemma order_by_distance_sorted (l : list (Row.t * option R)) :
  by_distance (order_by_distance l).
Proof.
  unfold order_by_distance.
  assert (H : forall acc, by_distance acc ->
                by_distance (fold_left (fun sorted y => insert_by_distance y sorted)
                               l acc)).
  { induction l as [|y l IH]; intros acc Hacc; simpl; [exact Hacc|].
    apply IH. now apply insert_by_distance_sorted. }
  now apply H.
Qed.

(** What the statement returns: rows of the table, each with its
    similarity to the query vector, no more than the limit, and the table
    as it was. *)
Lemma select_nearest_rows (env : Env) (q : option vector)
    (types : option (list string)) (topK : Z) (t t' : Table)
    (rows : list (Row.t * option R)) :
  select_nearest env q types topK t = Ok (rows, t') ->
  t' = t
  /\ (Z.of_nat (length rows) <= topK)
  /\ exists v, q = Some v
       /\ Forall (fun rs =>
                    In (fst rs) t
                    /\ snd rs = option_map (fun d => (1 - d)%R)
                                  (distance env (Row.embedding (fst rs)) v))
            rows.
Proof.
  unfold select_nearest. destruct q as [[|x v]|]; try discriminate.
  destruct (topK <? 0) eqn:Hk; [discriminate|]. apply Z.ltb_ge in Hk.
  set (found := match types with
                | Some tys => filter (fun r => existsb (String.eqb (Row.file_type r)) tys) t
                | None => t
                end).
  destruct (forallb _ found); [|discriminate].
  intros H. inversion H; subst. split; [reflexivity|]. split.
  - rewrite length_map, length_firstn. lia.
  - exists (x :: v). split; [reflexivity|].
    apply Forall_forall. intros rs Hin. apply in_map_iff in Hin.
    destruct Hin as [[r d] [Hrs Hin]]. subst rs. simpl.
    apply In_firstn, In_order_by_distance, in_map_iff in Hin.
    destruct Hin as [r' [Hr' Hin]]. inversion Hr'; subst. split; [|reflexivity].
    apply filter_In in Hin. destruct Hin as [Hin _].
    subst found. destruct types; [|exact Hin].
    apply filter_In in Hin. tauto.
Qed.

Lemma select_nearest_empty (env : Env) (q : option vector)
    (types : option (list string)) (topK : Z) (t' : Table)
    (rows : list (Row.t * option R)) :
  select_nearest env q types topK [] = Ok (rows, t') -> rows = [].
Proof.
  unfold select_nearest. destruct q as [[|x v]|]; try discriminate.
  destruct (topK <? 0); [discriminate|].
  destruct types; simpl; intros H; inversion H; now rewrite firstn_nil.
Qed.

Section RetrieverProperties.

Variable env : Env.

(** All the runs of [queryVectorDatabase], by what it meets. *)
Lemma queryVectorDatabase_cases (query : jsstring) (topK : Z)
    (fileTypeFilter : option (list string)) (w : World) :
  exists w',
    table w' = table w
    /\ queryVectorDatabase env query topK fileTypeFilter w
       = (match ollama env (length (log w)) query with
          | Json (Some v) =>
              if postgres_up env (S (length (log w))) then
                match select_nearest env (Some v) (where_types fileTypeFilter) topK
                        (table w) with
                | Ok (rows, _) => Ok (map to_result rows)
                | Throw _ => Ok []
                end
              else Ok []
          | _ => Ok []
          end, w').
Proof.
  unfold queryVectorDatabase, try_catch at 1, bind at 1, embed, try_catch, bind at 1.
  unfold embed_each, bind at 1, await. simpl fst.
  destruct (ollama env (length (log w)) query) as [| |[v|]];
    try (eexists; split; [|reflexivity]; reflexivity).
  unfold ret at 1. simpl. unfold ret at 1.
  unfold bind. simpl.
  assert (Hlen : length (log w ++ [(Embedding query, table w)]) = S (length (log w)))
    by (rewrite length_app; simpl; lia).
  destruct fileTypeFilter as [[|ty tys]|]; unfold sql; simpl table; simpl log;
    rewrite Hlen; simpl where_types;
    destruct (postgres_up env (S (length (log w))));
    try (eexists; split; [|reflexivity]; reflexivity).
  all: match goal with
       | |- context [select_nearest ?q ?f ?k ?t] =>
           destruct (select_nearest q f k t) as [[rows t']|x] eqn:Hsel
       end.
  all: try (eexists; split; [|reflexivity]; reflexivity).
  all: apply select_nearest_rows in Hsel; destruct Hsel as [Ht _]; subst t';
    eexists; split; [|reflexivity]; reflexivity.
Qed.

(** C8.  [queryVectorDatabase] never raises: whatever the query, the
    limit, the filter, the embedding service and the database do, it
    returns a list, and it leaves the table alone.  The list is empty when
    the table is empty, when the embedding of the query fails, and when
    the statement is not answered or is refused. *)
Theorem queryVectorDatabase_never_raises (query : jsstring) (topK : Z)
    (fileTypeFilter : option (list string)) (w : World) :
  exists results : list RetrievalResult.t,
    fst (queryVectorDatabase env query topK fileTypeFilter w) = Ok results
    /\ table (snd (queryVectorDatabase env query topK fileTypeFilter w)) = table w
    /\ (table w = [] -> results = [])
    /\ ((forall v, ollama env (length (log w)) query <> Json (Some v)) -> results = [])
    /\ (postgres_up env (S (length (log w))) = false -> results = [])
    /\ (forall v e,
          ollama env (length (log w)) query = Json (Some v) ->
          select_nearest env (Some v) (where_types fileTypeFilter) topK (table w)
          = Throw e ->
          results = []).
Proof.
  destruct (queryVectorDatabase_cases query topK fileTypeFilter w) as [w' [Ht Hq]].
  rewrite Hq. simpl fst; simpl snd.
  destruct (ollama env (length (log w)) query) as [| |[v|]] eqn:Hreply.
  1, 2, 4: exists []; repeat split; auto; intros; discriminate.
  destruct (postgres_up env (S (length (log w)))) eqn:Hup.
  - destruct (select_nearest env (Some v) (where_types fileTypeFilter) topK (table w))
      as [[rows t']|x] eqn:Hsel.
    + exists (map to_result rows).
      split; [reflexivity|]. split; [exact Ht|]. split; [|split; [|split]].
      * intros Hempty. rewrite Hempty in Hsel.
        apply select_nearest_empty in Hsel. now subst rows.
      * intros Hno. now specialize (Hno v).
      * discriminate.
      * intros v' e Hv Hthrow. inversion Hv; subst v'.
        rewrite Hsel in Hthrow. discriminate.
    + exists []. repeat split; auto.
  - exists []. repeat split; auto.
Qed.

(** C9, as the code has it.  A result is made of a row of the table, and
    its similarity is one minus the distance [<=>] of the vector of that
    very row to the embedding of the query, NaN when that distance is NaN.
    A cosine distance lies between 0 and 2: with such an operator the
    similarity is a number between -1 and 1, and it is 1 when the distance
    is 0. *)
Theorem queryVectorDatabase_similarity (query : jsstring) (topK : Z)
    (fileTypeFilter : option (list string)) (w : World)
    (results : list RetrievalResult.t) :
  (forall a b d, distance env a b = Some d -> (0 <= d <= 2)%R) ->
  fst (queryVectorDatabase env query topK fileTypeFilter w) = Ok results ->
  Forall
    (fun result =>
       exists (row : Row.t) (v : vector),
         In row (table w)
         /\ ollama env (length (log w)) query = Json (Some v)
         /\ result
            = to_result
                (row,
                 option_map (fun d => (1 - d)%R) (distance env (Row.embedding row) v))
         /\ match RetrievalResult.similarity result with
            | Some s =>
                (-1 <= s <= 1)%R
                /\ (distance env (Row.embedding row) v = Some 0%R -> s = 1%R)
            | None => distance env (Row.embedding row) v = None
            end)
    results.
Proof.
  intros Hrange.
  destruct (queryVectorDatabase_cases query topK fileTypeFilter w) as [w' [Ht Hq]].
  rewrite Hq. simpl fst. intros Hres.
  destruct (ollama env (length (log w)) query) as [| |[v|]] eqn:Hreply;
    try (inversion Hres; subst; constructor).
  destruct (postgres_up env (S (length (log w))));
    [|inversion Hres; subst; constructor].
  destruct (select_nearest env (Some v) (where_types fileTypeFilter) topK (table w))
    as [[rows t']|x] eqn:Hsel; [|inversion Hres; subst; constructor].
  inversion Hres; subst results.
  apply select_nearest_rows in Hsel.
  destruct Hsel as [_ [_ [v' [Hv Hrows]]]]. inversion Hv; subst v'.
  apply Forall_forall. intros result Hin. apply in_map_iff in Hin.
  destruct Hin as [[row sim] [Hrs Hin]]. rewrite Forall_forall in Hrows.
  destruct (Hrows (row, sim) Hin) as [Hrow Hsim]. simpl in Hrow, Hsim.
  exists row, v. subst result sim.
  split; [exact Hrow|]. split; [reflexivity|]. split; [reflexivity|].
  simpl RetrievalResult.similarity.
  destruct (distance env (Row.embedding row) v) as [d|] eqn:Hd; simpl; [|reflexivity].
  pose proof (Hrange _ _ _ Hd) as Hd2. split; [lra|].
  intros Hzero. inversion Hzero. lra.
Qed.

End RetrieverProperties.

(** * Further properties *)

(** ** More on slices and trimming *)

Lemma slice_slice (s : jsstring) (a b x y : Z) :
  0 <= a -> a <= b -> b <= len s -> 0 <= x -> x <= y -> y <= b - a ->
  slice (slice s a b) x y = slice s (a + x) (a + y).
Proof.
  intros Ha Hab Hb Hx Hxy Hy.
  assert (Ht : len (slice s a b) = b - a) by now apply len_slice.
  rewrite (slice_inside (slice s a b) x y) by lia.
  rewrite (slice_inside s a b) by lia.
  rewrite (slice_inside s (a + x) (a + y)) by lia.
  rewrite skipn_firstn_comm, firstn_firstn, skipn_skipn.
  replace (Z.to_nat x + Z.to_nat a)%nat with (Z.to_nat (a + x)) by lia.
  f_equal. lia.
Qed.

Lemma slice_from_end (s : jsstring) (k : Z) :
  0 < k -> k <= len s -> slice_from s (- k) = slice s (len s - k) (len s).
Proof.
  intros Hk Hlen. unfold slice_from, slice.
  pose proof (len_nonneg s) as Hs.
  destruct (Z.ltb_spec (- k) 0); [|lia].
  destruct (Z.ltb_spec (len s) 0); [lia|].
  destruct (Z.ltb_spec (len s - k) 0); [lia|].
  replace (Z.max (len s + - k) 0) with (len s - k) by lia.
  replace (Z.min (len s - k) (len s)) with (len s - k) by lia.
  reflexivity.
Qed.

Lemma drop_while_idem (p : code_unit -> bool) (s : jsstring) :
  drop_while p (drop_while p s) = drop_while p s.
Proof.
  induction s as [|c s IH]; simpl; [reflexivity|].
  destruct (p c) eqn:Hc; [exact IH|]. simpl. now rewrite Hc.
Qed.

Lemma drop_while_last (p : code_unit -> bool) (s : jsstring) (c : code_unit) :
  p c = false -> drop_while p (s ++ [c]) = drop_while p s ++ [c].
Proof.
  intros Hc. induction s as [|d s IH]; simpl.
  - now rewrite Hc.
  - destruct (p d); [exact IH|reflexivity].
Qed.

Lemma trimEnd_idem (s : jsstring) : trimEnd (trimEnd s) = trimEnd s.
Proof.
  unfold trimEnd. now rewrite rev_involutive, drop_while_idem.
Qed.

Lemma trimStart_trimEnd (s : jsstring) :
  trimStart s = s -> trimStart (trimEnd s) = trimEnd s.
Proof.
  destruct s as [|c s]; [reflexivity|].
  unfold trimStart, trimEnd. simpl.
  destruct (is_space c) eqn:Hc.
  - intros H. exfalso.
    assert (Hlen : (length (drop_while is_space s) <= length s)%nat).
    { clear. induction s as [|d s IH]; simpl; [lia|].
      destruct (is_space d); simpl; lia. }
    rewrite H in Hlen. simpl in Hlen. lia.
  - intros _. rewrite drop_while_last by exact Hc.
    rewrite rev_app_distr. simpl. now rewrite Hc.
Qed.

(** [trim] removes all there is to remove. *)
Lemma trim_idem (s : jsstring) : trim (trim s) = trim s.
Proof.
  unfold trim.
  rewrite (trimStart_trimEnd (trimStart s)).
  - apply trimEnd_idem.
  - apply drop_while_idem.
Qed.

Lemma numbered_from_nth (chunks : list Chunk.t) :
  forall (k : Z) (i : nat) (c : Chunk.t),
    numbered_from k chunks -> nth_error chunks i = Some c ->
    Chunk.index c = k + Z.of_nat i.
Proof.
  induction chunks as [|d chunks IH]; intros k i c Hn Hi.
  - destruct i; discriminate.
  - destruct Hn as [Hd Hn]. destruct i as [|i]; simpl in Hi.
    + inversion Hi; subst. lia.
    + rewrite (IH (k + 1) i c Hn Hi). lia.
Qed.

(** ** The windows of the fixed-window chunker *)

Section PlainWindows.

Variable sha256 : jsstring -> string.

Lemma plain_run_window_count (content : jsstring) (start i : Z) (out : list Chunk.t) :
  plain_run sha256 content start i out ->
  Z.of_nat (length out) = window_count (len content - start).
Proof.
  induction 1 as [start i Hover|start i Hin Hbreak|start i out Hin Hnext Hrun IH];
    unfold window_count, window_end, ceil_div in *; unfold_sizes.
  - destruct (Z.leb_spec (len content - start) 0); [reflexivity|lia].
  - destruct (Z.leb_spec (len content - start) 0); [lia|].
    destruct (Z.leb_spec (len content - start) (25 * 4)); [reflexivity|lia].
  - simpl length. rewrite Nat2Z.inj_succ, IH. clear IH Hrun.
    destruct (Z.leb_spec (len content - start) 0); [lia|].
    destruct (Z.leb_spec (len content - start) (25 * 4)); [lia|].
    destruct (Z.leb_spec
                (len content - (Z.min (start + 256 * 4) (len content) - 25 * 4)) 0);
      [lia|].
    destruct (Z.leb_spec
                (len content - (Z.min (start + 256 * 4) (len content) - 25 * 4))
                (25 * 4)).
    + Z.div_mod_to_equations. lia.
    + Z.div_mod_to_equations. lia.
Qed.

(** The first chunk of a run is the window at its start. *)
Lemma plain_run_head (content : jsstring) (start i : Z) (c : Chunk.t)
    (out : list Chunk.t) :
  plain_run sha256 content start i (c :: out) ->
  start < len content
  /\ Chunk.content c = slice content start (window_end content start).
Proof.
  intros H. inversion H; subst; split; auto.
Qed.

Lemma plain_run_overlap (content : jsstring) (start i : Z) (out : list Chunk.t) :
  plain_run sha256 content start i out ->
  0 <= start ->
  forall (n : nat) (c c' : Chunk.t),
    nth_error out n = Some c -> nth_error out (S n) = Some c' ->
    len (slice_from (Chunk.content c) (- OVERLAP_SIZE)) = OVERLAP_SIZE
    /\ slice_from (Chunk.content c) (- OVERLAP_SIZE)
       = slice (Chunk.content c') 0 OVERLAP_SIZE.
Proof.
  induction 1 as [start i Hover|start i Hin Hbreak|start i out Hin Hnext Hrun IH];
    intros Hs n c c' Hc Hc'.
  - destruct n; discriminate.
  - destruct n as [|[|n]]; discriminate.
  - destruct n as [|n].
    + simpl in Hc, Hc'. inversion Hc; subst c. clear Hc.
      destruct out as [|d out]; [discriminate|]. simpl in Hc'.
      inversion Hc'; subst d. clear Hc'.
      apply plain_run_head in Hrun. destruct Hrun as [Hlt Hd]. rewrite Hd.
      simpl Chunk.content.
      pose proof (len_nonneg content) as Hlen.
      unfold window_end in *; unfold_sizes.
      set (e := Z.min (start + 256 * 4) (len content)) in *.
      set (e' := Z.min (e - 25 * 4 + 256 * 4) (len content)) in *.
      assert (He : len (slice content start e) = e - start)
        by (apply len_slice; lia).
      rewrite slice_from_end by lia. rewrite He.
      rewrite slice_slice by lia.
      rewrite (slice_slice content (e - 25 * 4) e') by lia.
      replace (start + (e - start - 25 * 4)) with (e - 25 * 4) by lia.
      replace (start + (e - start)) with e by lia.
      replace (e - 25 * 4 + 0) with (e - 25 * 4) by lia.
      replace (e - 25 * 4 + 25 * 4) with e by lia.
      split; [|reflexivity]. rewrite len_slice by lia. lia.
    + simpl in Hc, Hc'. apply (IH ltac:(unfold window_end in *; unfold_sizes; lia) n c c' Hc Hc').
Qed.

(** A run over no more than the overlap is one chunk, the rest of the
    content. *)
Lemma plain_run_short (content : jsstring) (start i : Z) (out : list Chunk.t) :
  plain_run sha256 content start i out ->
  start < len content -> len content - start <= OVERLAP_SIZE ->
  out = [createChunk sha256 (slice content start (len content)) i None].
Proof.
  intros H Hlt Hshort. unfold window_end in *.
  inversion H; subst; unfold window_end in *; unfold_sizes; try lia.
  replace (Z.min (start + 256 * 4) (len content)) with (len content) by lia.
  reflexivity.
Qed.

Lemma plain_run_tail_chunk (content : jsstring) (start i : Z) (out : list Chunk.t) :
  plain_run sha256 content start i out ->
  0 <= start -> OVERLAP_SIZE < len content - start ->
  exists (front : list Chunk.t) (prev last : Chunk.t),
    out = front ++ [prev; last]
    /\ Chunk.content last = slice content (len content - OVERLAP_SIZE) (len content)
    /\ slice_from (Chunk.content prev) (- OVERLAP_SIZE) = Chunk.content last.
Proof.
  induction 1 as [start i Hover|start i Hin Hbreak|start i out Hin Hnext Hrun IH];
    intros Hs Hlong.
  - unfold_sizes. lia.
  - unfold window_end in *; unfold_sizes. lia.
  - destruct (Z.le_gt_cases (len content) (start + MAX_CHUNK_SIZE)) as [Hend|Hend].
    + assert (He : window_end content start = len content)
        by (unfold window_end; lia).
      rewrite He in *.
      apply plain_run_short in Hrun; [|unfold_sizes; lia|unfold_sizes; lia]. subst out.
      exists [], (createChunk sha256 (slice content start (len content)) i None),
        (createChunk sha256
           (slice content (len content - OVERLAP_SIZE) (len content)) (i + 1) None).
      split; [reflexivity|]. split; [reflexivity|]. simpl Chunk.content.
      unfold_sizes.
      assert (Hl : len (slice content start (len content)) = len content - start)
        by (apply len_slice; lia).
      rewrite slice_from_end by lia. rewrite Hl.
      rewrite slice_slice by lia. f_equal; lia.
    + assert (He : window_end content start = start + MAX_CHUNK_SIZE)
        by (unfold window_end; lia).
      rewrite He in *. unfold_sizes.
      destruct IH as [front [prev [last [Hout [Hlast Hprev]]]]]; [lia|lia|].
      exists (createChunk sha256 (slice content start (start + 256 * 4)) i None :: front),
        prev, last.
      split; [now rewrite Hout|]. now split.
Qed.

End PlainWindows.

(** ** Further properties of the chunker *)

Lemma numbered_from_seq (chunks : list Chunk.t) :
  forall k : Z,
    numbered_from k chunks ->
    map Chunk.index chunks
    = map (fun i => k + Z.of_nat i) (seq 0 (length chunks)).
Proof.
  induction chunks as [|c chunks IH]; intros k Hn; [reflexivity|].
  destruct Hn as [Hc Hn]. simpl. rewrite <- seq_shift, map_map.
  rewrite (IH (k + 1) Hn). f_equal; [lia|].
  apply map_ext. intros i. lia.
Qed.

Lemma split_headings_hash_free (fuel : nat) :
  forall (bol : bool) (cur rest : jsstring),
    hash_free rest -> split_headings fuel bol cur rest = [cur ++ rest].
Proof.
  induction fuel as [|fuel IH]; intros bol cur rest Hfree; [reflexivity|].
  destruct rest as [|c rest]; simpl split_headings.
  - now rewrite app_nil_r.
  - inversion Hfree as [|? ? Hc Hrest]; subst.
    assert (Hnone : (if bol then heading_at (c :: rest) else None) = None).
    { destruct bol; [|reflexivity]. unfold heading_at. simpl. now rewrite Hc. }
    rewrite Hnone. rewrite (IH _ _ _ Hrest). now rewrite <- app_assoc.
Qed.

Lemma is_heading_hash_free (part : jsstring) :
  hash_free part -> is_heading part = false.
Proof.
  intros Hfree. unfold is_heading.
  destruct part as [|c part]; [reflexivity|].
  inversion Hfree; subst. simpl. now rewrite H1.
Qed.

Section ChunkerFurther.

Variable sha256 : jsstring -> string.

(** X1.  The chunker cuts [window_count] windows: none from an empty content,
    one from a content of up to 100 characters, and from a longer one a
    window every 924 characters until one reaches the end, then one more
    over the last 100 characters. *)
Theorem chunkPlainText_count (content : jsstring) :
  Z.of_nat (length (chunkPlainText sha256 content)) = window_count (len content).
Proof.
  rewrite (plain_run_window_count sha256 content 0 0 _ (chunkPlainText_run sha256 content)).
  f_equal. lia.
Qed.

(** X2.  Each chunk but the last ends with the 100 characters the next one
    starts with. *)
Theorem chunkPlainText_overlap (content : jsstring) (n : nat) (c c' : Chunk.t) :
  nth_error (chunkPlainText sha256 content) n = Some c ->
  nth_error (chunkPlainText sha256 content) (S n) = Some c' ->
  len (slice_from (Chunk.content c) (- OVERLAP_SIZE)) = OVERLAP_SIZE
  /\ slice_from (Chunk.content c) (- OVERLAP_SIZE)
     = slice (Chunk.content c') 0 OVERLAP_SIZE.
Proof.
  apply (plain_run_overlap sha256 content 0 0 _ (chunkPlainText_run sha256 content)).
  lia.
Qed.

(** X3.  The last chunk of a content of more than 100 characters is its last
    100 characters, which the chunk before it already ends with. *)
Theorem chunkPlainText_repeats_tail (content : jsstring) :
  OVERLAP_SIZE < len content ->
  exists (front : list Chunk.t) (prev last : Chunk.t),
    chunkPlainText sha256 content = front ++ [prev; last]
    /\ Chunk.content last = slice_from content (- OVERLAP_SIZE)
    /\ slice_from (Chunk.content prev) (- OVERLAP_SIZE) = Chunk.content last.
Proof.
  intros Hlong.
  destruct (plain_run_tail_chunk sha256 content 0 0 _ (chunkPlainText_run sha256 content))
    as [front [prev [last [Hout [Hlast Hprev]]]]]; [lia|lia|].
  exists front, prev, last. split; [exact Hout|]. split; [|exact Hprev].
  rewrite Hlast. symmetry. apply slice_from_end; unfold_sizes; lia.
Qed.

(** X4.  Whatever the file type, the chunks of a document carry the indices
    0, 1, 2, ... in the order of the list. *)
Theorem chunkDocument_indices (filePath : string) (content : jsstring)
    (fileType : FileType) :
  map Chunk.index (chunkDocument sha256 filePath content fileType)
  = map Z.of_nat (seq 0 (length (chunkDocument sha256 filePath content fileType))).
Proof.
  apply (numbered_from_seq _ 0), chunkDocument_numbered.
Qed.

Lemma md_step_trimmed (st : MdState) (part : jsstring) :
  trimmed (currentSection st) ->
  Forall (fun c => trimmed (Chunk.content c)
                   /\ exists label, Chunk.section c = Some label /\ trimmed label)
    (chunks st) ->
  trimmed (currentSection (md_step sha256 st part))
  /\ Forall (fun c => trimmed (Chunk.content c)
                      /\ exists label, Chunk.section c = Some label /\ trimmed label)
       (chunks (md_step sha256 st part)).
Proof.
  intros Hlabel Hall. unfold md_step.
  destruct (is_heading part); simpl.
  - split; [apply trim_idem|exact Hall].
  - destruct (MAX_CHUNK_SIZE <? len (currentContent st ++ part)); simpl.
    + split; [exact Hlabel|]. apply Forall_app. split; [exact Hall|].
      constructor; [|constructor]. simpl. split; [apply trim_idem|].
      now exists (currentSection st).
    + now split.
Qed.

(** X5.  A chunk of a Markdown file has no white space at either end, and it
    carries a label with none either: the text of the last heading line
    read, or the empty label before the first one. *)
Theorem chunkMarkdown_trimmed (content : jsstring) :
  Forall (fun c => trimmed (Chunk.content c)
                   /\ exists label, Chunk.section c = Some label /\ trimmed label)
    (chunkMarkdown sha256 content).
Proof.
  unfold chunkMarkdown.
  assert (H : forall parts st,
             trimmed (currentSection st) ->
             Forall (fun c => trimmed (Chunk.content c)
                              /\ exists label, Chunk.section c = Some label
                                               /\ trimmed label) (chunks st) ->
             trimmed (currentSection (fold_left (md_step sha256) parts st))
             /\ Forall (fun c => trimmed (Chunk.content c)
                                 /\ exists label, Chunk.section c = Some label
                                                  /\ trimmed label)
                  (chunks (fold_left (md_step sha256) parts st))).
  { induction parts as [|part parts IH]; intros st Hl Hc; simpl; [now split|].
    destruct (md_step_trimmed st part Hl Hc) as [Hl' Hc']. now apply IH. }
  destruct (H (split_on_headings content) md_init) as [Hl Hc];
    [reflexivity|constructor|].
  set (st := fold_left (md_step sha256) (split_on_headings content) md_init) in *.
  destruct (trim (currentContent st)) as [|c rest] eqn:Hrest; [exact Hc|].
  apply Forall_app. split; [exact Hc|]. constructor; [|constructor]. simpl. split.
  - unfold trimmed. rewrite <- Hrest. apply trim_idem.
  - now exists (currentSection st).
Qed.

(** X6.  A Markdown file with no [#] in it is never cut: however long it is,
    its first chunk is the whole trimmed content under the empty label;
    past 1024 characters a second chunk follows, of what is left of the
    last 100 characters after trimming. *)
Theorem chunkMarkdown_no_heading (content : jsstring) :
  hash_free content ->
  chunkMarkdown sha256 content
  = if MAX_CHUNK_SIZE <? len content then
      createChunk sha256 (trim content) 0 (Some [])
      :: match trim (slice_from content (- OVERLAP_SIZE)) with
         | [] => []
         | rest => [createChunk sha256 rest 1 (Some [])]
         end
    else
      match trim content with
      | [] => []
      | rest => [createChunk sha256 rest 0 (Some [])]
      end.
Proof.
  intros Hfree. unfold chunkMarkdown, split_on_headings.
  rewrite split_headings_hash_free by exact Hfree.
  simpl fold_left. unfold md_step.
  rewrite is_heading_hash_free by exact Hfree.
  simpl currentContent. simpl app.
  destruct (MAX_CHUNK_SIZE <? len content); simpl; [|reflexivity].
  match goal with |- context [trim ?tail] => now destruct (trim tail) end.
Qed.

End ChunkerFurther.

(** ** Markdown sections *)

Section MarkdownSections.

Variable sha256 : jsstring -> string.

Lemma len_app (s s' : jsstring) : len (s ++ s') = len s + len s'.
Proof. unfold len. rewrite length_app. lia. Qed.

(** As long as the text read stays within the maximum size, the loop
    pushes no chunk: it gathers the text and keeps the last label. *)
Lemma md_step_gathers (parts : list jsstring) :
  forall st : MdState,
    len (currentContent st ++ body_text parts) <= MAX_CHUNK_SIZE ->
    fold_left (md_step sha256) parts st
    = {| currentSection := last_label (currentSection st) parts;
         currentContent := currentContent st ++ body_text parts;
         chunkIndex := chunkIndex st;
         chunks := chunks st |}.
Proof.
  induction parts as [|part parts IH]; intros st Hlen.
  - unfold body_text. simpl. rewrite app_nil_r. now destruct st.
  - unfold body_text in *. simpl filter in *. simpl fold_left. unfold last_label.
    simpl fold_left. unfold md_step at 2.
    destruct (is_heading part) eqn:Hhead; simpl negb in *; cbv iota in *.
    + rewrite IH by exact Hlen. reflexivity.
    + simpl concat in *.
      pose proof (len_nonneg (concat (filter (fun p => negb (is_heading p)) parts)))
        as Hrest.
      rewrite !len_app in Hlen.
      destruct (Z.ltb_spec MAX_CHUNK_SIZE (len (currentContent st ++ part)))
        as [Hbig|Hsmall]; [rewrite len_app in Hbig; lia|].
      rewrite IH; simpl; [now rewrite <- app_assoc|].
      rewrite !len_app. lia.
Qed.

(** X7.  A heading line does not end a chunk.  When the text of a Markdown
    file outside its heading lines is at most 1024 characters long, the
    file makes at most one chunk: all of that text, trimmed, under the
    label of the last heading line of the file. *)
Theorem chunkMarkdown_merges_sections (content : jsstring) :
  len (body_text (split_on_headings content)) <= MAX_CHUNK_SIZE ->
  chunkMarkdown sha256 content
  = match trim (body_text (split_on_headings content)) with
    | [] => []
    | rest =>
        [createChunk sha256 rest 0 (Some (last_label [] (split_on_headings content)))]
    end.
Proof.
  intros Hlen. unfold chunkMarkdown.
  rewrite md_step_gathers by exact Hlen. simpl.
  now destruct (trim (body_text (split_on_headings content))).
Qed.

End MarkdownSections.

(** ** Markdown files that are too long to store *)

Lemma length_drop_while (p : code_unit -> bool) (s : jsstring) :
  (length (drop_while p s) <= length s)%nat.
Proof.
  induction s as [|c s IH]; simpl; [lia|]. destruct (p c); simpl; lia.
Qed.

Lemma len_trim (s : jsstring) : len (trim s) <= len s.
Proof.
  unfold len, trim, trimEnd, trimStart. rewrite length_rev.
  pose proof (length_drop_while is_space (rev (drop_while is_space s))) as H1.
  pose proof (length_drop_while is_space s) as H2.
  rewrite length_rev in H1. lia.
Qed.

Section MarkdownTooLong.

Variable sha256 : jsstring -> string.

(** X8.  Of a Markdown file with no [#] in it and more than 4000 characters
    between its first and its last character that is not white space,
    the write path stores the last 100 characters at most: the chunk that
    holds the file is oversized, and the only other chunk is what is left
    of the last 100 characters after trimming. *)
Theorem chunkMarkdown_too_long (content : jsstring) :
  hash_free content ->
  4000 < len (trim content) ->
  storable (chunkMarkdown sha256 content)
  = match trim (slice_from content (- OVERLAP_SIZE)) with
    | [] => []
    | rest => [createChunk sha256 rest 1 (Some [])]
    end
  /\ Forall (fun c => len (Chunk.content c) <= OVERLAP_SIZE)
       (storable (chunkMarkdown sha256 content)).
Proof.
  intros Hfree Hlong.
  pose proof (len_trim content) as Htrim.
  unfold chunkMarkdown, split_on_headings.
  rewrite split_headings_hash_free by exact Hfree.
  simpl fold_left. unfold md_step.
  rewrite is_heading_hash_free by exact Hfree.
  simpl currentContent. simpl app.
  destruct (Z.ltb_spec MAX_CHUNK_SIZE (len content)) as [Hbig|Hsmall];
    [|unfold_sizes; lia].
  simpl currentContent. simpl chunks. simpl chunkIndex. simpl currentSection.
  change (slice_from content (-100)) with (slice_from content (- OVERLAP_SIZE)).
  assert (Htail : len (trim (slice_from content (- OVERLAP_SIZE))) <= OVERLAP_SIZE).
  { rewrite slice_from_end by (unfold_sizes; lia).
    pose proof (len_trim (slice content (len content - OVERLAP_SIZE) (len content)))
      as Ht.
    rewrite len_slice in Ht by (unfold_sizes; lia). lia. }
  destruct (trim (slice_from content (- OVERLAP_SIZE))) as [|c rest] eqn:Hrest.
  - unfold storable, oversized. simpl.
    destruct (Z.ltb_spec 4000 (len (trim content))); [|lia]. simpl.
    split; [reflexivity|constructor].
  - unfold storable, oversized. simpl.
    destruct (Z.ltb_spec 4000 (len (trim content))); [|lia]. simpl.
    destruct (Z.ltb_spec 4000 (len (c :: rest))); [unfold_sizes; lia|]. simpl.
    split; [reflexivity|]. constructor; [exact Htail|constructor].
Qed.

End MarkdownTooLong.

(** ** The embedding client *)

Section ClientProperties.

Variable env : Env.

Lemma answered_length (texts : list jsstring) :
  forall (n : nat) (vectors : list vector),
    answered env n texts vectors -> length vectors = length texts.
Proof.
  induction texts as [|text texts IH]; intros n [|v vectors] H; simpl in *;
    try contradiction; [reflexivity|].
  destruct H as [_ H]. now rewrite (IH _ _ H).
Qed.

Lemma answered_nth (texts : list jsstring) :
  forall (n : nat) (vectors : list vector) (i : nat) (text : jsstring),
    answered env n texts vectors -> nth_error texts i = Some text ->
    exists v, nth_error vectors i = Some v
              /\ ollama env (n + i) text = Json (Some v).
Proof.
  induction texts as [|t texts IH]; intros n [|v vectors] i text H Hi; simpl in *;
    try contradiction; [destruct i; discriminate|].
  destruct H as [Hv H]. destruct i as [|i]; simpl in Hi.
  - inversion Hi; subst. exists v. split; [reflexivity|]. now rewrite Nat.add_0_r.
  - destruct (IH _ _ _ _ H Hi) as [v' [Hn Ho]]. exists v'. split; [exact Hn|].
    now rewrite Nat.add_succ_r.
Qed.

(** The loop of [embed]: it asks for one text after the other and stops
    at the first reply that is not an array. *)
Lemma embed_each_run (texts : list jsstring) :
  forall (embeddings : list vector) (w : World),
    table (snd (embed_each env texts embeddings w)) = table w
    /\ match fst (embed_each env texts embeddings w) with
       | Ok out =>
           exists vectors,
             out = embeddings ++ vectors
             /\ answered env (length (log w)) texts vectors
             /\ log (snd (embed_each env texts embeddings w))
                = log w ++ requests texts (table w)
       | Throw e =>
           exists (k : nat) (text : jsstring) (vectors : list vector),
             nth_error texts k = Some text
             /\ answered env (length (log w)) (firstn k texts) vectors
             /\ refusal (ollama env (length (log w) + k) text) = Some e
             /\ log (snd (embed_each env texts embeddings w))
                = log w ++ requests (firstn (S k) texts) (table w)
       end.
Proof.
  induction texts as [|text texts IH]; intros embeddings w.
  - simpl. split; [reflexivity|]. exists []. now rewrite !app_nil_r.
  - set (w1 := {| table := table w; log := log w ++ [(Embedding text, table w)] |}).
    assert (Hlen : length (log w1) = S (length (log w)))
      by (simpl; rewrite length_app; simpl; lia).
    assert (Hstep : embed_each env (text :: texts) embeddings w
                    = match ollama env (length (log w)) text with
                      | NoReply => (Throw FetchFailed, w1)
                      | Status => (Throw HttpError, w1)
                      | Json None => (Throw InvalidEmbedding, w1)
                      | Json (Some v) => embed_each env texts (embeddings ++ [v]) w1
                      end).
    { simpl. unfold bind, await. simpl.
      destruct (ollama env (length (log w)) text) as [| |[v|]]; reflexivity. }
    rewrite Hstep. clear Hstep.
    destruct (ollama env (length (log w)) text) as [| |[v|]] eqn:Hreply.
    1, 2, 4: (simpl; split; [reflexivity|]; exists 0%nat, text, []; simpl;
              rewrite Nat.add_0_r, Hreply; repeat split; reflexivity).
    destruct (IH (embeddings ++ [v]) w1) as [Ht Hrun].
    split; [exact Ht|].
    destruct (fst (embed_each env texts (embeddings ++ [v]) w1)) as [out|e].
    + destruct Hrun as [vectors [Hout [Hans Hlog]]].
      exists (v :: vectors). split; [now rewrite Hout, <- app_assoc|].
      split; [simpl; rewrite Hlen in Hans; now split|].
      rewrite Hlog. simpl. now rewrite <- app_assoc.
    + destruct Hrun as [k [text' [vectors [Hk [Hans [Href Hlog]]]]]].
      exists (S k), text', (v :: vectors). split; [exact Hk|].
      split; [simpl; rewrite Hlen in Hans; now split|].
      split; [rewrite Hlen in Href; now rewrite Nat.add_succ_r|].
      rewrite Hlog. simpl. now rewrite <- app_assoc.
Qed.

Lemma embed_run (texts : list jsstring) (w : World) :
  embed env texts w
  = match fst (embed_each env texts [] w) with
    | Ok out => (Ok out, snd (embed_each env texts [] w))
    | Throw e => (Throw e, snd (embed_each env texts [] w))
    end.
Proof.
  destruct texts as [|text texts]; [reflexivity|].
  unfold embed, try_catch, bind at 1.
  destruct (embed_each_run (text :: texts) [] w) as [_ Hrun].
  destruct (embed_each env (text :: texts) [] w) as [[out|e] w']; cbn [fst snd] in *;
    [|reflexivity].
  destruct Hrun as [vectors [Hout [Hans _]]]. subst out.
  apply answered_length in Hans. cbn [app]. rewrite Hans, Nat.eqb_refl.
  reflexivity.
Qed.

(** X9.  The client returns the vectors [vectors] exactly when the service
    answers the requests for the texts, made in order one per text, with
    these vectors: the i-th vector belongs to the i-th text, and there
    are as many vectors as texts.  It then has made one request per text,
    in the order of the texts, and none for no text. *)
Theorem embed_in_order (texts : list jsstring) (vectors : list vector) (w : World) :
  (fst (embed env texts w) = Ok vectors
   <-> answered env (length (log w)) texts vectors)
  /\ (answered env (length (log w)) texts vectors ->
      length vectors = length texts
      /\ (forall i text,
            nth_error texts i = Some text ->
            exists v, nth_error vectors i = Some v
                      /\ ollama env (length (log w) + i) text = Json (Some v))
      /\ snd (embed env texts w)
         = {| table := table w; log := log w ++ requests texts (table w) |}).
Proof.
  rewrite embed_run.
  destruct (embed_each_run texts [] w) as [Ht Hrun].
  assert (Hiff : fst (match fst (embed_each env texts [] w) with
                      | Ok out => (Ok out, snd (embed_each env texts [] w))
                      | Throw e => (Throw e, snd (embed_each env texts [] w))
                      end) = Ok vectors
                 <-> answered env (length (log w)) texts vectors).
  { destruct (fst (embed_each env texts [] w)) as [out|e]; simpl.
    - destruct Hrun as [vs [Hout [Hans _]]]. simpl in Hout. subst out. split.
      + intros H. inversion H; now subst.
      + intros H. f_equal. clear - Hans H.
        revert vs vectors Hans H. generalize (length (log w)).
        induction texts as [|t texts IH]; intros n [|v vs] [|v' vs'] H1 H2;
          simpl in *; try contradiction; [reflexivity|].
        destruct H1 as [Hv H1], H2 as [Hv' H2]. rewrite Hv in Hv'.
        inversion Hv'; subst. f_equal. now apply (IH (S n)).
    - destruct Hrun as [k [text [vs [Hk [Hans [Href _]]]]]]. split; [discriminate|].
      intros H. exfalso.
      assert (Hin : nth_error texts k = Some text) by exact Hk.
      destruct (answered_nth texts _ _ _ _ H Hin) as [v [_ Hv]].
      rewrite Hv in Href. discriminate. }
  split; [exact Hiff|].
  intros Hans. split; [now apply answered_length in Hans|].
  split; [intros i text Hi; now apply (answered_nth texts _ _ _ _ Hans Hi)|].
  apply Hiff in Hans.
  destruct (fst (embed_each env texts [] w)) as [out|e]; simpl in *;
    [|discriminate].
  destruct Hrun as [vs [_ [_ Hlog]]].
  destruct (snd (embed_each env texts [] w)) as [t' l']; simpl in *.
  now subst.
Qed.

(** X10.  When the client raises, some text got a reply that is not an array of
    numbers: the texts before it were answered, the error is the one of
    that reply, and no request was made for the texts after it.  The
    count check after the loop never fires. *)
Theorem embed_stops_at_first_failure (texts : list jsstring) (w : World) (e : Exn) :
  fst (embed env texts w) = Throw e ->
  exists (k : nat) (text : jsstring) (vectors : list vector),
    nth_error texts k = Some text
    /\ answered env (length (log w)) (firstn k texts) vectors
    /\ refusal (ollama env (length (log w) + k) text) = Some e
    /\ snd (embed env texts w)
       = {| table := table w;
            log := log w ++ requests (firstn (S k) texts) (table w) |}
    /\ e <> CountMismatch.
Proof.
  rewrite embed_run.
  destruct (embed_each_run texts [] w) as [Ht Hrun].
  destruct (fst (embed_each env texts [] w)) as [out|e']; simpl; [discriminate|].
  intros H. inversion H; subst e'.
  destruct Hrun as [k [text [vs [Hk [Hans [Href Hlog]]]]]].
  exists k, text, vs. split; [exact Hk|]. split; [exact Hans|].
  split; [exact Href|]. split.
  - destruct (snd (embed_each env texts [] w)) as [t' l']; simpl in *. now subst.
  - intros He. subst e.
    destruct (ollama env (length (log w) + k) text) as [| |[v|]]; discriminate.
Qed.

End ClientProperties.

(** ** The order of the results *)

Lemma by_distance_firstn (l : list (Row.t * option R)) :
  by_distance l -> forall k, by_distance (firstn k l).
Proof.
  induction l as [|x l IH]; intros Hl k; [now destruct k|].
  destruct k as [|k]; [exact I|].
  destruct l as [|y l]; [now destruct k|].
  destruct Hl as [Hxy Hl]. specialize (IH Hl k).
  destruct k as [|k]; [exact I|]. simpl in *. now split.
Qed.

Lemma similarity_order (x y : option R) :
  distance_leb x y = true ->
  similarity_geb (option_map (fun d => (1 - d)%R) x)
    (option_map (fun d => (1 - d)%R) y) = true.
Proof.
  destruct x as [a|], y as [b|]; simpl; try discriminate; try reflexivity.
  destruct (Rle_dec a b); [|discriminate]. intros _.
  destruct (Rle_dec (1 - b) (1 - a)); [reflexivity|]. exfalso. lra.
Qed.

Lemma by_similarity_results (l : list (Row.t * option R)) :
  by_distance l ->
  by_similarity
    (map to_result
       (map (fun rd => (fst rd, option_map (fun d => (1 - d)%R) (snd rd))) l)).
Proof.
  induction l as [|x l IH]; intros Hl; [exact I|].
  destruct l as [|y l]; [exact I|].
  destruct Hl as [Hxy Hl]. specialize (IH Hl).
  simpl in *. split; [now apply similarity_order|exact IH].
Qed.

(** What [select_nearest] returns when it returns. *)
Lemma select_nearest_ranked (env : Env) (q : option vector)
    (types : option (list string)) (topK : Z) (t t' : Table)
    (rows : list (Row.t * option R)) :
  select_nearest env q types topK t = Ok (rows, t') ->
  exists v,
    q = Some v /\ 0 <= topK
    /\ rows
       = map (fun rd => (fst rd, option_map (fun d => (1 - d)%R) (snd rd)))
           (firstn (Z.to_nat topK)
              (order_by_distance
                 (map (fun r => (r, distance env (Row.embedding r) v))
                    (filter (scanned env t v)
                       (match types with
                        | Some tys =>
                            filter (fun r => existsb (String.eqb (Row.file_type r)) tys)
                              t
                        | None => t
                        end))))).
Proof.
  unfold select_nearest. destruct q as [[|x v]|]; try discriminate.
  destruct (Z.ltb_spec topK 0) as [Hneg|Hk]; [discriminate|].
  destruct (forallb _ _); [|discriminate].
  intros Hok. inversion Hok; subst. exists (x :: v). repeat split; auto.
Qed.

Section RetrieverFurther.

Variable env : Env.

(** X11.  The results come by similarity going down, those without a similarity
    (NaN) last, and there are no more of them than the limit: none when
    the limit is zero or negative. *)
Theorem queryVectorDatabase_ranked (query : jsstring) (topK : Z)
    (fileTypeFilter : option (list string)) (w : World) :
  exists results : list RetrievalResult.t,
    fst (queryVectorDatabase env query topK fileTypeFilter w) = Ok results
    /\ by_similarity results
    /\ Z.of_nat (length results) <= Z.max topK 0.
Proof.
  destruct (queryVectorDatabase_cases env query topK fileTypeFilter w) as [w' [_ Hq]].
  rewrite Hq. simpl fst.
  destruct (ollama env (length (log w)) query) as [| |[v|]];
    try (exists []; repeat split; simpl; lia).
  destruct (postgres_up env (S (length (log w))));
    [|exists []; repeat split; simpl; lia].
  destruct (select_nearest env (Some v) (where_types fileTypeFilter) topK (table w))
    as [[rows t']|x] eqn:Hsel; [|exists []; repeat split; simpl; lia].
  exists (map to_result rows). split; [reflexivity|].
  apply select_nearest_ranked in Hsel. destruct Hsel as [v' [Hv [Hk Hrows]]].
  subst rows. split.
  - apply by_similarity_results, by_distance_firstn, order_by_distance_sorted.
  - rewrite !length_map, length_firstn. lia.
Qed.

(** X12.  With a filter that names file types, every result is of one of them. *)
Theorem queryVectorDatabase_filtered (query : jsstring) (topK : Z)
    (fileType : string) (others : list string) (w : World) :
  exists results : list RetrievalResult.t,
    fst (queryVectorDatabase env query topK (Some (fileType :: others)) w) = Ok results
    /\ Forall (fun result => In (RetrievalResult.fileType result) (fileType :: others))
         results.
Proof.
  destruct (queryVectorDatabase_cases env query topK (Some (fileType :: others)) w)
    as [w' [_ Hq]].
  rewrite Hq. simpl fst.
  destruct (ollama env (length (log w)) query) as [| |[v|]];
    try (exists []; split; [reflexivity|constructor]).
  destruct (postgres_up env (S (length (log w))));
    [|exists []; split; [reflexivity|constructor]].
  change (where_types (Some (fileType :: others))) with (Some (fileType :: others)).
  destruct (select_nearest env (Some v) (Some (fileType :: others)) topK (table w))
    as [[rows t']|x] eqn:Hsel; [|exists []; split; [reflexivity|constructor]].
  exists (map to_result rows). split; [reflexivity|].
  apply select_nearest_ranked in Hsel. destruct Hsel as [v' [Hv [Hk Hrows]]].
  subst rows. apply Forall_forall. intros result Hin.
  apply in_map_iff in Hin. destruct Hin as [rs [Hres Hin]]. subst result.
  apply in_map_iff in Hin. destruct Hin as [rd [Hrs Hin]]. subst rs. simpl.
  apply In_firstn, In_order_by_distance, in_map_iff in Hin.
  destruct Hin as [r [Hrd Hin]]. subst rd. simpl.
  apply filter_In in Hin. destruct Hin as [Hin _].
  apply filter_In in Hin. destruct Hin as [_ Hty].
  apply existsb_exists in Hty. destruct Hty as [ty [Hty Heq]].
  apply String.eqb_eq in Heq. now rewrite Heq.
Qed.

End RetrieverFurther.

(** ** Calls that start later *)

Section Later.

Variable sha256 : jsstring -> string.
Variable extname : string -> string.
Variable env : Env.

Lemma process_chunks_later (filePath fileHash : string) (fileType : FileType) :
  forall (cs : list Chunk.t) (created : Z) (w w0 : World) (pre : list (Event * Table))
         (o : Outcome Z) (w0' : World),
    table w = table w0 -> log w = pre ++ log w0 ->
    process_chunks (later (length pre) env) filePath fileHash fileType cs created w0
    = (o, w0') ->
    process_chunks env filePath fileHash fileType cs created w
    = (o, {| table := table w0'; log := pre ++ log w0' |}).
Proof.
  induction cs as [|chunk cs IH]; intros created w w0 pre o w0' Ht Hl Hrun.
  - simpl in *. unfold ret in *. inversion Hrun; subst.
    destruct w as [t l]. simpl in *. now subst.
  - simpl process_chunks in *. destruct (oversized chunk); [now apply (IH _ _ w0)|].
    unfold bind at 1 in Hrun. unfold getEmbedding, await in Hrun. simpl ollama in Hrun.
    unfold bind at 1. unfold getEmbedding, await.
    assert (Hn : length (log w) = (length pre + length (log w0))%nat)
      by (rewrite Hl; apply length_app).
    rewrite Hn.
    destruct (ollama env (length pre + length (log w0)) (Chunk.content chunk))
      as [| |[v|]].
    1, 2, 4: (unfold throw in *; inversion Hrun; subst; simpl;
              now rewrite Ht, Hl, <- app_assoc).
    unfold bind at 1 in Hrun. unfold sql in Hrun.
    simpl table in Hrun. simpl log in Hrun. simpl postgres_up in Hrun.
    unfold bind at 1. unfold sql. simpl table. simpl log.
    assert (Hn1 : length (log w ++ [(Embedding (Chunk.content chunk), table w)])
                  = (length pre
                     + length (log w0 ++ [(Embedding (Chunk.content chunk), table w0)]))%nat)
      by (rewrite !length_app, Hn; simpl; lia).
    rewrite Hn1.
    destruct (postgres_up env _).
    + simpl insert_chunk in *. cbv iota beta in *.
      eapply IH; [| |exact Hrun]; simpl; [now rewrite Ht|].
      rewrite Hl, Ht. now rewrite <- !app_assoc.
    + inversion Hrun; subst. simpl. now rewrite Ht, Hl, <- !app_assoc.
Qed.

(** A call of [syncFile] that starts after other calls runs as it would
    on the table alone, in the outside world as it is by then. *)
Lemma syncFile_later (filePath : string) (force : bool) (w : World) :
  syncFile sha256 extname env filePath force w
  = resume w (syncFile sha256 extname (later (length (log w)) env) filePath force
                (start (table w))).
Proof.
  unfold resume.
  destruct (syncFile sha256 extname (later (length (log w)) env) filePath force
              (start (table w))) as [o w'] eqn:Hrun.
  simpl fst; simpl snd.
  rewrite syncFile_cases in Hrun. simpl fs in Hrun. simpl postgres_up in Hrun.
  unfold syncFile. unfold bind at 1. unfold await at 1.
  destruct (fs env filePath) as [content|e]; [|now inversion Hrun].
  unfold bind at 1. unfold sql at 1. simpl table. simpl log.
  assert (H1 : length (log w ++ [(ReadFile filePath, table w)])
               = (length (log w) + 1)%nat) by (rewrite length_app; reflexivity).
  rewrite H1.
  destruct (postgres_up env (length (log w) + 1));
    [|inversion Hrun; subst; simpl; now rewrite <- app_assoc].
  unfold select_file_hash. cbv iota beta.
  assert (Hsame :
    match map Row.file_hash
            (firstn 1 (filter (fun r => String.eqb (Row.file_path r) filePath)
                         (table w))) with
    | stored :: _ => String.eqb stored (hashFile sha256 content)
    | [] => false
    end = unchanged sha256 filePath content (table w)).
  { unfold unchanged, stored_fingerprint, rows_of.
    destruct (filter (fun r => String.eqb (Row.file_path r) filePath) (table w));
      reflexivity. }
  rewrite Hsame.
  destruct (negb force && unchanged sha256 filePath content (table w));
    [inversion Hrun; subst; unfold ret; simpl; now rewrite <- app_assoc|].
  unfold bind at 1. unfold sql at 1. simpl table. simpl log.
  assert (H2 : length ((log w ++ [(ReadFile filePath, table w)])
                       ++ [(SelectFileHash filePath, table w)])
               = (length (log w) + 2)%nat) by (rewrite !length_app; simpl; lia).
  rewrite H2.
  destruct (postgres_up env (length (log w) + 2));
    [|inversion Hrun; subst; simpl; now rewrite <- !app_assoc].
  unfold delete_chunks. cbv iota beta.
  unfold bind at 1. unfold await at 1. simpl table. simpl log.
  unfold proceeds in Hrun.
  destruct (process_chunks (later (length (log w)) env) filePath
              (hashFile sha256 content) (getFileType extname filePath)
              (new_chunks sha256 extname filePath content) 0 (ready filePath (table w)))
    as [o1 w1] eqn:Hpc.
  unfold bind.
  erewrite (process_chunks_later _ _ _ _ _ _ (ready filePath (table w)) (log w));
    [| |
     |exact Hpc].
  - destruct o1; inversion Hrun; subst; reflexivity.
  - reflexivity.
  - simpl. now rewrite <- !app_assoc.
Qed.

End Later.

(** ** More on the per-file sync *)

Lemma Forall2_In_r {A B} (P : A -> B -> Prop) (l : list A) (l' : list B) (y : B) :
  Forall2 P l l' -> In y l' -> exists x, In x l /\ P x y.
Proof.
  induction 1 as [|x y' l l' Hxy Hrest IH]; intros Hin; [contradiction|].
  destruct Hin as [Hin|Hin].
  - subst y'. exists x. split; [now left|exact Hxy].
  - destruct (IH Hin) as [x' [Hx' Hp]]. exists x'. split; [now right|exact Hp].
Qed.

Lemma other_rows_same_path (filePath : string) (l : Table) :
  Forall (fun r => Row.file_path r = filePath) l -> other_rows filePath l = [].
Proof.
  induction 1 as [|r l Hr Hl IH]; [reflexivity|].
  unfold other_rows in *. simpl. now rewrite Hr, String.eqb_refl.
Qed.

Lemma other_rows_app (filePath : string) (l l' : Table) :
  other_rows filePath (l ++ l') = other_rows filePath l ++ other_rows filePath l'.
Proof. apply filter_app. Qed.

Lemma prompts_app (l l' : list (Event * Table)) :
  prompts (l ++ l') = prompts l ++ prompts l'.
Proof. apply flat_map_app. Qed.

Section ChunksMade.

Variable sha256 : jsstring -> string.

Lemma plain_run_made (content : jsstring) (start i : Z) (out : list Chunk.t) :
  plain_run sha256 content start i out -> Forall (made sha256) out.
Proof.
  induction 1; repeat constructor; assumption.
Qed.

Lemma chunkMarkdown_made (content : jsstring) : Forall (made sha256) (chunkMarkdown sha256 content).
Proof.
  unfold chunkMarkdown.
  assert (H : forall parts st,
             Forall (made sha256) (chunks st) ->
             Forall (made sha256) (chunks (fold_left (md_step sha256) parts st))).
  { induction parts as [|part parts IH]; intros st Hst; [exact Hst|].
    simpl. apply IH. unfold md_step.
    destruct (is_heading part); [exact Hst|].
    destruct (MAX_CHUNK_SIZE <? len (currentContent st ++ part)); [|exact Hst].
    simpl. apply Forall_app. split; [exact Hst|]. repeat constructor. }
  specialize (H (split_on_headings content) md_init (Forall_nil _)).
  destruct (trim (currentContent _)); [exact H|].
  apply Forall_app. split; [exact H|]. repeat constructor.
Qed.

Lemma chunkDocument_made (filePath : string) (content : jsstring) (fileType : FileType) :
  Forall (made sha256) (chunkDocument sha256 filePath content fileType).
Proof.
  destruct fileType; simpl; try apply chunkMarkdown_made;
    apply (plain_run_made content 0 0), chunkPlainText_run.
Qed.

End ChunksMade.

Section SyncFurther.

Variable sha256 : jsstring -> string.
Variable extname : string -> string.
Variable env : Env.

(** The requests of the loop over the chunks: one for each storable chunk
    in turn, up to the one that fails. *)
Lemma process_chunks_prompts (filePath fileHash : string) (fileType : FileType) :
  forall (cs : list Chunk.t) (created : Z) (w : World) (o : Outcome Z) (w' : World),
    process_chunks env filePath fileHash fileType cs created w = (o, w') ->
    exists k : nat,
      prompts (log w') = prompts (log w) ++ map Chunk.content (firstn k (storable cs))
      /\ match o with
         | Ok n => k = length (storable cs) /\ n = created + Z.of_nat k
         | Throw _ => (1 <= k <= length (storable cs))%nat
         end.
Proof.
  induction cs as [|chunk cs IH]; intros created w o w' Hrun.
  - inversion Hrun; subst. exists 0%nat. simpl. rewrite app_nil_r. repeat split; lia.
  - simpl process_chunks in Hrun. unfold storable. simpl filter.
    destruct (oversized chunk) eqn:Hbig; simpl negb; cbv iota; [now apply IH|].
    fold (storable cs).
    unfold bind at 1 in Hrun. unfold getEmbedding, await in Hrun.
    destruct (ollama env (length (log w)) (Chunk.content chunk)) as [| |[v|]].
    1, 2, 4: (inversion Hrun; subst; exists 1%nat; simpl; rewrite prompts_app; simpl;
              split; [reflexivity|lia]).
    unfold bind at 1 in Hrun. unfold sql in Hrun. simpl table in Hrun; simpl log in Hrun.
    destruct (postgres_up env _).
    + unfold insert_chunk in Hrun. cbv iota beta in Hrun.
      apply IH in Hrun. destruct Hrun as [k [Hp Hr]].
      exists (S k). split.
      * rewrite Hp. simpl log. rewrite !prompts_app. simpl.
        now rewrite <- !app_assoc.
      * destruct o; simpl; lia.
    + inversion Hrun; subst. exists 1%nat. simpl. rewrite !prompts_app. simpl.
      split; [now rewrite <- app_assoc|lia].
Qed.

(** X14.  [syncFile] asks for the embedding of the chunks it stores and of no
    other text, once each and in the order of the chunks: of none of them
    when it skips the file, of all of them when it returns otherwise, and
    the count it returns is the number of requests it made.  A chunk of
    more than 4000 characters is never sent. *)
Theorem syncFile_requests (filePath : string) (force : bool) (t : Table) :
  match fs env filePath with
  | Ok content =>
      exists k : nat,
        prompts (log (snd (syncFile sha256 extname env filePath force (start t))))
        = map Chunk.content
            (firstn k (storable (new_chunks sha256 extname filePath content)))
        /\ Forall (fun prompt => len prompt <= 4000)
             (prompts (log (snd (syncFile sha256 extname env filePath force (start t)))))
        /\ match fst (syncFile sha256 extname env filePath force (start t)) with
           | Ok result =>
               if FileResult.skipped result then k = 0%nat
               else k = length (storable (new_chunks sha256 extname filePath content))
                    /\ FileResult.chunks result = Z.of_nat k
           | Throw _ => True
           end
  | Throw _ =>
      prompts (log (snd (syncFile sha256 extname env filePath force (start t)))) = []
  end.
Proof.
  rewrite syncFile_cases.
  destruct (fs env filePath) as [content|e]; [|reflexivity].
  assert (Hsmall : forall k,
             Forall (fun prompt => len prompt <= 4000)
               (map Chunk.content
                  (firstn k (storable (new_chunks sha256 extname filePath content))))).
  { intros k. apply Forall_forall. intros prompt Hin. apply in_map_iff in Hin.
    destruct Hin as [c [Hc Hin]]. subst prompt.
    apply In_firstn in Hin. unfold storable in Hin. apply filter_In in Hin.
    destruct Hin as [_ Hbig]. unfold oversized in Hbig.
    destruct (Z.ltb_spec 4000 (len (Chunk.content c))); [discriminate|lia]. }
  destruct (postgres_up env 1); [|exists 0%nat; repeat split; constructor].
  destruct (negb force && unchanged sha256 filePath content t);
    [exists 0%nat; repeat split; constructor|].
  destruct (postgres_up env 2); [|exists 0%nat; repeat split; constructor].
  unfold proceeds.
  destruct (process_chunks env filePath (hashFile sha256 content)
              (getFileType extname filePath)
              (new_chunks sha256 extname filePath content) 0 (ready filePath t))
    as [o w'] eqn:Hrun.
  apply process_chunks_prompts in Hrun. destruct Hrun as [k [Hp Hr]].
  exists k. simpl in Hp.
  destruct o as [created|e]; simpl; rewrite Hp;
    (split; [reflexivity|]); (split; [apply Hsmall|]); [|exact I].
  destruct Hr as [Hk Hc]. split; [exact Hk|lia].
Qed.

(** X15.  [syncFile] leaves the rows of every other path as they are, in the
    table it ends with and in every table a reader can see during the
    run, whether it returns or raises. *)
Theorem syncFile_other_paths (filePath : string) (force : bool) (t : Table) :
  other_rows filePath (table (snd (syncFile sha256 extname env filePath force (start t))))
  = other_rows filePath t
  /\ Forall (fun s => other_rows filePath (snd s) = other_rows filePath t)
       (log (snd (syncFile sha256 extname env filePath force (start t)))).
Proof.
  rewrite syncFile_cases.
  destruct (fs env filePath) as [content|e];
    [|split; [reflexivity|repeat constructor]].
  destruct (postgres_up env 1); [|split; [reflexivity|repeat constructor]].
  destruct (negb force && unchanged sha256 filePath content t);
    [split; [reflexivity|repeat constructor]|].
  destruct (postgres_up env 2); [|split; [reflexivity|repeat constructor]].
  destruct (proceeds_run sha256 extname env filePath content t)
    as [k [rows [ext [Hrows [Htab [Hlog [Hext _]]]]]]].
  rewrite Htab, Hlog.
  pose proof (rows_for_same_path _ _ _ _ _ Hrows) as Hpath.
  assert (Hpre : forall j,
             other_rows filePath (other_rows filePath t ++ firstn j rows)
             = other_rows filePath t).
  { intros j. rewrite other_rows_app, other_rows_idem.
    rewrite (other_rows_same_path filePath (firstn j rows)); [apply app_nil_r|].
    apply Forall_forall. intros r Hr. apply In_firstn in Hr.
    rewrite Forall_forall in Hpath. now apply Hpath. }
  split.
  - rewrite <- (firstn_all rows). apply Hpre.
  - apply Forall_app. split.
    + simpl. repeat constructor; simpl; apply other_rows_idem.
    + eapply Forall_impl; [|exact Hext].
      intros [ev s] [j Hj]. simpl in *. subst s. apply Hpre.
Qed.

(** X16.  Every row in the table after [syncFile] was there before, or is a row
    of the path as the write path makes it: the chunk digest is the
    digest of the content, the token count a quarter of its length rounded
    down, the content is no longer than 4000 characters, the label is not
    the empty string, and language and file type go together. *)
Theorem syncFile_rows_well_formed (filePath : string) (force : bool) (t : Table) :
  Forall (fun r => In r t
                   \/ (Row.file_path r = filePath /\ well_formed_row sha256 r))
    (table (snd (syncFile sha256 extname env filePath force (start t)))).
Proof.
  assert (Hold : Forall (fun r => In r t
                   \/ (Row.file_path r = filePath /\ well_formed_row sha256 r)) t)
    by (apply Forall_forall; intros r Hr; now left).
  rewrite syncFile_cases.
  destruct (fs env filePath) as [content|e]; [|exact Hold].
  destruct (postgres_up env 1); [|exact Hold].
  destruct (negb force && unchanged sha256 filePath content t); [exact Hold|].
  destruct (postgres_up env 2); [|exact Hold].
  destruct (proceeds_run sha256 extname env filePath content t)
    as [k [rows [ext [Hrows [Htab _]]]]].
  rewrite Htab. apply Forall_app. split.
  - apply Forall_forall. intros r Hr. left.
    unfold other_rows in Hr. apply filter_In in Hr. tauto.
  - apply Forall_forall. intros r Hr. right.
    destruct (Forall2_In_r _ _ _ _ Hrows Hr) as [c [Hc [v Hrow]]].
    apply In_firstn in Hc. unfold storable in Hc. apply filter_In in Hc.
    destruct Hc as [Hc Hbig].
    pose proof (chunkDocument_made sha256 filePath content
                  (getFileType extname filePath)) as Hmade.
    pose proof (numbered_from_lower _ _
                  (chunkDocument_numbered sha256 filePath content
                     (getFileType extname filePath))) as Hidx.
    rewrite Forall_forall in Hmade, Hidx.
    destruct (Hmade c Hc) as [Hhash Htok]. specialize (Hidx c Hc).
    subst r. split; [reflexivity|]. unfold well_formed_row. simpl.
    split; [exact Hhash|]. split; [exact Htok|]. split.
    { unfold oversized in Hbig.
      destruct (Z.ltb_spec 4000 (len (Chunk.content c))); [discriminate|lia]. }
    split; [exact Hidx|]. split.
    { destruct (Chunk.section c) as [[|x s]|]; simpl; discriminate. }
    destruct (getFileType extname filePath); simpl; auto.
Qed.

(** X17.  A run that fails after it has written a row -- the database
    answered its lookup and its deletion -- leaves the path with fewer rows
    than the file has chunks to store, every one with the digest of the
    content it read.  The next sync of the same content without force writes
    nothing: it is skipped when the database answers the lookup and raises
    when it does not, so the rows that are missing are not written until
    the file changes or a sync is forced. *)
Theorem syncFile_partial_then_skipped (filePath : string) (force : bool)
    (content : jsstring) (t : Table) (e : Exn) (env' : Env) :
  fs env filePath = Ok content ->
  postgres_up env 1 = true ->
  postgres_up env 2 = true ->
  fst (syncFile sha256 extname env filePath force (start t)) = Throw e ->
  rows_of filePath (table (snd (syncFile sha256 extname env filePath force (start t))))
  <> [] ->
  fs env' filePath = Ok content ->
  (length (rows_of filePath
             (table (snd (syncFile sha256 extname env filePath force (start t)))))
   < length (storable (new_chunks sha256 extname filePath content)))%nat
  /\ Forall (fun r => Row.file_hash r = hashFile sha256 content)
       (rows_of filePath
          (table (snd (syncFile sha256 extname env filePath force (start t)))))
  /\ fst (syncFile sha256 extname env' filePath false
            (start (table (snd (syncFile sha256 extname env filePath force (start t))))))
     = (if postgres_up env' 1 then Ok skip_result else Throw DatabaseError)
  /\ table (snd (syncFile sha256 extname env' filePath false
                   (start (table (snd (syncFile sha256 extname env filePath force
                                         (start t)))))))
     = table (snd (syncFile sha256 extname env filePath force (start t))).
Proof.
  intros Hfs Hup1 Hup2.
  rewrite syncFile_cases, Hfs, Hup1, Hup2.
  destruct (negb force && unchanged sha256 filePath content t); [discriminate|].
  intros Hthrow Hrows Hfs'.
  destruct (proceeds_run sha256 extname env filePath content t)
    as [k [rows [ext [Hfor [Htab [_ [_ Hres]]]]]]].
  rewrite Hthrow in Hres.
  set (t1 := table (snd (proceeds sha256 extname env filePath content t))) in *.
  destruct (replaced_table _ _ _ _ _ t Hfor) as [Hmine _].
  rewrite <- Htab in Hmine.
  destruct (rows_for_path _ _ _ _ _ Hfor) as [_ [_ [_ [Hhash Hlen]]]].
  rewrite Hmine in *.
  destruct rows as [|r rest]; [contradiction|].
  split; [rewrite Hlen, length_firstn; lia|].
  split; [exact Hhash|].
  inversion Hhash; subst.
  destruct (postgres_up env' 1) eqn:Hup'.
  - rewrite (syncFile_skips sha256 extname env' filePath content t1 r rest
               Hfs' Hup' Hmine); [split; reflexivity|assumption].
  - apply (syncFile_lookup_refused sha256 extname env' filePath false content t1
             Hfs' Hup').
Qed.

End SyncFurther.

(** ** The batch sync *)

Lemma rows_of_foreign (filePath other : string) (rows : Table) :
  Forall (fun r => Row.file_path r = filePath) rows -> other <> filePath ->
  rows_of other rows = [].
Proof.
  intros Hrows Hne. induction Hrows as [|r rows Hr Hrows IH]; [reflexivity|].
  unfold rows_of in *. simpl. rewrite Hr.
  destruct (String.eqb_spec filePath other); [congruence|exact IH].
Qed.

Lemma rows_of_other_path (filePath other : string) (t : Table) :
  other <> filePath -> rows_of other (other_rows filePath t) = rows_of other t.
Proof.
  intros Hne. induction t as [|r t IH]; [reflexivity|].
  unfold rows_of, other_rows in *. simpl.
  destruct (String.eqb_spec (Row.file_path r) filePath) as [Heq|Hneq]; simpl.
  - rewrite IH. destruct (String.eqb_spec (Row.file_path r) other); [congruence|reflexivity].
  - now rewrite IH.
Qed.

Section BatchProperties.

Variable sha256 : jsstring -> string.
Variable extname : string -> string.
Variable env : Env.

(** What one call of [syncFile] adds to the log and makes of the table,
    wherever it starts. *)
Lemma syncFile_anywhere (filePath : string) (force : bool) (w : World) :
  exists (n : nat) (ext : list (Event * Table)),
    log (snd (syncFile sha256 extname env filePath force w)) = log w ++ ext
    /\ length (prompts ext) = n
    /\ match fst (syncFile sha256 extname env filePath force w) with
       | Ok result =>
           FileResult.chunks result = Z.of_nat n
           /\ (FileResult.skipped result = true -> n = 0%nat)
       | Throw _ => True
       end
    /\ (table (snd (syncFile sha256 extname env filePath force w)) = table w
        \/ exists rows,
             Forall (fun r => Row.file_path r = filePath) rows
             /\ table (snd (syncFile sha256 extname env filePath force w))
                = other_rows filePath (table w) ++ rows).
Proof.
  rewrite syncFile_later. unfold resume. simpl fst; simpl snd; simpl log; simpl table.
  set (env' := later (length (log w)) env).
  rewrite syncFile_cases.
  destruct (fs env' filePath) as [content|e];
    [|exists 0%nat; eexists; repeat split; auto].
  destruct (postgres_up env' 1); [|exists 0%nat; eexists; repeat split; auto].
  destruct (negb force && unchanged sha256 filePath content (table w));
    [exists 0%nat; eexists; repeat split; auto|].
  destruct (postgres_up env' 2); [|exists 0%nat; eexists; repeat split; auto].
  unfold proceeds.
  destruct (process_chunks env' filePath (hashFile sha256 content)
              (getFileType extname filePath)
              (new_chunks sha256 extname filePath content) 0 (ready filePath (table w)))
    as [o w'] eqn:Hrun.
  pose proof (process_chunks_prompts env' _ _ _ _ _ _ _ _ Hrun) as [k [Hp Hk]].
  apply process_chunks_run in Hrun.
  destruct Hrun as [j [rows [ext [Hrows [Ht [Hl _]]]]]].
  simpl in Hp, Ht, Hl.
  exists (length (map Chunk.content
                    (firstn k (storable (new_chunks sha256 extname filePath content))))).
  exists (log w').
  assert (Hw : table w' = other_rows filePath (table w) ++ rows) by exact Ht.
  destruct o as [created|e]; simpl; (split; [reflexivity|]);
    (split; [now rewrite Hp|]); (split; [|right; exists rows; split;
      [exact (rows_for_same_path _ _ _ _ _ Hrows)|exact Hw]]); [|exact I].
  destruct Hk as [Hk Hc]. split; [|discriminate].
  rewrite length_map, length_firstn, Hk. lia.
Qed.

(** The loop of [syncFiles] from any result object on. *)
Lemma sync_each_run (filePaths : list string) (force : bool) :
  forall (result0 : SyncResult.t) (w : World),
    exists (result : SyncResult.t) (done : list string)
           (failed : list (string * Exn)) (ext : list (Event * Table)),
      fst (sync_each sha256 extname env filePaths force result0 w) = Ok result
      /\ log (snd (sync_each sha256 extname env filePaths force result0 w)) = log w ++ ext
      /\ SyncResult.files result = SyncResult.files result0 ++ done
      /\ SyncResult.errors result = SyncResult.errors result0 ++ failed
      /\ SyncResult.filesProcessed result
         = SyncResult.filesProcessed result0 + Z.of_nat (length done)
      /\ SyncResult.chunksUpdated result = SyncResult.chunksUpdated result0
      /\ Z.of_nat (length done)
         + (SyncResult.chunksSkipped result - SyncResult.chunksSkipped result0)
         + Z.of_nat (length failed)
         = Z.of_nat (length filePaths)
      /\ SyncResult.chunksSkipped result0 <= SyncResult.chunksSkipped result
      /\ incl done filePaths
      /\ incl (map fst failed) filePaths
      /\ SyncResult.chunksCreated result0 <= SyncResult.chunksCreated result
      /\ SyncResult.chunksCreated result - SyncResult.chunksCreated result0
         <= Z.of_nat (length (prompts ext))
      /\ (failed = [] ->
          SyncResult.chunksCreated result - SyncResult.chunksCreated result0
          = Z.of_nat (length (prompts ext))).
Proof.
  induction filePaths as [|filePath rest IH]; intros result0 w.
  - exists result0, [], [], []. simpl. rewrite !app_nil_r.
    repeat split; try lia; try apply incl_nil_l; reflexivity.
  - simpl sync_each. unfold bind at 1 2. unfold sync_next, try_catch, bind at 1 2.
    destruct (syncFile_anywhere filePath force w) as [n [ext1 [Hl1 [Hn [Hres _]]]]].
    destruct (syncFile sha256 extname env filePath force w) as [[fileResult|e] w1];
      simpl in Hl1, Hres.
    + destruct Hres as [Hchunks Hskip].
      destruct (FileResult.skipped fileResult) eqn:Hskipped; unfold ret at 1 2.
      * specialize (Hskip eq_refl). rewrite Hskip in Hn, Hchunks. clear Hskip.
        match goal with
        | |- context [sync_each sha256 extname env rest force ?r w1] =>
            destruct (IH r w1)
              as [result [done [failed [ext [Hok [Hl [Hf [He [Hp [Hu [Hc [Hs [Hd
                 [Hfl [Hm [Hle Heq]]]]]]]]]]]]]]]]
        end.
        simpl in *.
        exists result, done, failed, (ext1 ++ ext).
        rewrite Hl, Hl1, <- app_assoc, prompts_app, length_app, Hn.
        repeat split; auto; try lia; try (now apply incl_tl);
          try (intros p [Hin|Hin]; [now left|right; auto]);
          try (intros Hnone; specialize (Heq Hnone); lia); try discriminate.
      * match goal with
        | |- context [sync_each sha256 extname env rest force ?r w1] =>
            destruct (IH r w1)
              as [result [done [failed [ext [Hok [Hl [Hf [He [Hp [Hu [Hc [Hs [Hd
                 [Hfl [Hm [Hle Heq]]]]]]]]]]]]]]]]
        end.
        simpl in *.
        exists result, (filePath :: done), failed, (ext1 ++ ext).
        rewrite Hl, Hl1, <- !app_assoc, prompts_app, length_app, Hn, Hf.
        simpl length. rewrite <- app_assoc.
        repeat split; auto; try lia; try (now apply incl_tl);
          try (intros p [Hin|Hin]; [now left|right; auto]);
          try (intros Hnone; specialize (Heq Hnone); lia); try discriminate.
    + unfold ret at 1 2.
      match goal with
      | |- context [sync_each sha256 extname env rest force ?r w1] =>
          destruct (IH r w1)
            as [result [done [failed [ext [Hok [Hl [Hf [He [Hp [Hu [Hc [Hs [Hd
               [Hfl [Hm [Hle Heq]]]]]]]]]]]]]]]]
      end.
      simpl in *.
      exists result, done, ((filePath, e) :: failed), (ext1 ++ ext).
      rewrite Hl, Hl1, <- !app_assoc, prompts_app, length_app, He.
      simpl length. rewrite <- app_assoc.
      repeat split; auto; try lia; try (now apply incl_tl);
          try (intros p [Hin|Hin]; [now left|right; auto]);
          try (intros Hnone; specialize (Heq Hnone); lia); try discriminate.
Qed.

(** The loop of [syncFiles] adds to the result object what the calls of
    [syncFile] give, call by call. *)
Lemma sync_each_file_runs (filePaths : list string) (force : bool) :
  forall (result0 : SyncResult.t) (w : World),
    sync_each sha256 extname env filePaths force result0 w
    = (Ok {| SyncResult.filesProcessed :=
               SyncResult.filesProcessed result0
               + Z.of_nat (length (processed
                                     (fst (file_runs sha256 extname env filePaths
                                             force w))));
             SyncResult.chunksCreated :=
               SyncResult.chunksCreated result0
               + chunks_reported (processed
                                    (fst (file_runs sha256 extname env filePaths
                                            force w)));
             SyncResult.chunksUpdated := SyncResult.chunksUpdated result0;
             SyncResult.chunksSkipped :=
               SyncResult.chunksSkipped result0
               + Z.of_nat (length (passed_over
                                     (fst (file_runs sha256 extname env filePaths
                                             force w))));
             SyncResult.files :=
               SyncResult.files result0
               ++ map fst (processed (fst (file_runs sha256 extname env filePaths
                                             force w)));
             SyncResult.errors :=
               SyncResult.errors result0
               ++ failures (fst (file_runs sha256 extname env filePaths force w)) |},
       snd (file_runs sha256 extname env filePaths force w)).
Proof.
  induction filePaths as [|filePath rest IH]; intros result0 w.
  - simpl. unfold ret, chunks_reported. simpl. rewrite !Z.add_0_r, !app_nil_r.
    now destruct result0.
  - simpl sync_each. simpl file_runs. unfold bind at 1.
    unfold sync_next, try_catch, bind at 1.
    destruct (syncFile sha256 extname env filePath force w) as [[fileResult|e] w1].
    + destruct (FileResult.skipped fileResult) eqn:Hskipped; unfold ret at 1;
        rewrite IH; cbn [fst snd processed passed_over failures
                         SyncResult.filesProcessed SyncResult.chunksCreated
                         SyncResult.chunksUpdated SyncResult.chunksSkipped
                         SyncResult.files SyncResult.errors];
        rewrite Hskipped; f_equal; f_equal.
      * f_equal. simpl length. lia.
      * unfold chunks_reported. simpl. rewrite <- app_assoc.
        f_equal; simpl length; try lia.
    + unfold ret at 1. rewrite IH.
      cbn [fst snd processed passed_over failures
           SyncResult.filesProcessed SyncResult.chunksCreated
           SyncResult.chunksUpdated SyncResult.chunksSkipped
           SyncResult.files SyncResult.errors].
      rewrite <- app_assoc. reflexivity.
Qed.

Lemma file_runs_paths (filePaths : list string) (force : bool) :
  forall w : World,
    map fst (fst (file_runs sha256 extname env filePaths force w)) = filePaths.
Proof.
  induction filePaths as [|filePath rest IH]; intros w; [reflexivity|].
  simpl. now rewrite IH.
Qed.

Lemma failures_In (runs : list (string * Outcome FileResult.t)) (filePath : string)
    (e : Exn) :
  In (filePath, e) (failures runs) <-> In (filePath, Throw e) runs.
Proof.
  induction runs as [|[p [r|e']] rest IH]; simpl; [tauto| |].
  - rewrite IH. split; [now right|]. intros [H|H]; [discriminate|exact H].
  - rewrite IH. split; (intros [H|H]; [left; congruence|now right]).
Qed.

Lemma processed_In (runs : list (string * Outcome FileResult.t)) (filePath : string)
    (fileResult : FileResult.t) :
  In (filePath, fileResult) (processed runs)
  <-> In (filePath, Ok fileResult) runs /\ FileResult.skipped fileResult = false.
Proof.
  induction runs as [|[p [r|e']] rest IH]; simpl; [tauto| |].
  - destruct (FileResult.skipped r) eqn:Hr; simpl; rewrite IH.
    + split; [tauto|]. intros [[H|H] Hs]; [|tauto]. congruence.
    + split.
      * intros [H|H]; [|tauto]. inversion H; subst. tauto.
      * intros [[H|H] Hs]; [left; congruence|tauto].
  - rewrite IH. split; [tauto|]. intros [[H|H] Hs]; [discriminate|tauto].
Qed.

(** X18.  [syncFiles] always returns, after one call of [syncFile] for each
    path of the list, in order, each from the world the call before left.
    A call that throws is recorded in [errors] with its path and what was
    thrown, and the calls after it are still made; [files] lists the paths
    whose call returned and was not skipped, [filesProcessed] counts them and
    [chunksCreated] adds up the chunks they report; [chunksSkipped] counts
    the calls that returned as skipped; [chunksUpdated] stays 0.  So every
    path is counted once, as processed, as skipped or as failed, and
    [chunksCreated] is at most the number of embedding requests of the
    batch, and equal to it when no file failed. *)
Theorem syncFiles_accounts (filePaths : list string) (force : bool) (w : World) :
  exists (result : SyncResult.t) (ext : list (Event * Table)),
    syncFiles sha256 extname env filePaths force w
    = (Ok result, snd (file_runs sha256 extname env filePaths force w))
    /\ map fst (fst (file_runs sha256 extname env filePaths force w)) = filePaths
    /\ SyncResult.files result
       = map fst (processed (fst (file_runs sha256 extname env filePaths force w)))
    /\ SyncResult.errors result
       = failures (fst (file_runs sha256 extname env filePaths force w))
    /\ SyncResult.filesProcessed result
       = Z.of_nat (length (processed
                             (fst (file_runs sha256 extname env filePaths force w))))
    /\ SyncResult.chunksCreated result
       = chunks_reported (processed
                            (fst (file_runs sha256 extname env filePaths force w)))
    /\ SyncResult.chunksSkipped result
       = Z.of_nat (length (passed_over
                             (fst (file_runs sha256 extname env filePaths force w))))
    /\ (forall filePath e,
          In (filePath, e) (SyncResult.errors result)
          <-> In (filePath, Throw e)
                (fst (file_runs sha256 extname env filePaths force w)))
    /\ (forall filePath,
          In filePath (SyncResult.files result)
          <-> exists fileResult,
                In (filePath, Ok fileResult)
                  (fst (file_runs sha256 extname env filePaths force w))
                /\ FileResult.skipped fileResult = false)
    /\ log (snd (syncFiles sha256 extname env filePaths force w)) = log w ++ ext
    /\ SyncResult.filesProcessed result + SyncResult.chunksSkipped result
       + Z.of_nat (length (SyncResult.errors result))
       = Z.of_nat (length filePaths)
    /\ SyncResult.filesProcessed result = Z.of_nat (length (SyncResult.files result))
    /\ 0 <= SyncResult.chunksSkipped result
    /\ SyncResult.chunksUpdated result = 0
    /\ incl (SyncResult.files result) filePaths
    /\ incl (map fst (SyncResult.errors result)) filePaths
    /\ 0 <= SyncResult.chunksCreated result <= Z.of_nat (length (prompts ext))
    /\ (SyncResult.errors result = [] ->
        SyncResult.chunksCreated result = Z.of_nat (length (prompts ext))).
Proof.
  unfold syncFiles.
  match goal with
  | |- context [sync_each sha256 extname env filePaths force ?r w] =>
      destruct (sync_each_run filePaths force r w)
        as [result [done [failed [ext [Hok [Hl [Hf [He [Hp [Hu [Hc [Hs [Hd
           [Hfl [Hm [Hle Heq]]]]]]]]]]]]]]]];
      pose proof (sync_each_file_runs filePaths force r w) as Hruns
  end.
  rewrite Hruns in Hok. simpl in Hok. injection Hok as Hresult.
  rewrite Hruns in Hl. simpl in Hl.
  simpl in Hf, He, Hp, Hu, Hc, Hs, Hm, Hle, Heq.
  exists result, ext. rewrite Hruns. cbn [fst snd].
  split; [simpl; now rewrite Hresult|].
  split; [apply file_runs_paths|].
  assert (Hfiles : SyncResult.files result
                   = map fst (processed
                                (fst (file_runs sha256 extname env filePaths force w))))
    by (now rewrite <- Hresult).
  assert (Herrors : SyncResult.errors result
                    = failures (fst (file_runs sha256 extname env filePaths force w)))
    by (now rewrite <- Hresult).
  split; [exact Hfiles|]. split; [exact Herrors|].
  split; [now rewrite <- Hresult|].
  split; [now rewrite <- Hresult|].
  split; [now rewrite <- Hresult|].
  split.
  { intros filePath e. rewrite Herrors. apply failures_In. }
  split.
  { intros filePath. rewrite Hfiles, in_map_iff. split.
    - intros [[p fileResult] [Hfst Hin]]. simpl in Hfst. subst p.
      exists fileResult. now apply processed_In.
    - intros [fileResult Hin]. exists (filePath, fileResult).
      split; [reflexivity|]. now apply processed_In. }
  split; [exact Hl|].
  rewrite Hf, He.
  repeat split; auto; try lia.
  intros Hnone. specialize (Heq Hnone). lia.
Qed.

(** X19.  A batch over files the table is up to date with, without force and
    with the database answering, skips them all: it reads each file and
    its fingerprint, asks for no embedding and leaves the table as it
    is. *)
Theorem syncFiles_up_to_date (filePaths : list string) (w : World) :
  Forall (up_to_date sha256 env (table w)) filePaths ->
  (forall n, postgres_up env n = true) ->
  syncFiles sha256 extname env filePaths false w
  = (Ok {| SyncResult.filesProcessed := 0;
           SyncResult.chunksCreated := 0;
           SyncResult.chunksUpdated := 0;
           SyncResult.chunksSkipped := Z.of_nat (length filePaths);
           SyncResult.files := [];
           SyncResult.errors := [] |},
     {| table := table w;
        log := log w ++ flat_map (skip_reads (table w)) filePaths |}).
Proof.
  intros Hall Hup. unfold syncFiles.
  assert (H : forall (skipped : Z) (w : World),
             Forall (up_to_date sha256 env (table w)) filePaths ->
             sync_each sha256 extname env filePaths false
               {| SyncResult.filesProcessed := 0;
                  SyncResult.chunksCreated := 0;
                  SyncResult.chunksUpdated := 0;
                  SyncResult.chunksSkipped := skipped;
                  SyncResult.files := [];
                  SyncResult.errors := [] |} w
             = (Ok {| SyncResult.filesProcessed := 0;
                      SyncResult.chunksCreated := 0;
                      SyncResult.chunksUpdated := 0;
                      SyncResult.chunksSkipped := skipped + Z.of_nat (length filePaths);
                      SyncResult.files := [];
                      SyncResult.errors := [] |},
                {| table := table w;
                   log := log w ++ flat_map (skip_reads (table w)) filePaths |})).
  { clear Hall w. induction filePaths as [|filePath rest IH]; intros skipped w Hall.
    - simpl. unfold ret. rewrite app_nil_r, Z.add_0_r. now destruct w.
    - inversion Hall as [|? ? [content [Hfs Hfp]] Hrest]; subst.
      replace (Z.of_nat (length (filePath :: rest)))
        with (1 + Z.of_nat (length rest)) by (simpl length; lia).
      rewrite Z.add_assoc.
      simpl sync_each. unfold bind at 1. unfold sync_next, try_catch, bind at 1.
      rewrite syncFile_later. unfold resume.
      unfold stored_fingerprint in Hfp.
      destruct (rows_of filePath (table w)) as [|r rows] eqn:Hrows; [discriminate|].
      inversion Hfp as [Hhash].
      rewrite (syncFile_skips sha256 extname (later (length (log w)) env) filePath
                 content (table w) r rows Hfs (Hup _) Hrows Hhash).
      simpl. unfold ret.
      rewrite (IH (skipped + 1)); simpl; [|exact Hrest].
      now rewrite <- app_assoc. }
  apply (H 0 w Hall).
Qed.

(** X20.  The batch keeps the table in order: if no two rows share a path and a
    chunk index before it, none do after it; if the rows of each path
    carry one file hash before it, they do after it; and the rows of the
    paths that are not in the batch stay as they are. *)
Theorem syncFiles_keeps_table (filePaths : list string) (force : bool) (w : World) :
  (unique_keys (table w) ->
   unique_keys (table (snd (syncFiles sha256 extname env filePaths force w))))
  /\ (one_fingerprint (table w) ->
      one_fingerprint (table (snd (syncFiles sha256 extname env filePaths force w))))
  /\ (forall filePath,
        ~ In filePath filePaths ->
        rows_of filePath (table (snd (syncFiles sha256 extname env filePaths force w)))
        = rows_of filePath (table w)).
Proof.
  unfold syncFiles.
  generalize {| SyncResult.filesProcessed := 0;
                SyncResult.chunksCreated := 0;
                SyncResult.chunksUpdated := 0;
                SyncResult.chunksSkipped := 0;
                SyncResult.files := [];
                SyncResult.errors := [] |}.
  revert w. induction filePaths as [|filePath rest IH]; intros w result0.
  - simpl. repeat split; auto.
  - assert (Hstep : exists result1,
               sync_each sha256 extname env (filePath :: rest) force result0 w
               = sync_each sha256 extname env rest force result1
                   (snd (syncFile sha256 extname env filePath force w))).
    { simpl sync_each. unfold bind at 1. unfold sync_next, try_catch, bind at 1.
      destruct (syncFile sha256 extname env filePath force w) as [[fileResult|e] w1].
      - destruct (FileResult.skipped fileResult); unfold ret at 1; eexists; reflexivity.
      - unfold ret at 1. eexists. reflexivity. }
    destruct Hstep as [result1 Hstep]. rewrite Hstep.
    destruct (IH (snd (syncFile sha256 extname env filePath force w)) result1)
      as [Hu [Ho Hf]].
    assert (Htab : table (snd (syncFile sha256 extname env filePath force w))
                   = table (snd (syncFile sha256 extname (later (length (log w)) env)
                                   filePath force (start (table w)))))
      by (rewrite syncFile_later; reflexivity).
    split; [|split].
    + intros Hw. apply Hu. rewrite Htab. now apply syncFile_unique_keys.
    + intros Hw. apply Ho. rewrite Htab. now apply syncFile_one_fingerprint.
    + intros p Hp. rewrite Hf by (intros Hin; apply Hp; now right).
      assert (Hne : p <> filePath) by (intros Heq; apply Hp; now left).
      destruct (syncFile_anywhere filePath force w) as [n [ext [_ [_ [_ Hcase]]]]].
      destruct Hcase as [Hsame|[rows [Hrows Hnew]]]; [now rewrite Hsame|].
      rewrite Hnew. unfold rows_of. rewrite filter_app. fold (rows_of p rows).
      fold (rows_of p (other_rows filePath (table w))).
      rewrite (rows_of_foreign filePath p rows Hrows Hne), app_nil_r.
      now apply rows_of_other_path.
Qed.

End BatchProperties.

(** ** The ignore file *)

Lemma split_lines_from_no_lf (rest : jsstring) :
  forall cur : jsstring,
    ~ In 10%N cur -> Forall (fun line => ~ In 10%N line) (split_lines_from cur rest).
Proof.
  induction rest as [|c rest IH]; intros cur Hcur; simpl.
  - now constructor.
  - destruct (N.eqb_spec c 10).
    + constructor; [exact Hcur|]. apply IH. intros [].
    + apply IH. intros Hin. apply in_app_or in Hin.
      destruct Hin as [Hin|[Hin|[]]]; [now apply Hcur|]. now apply n.
Qed.

Lemma In_drop_while (p : code_unit -> bool) (s : jsstring) (c : code_unit) :
  In c (drop_while p s) -> In c s.
Proof.
  induction s as [|d s IH]; simpl; [tauto|].
  destruct (p d); [intros H; right; now apply IH|intros H; exact H].
Qed.

Lemma In_trim (s : jsstring) (c : code_unit) : In c (trim s) -> In c s.
Proof.
  unfold trim, trimEnd, trimStart. intros H.
  apply in_rev, In_drop_while, in_rev, In_drop_while in H. exact H.
Qed.

Lemma split_lines_from_app (line : jsstring) :
  forall cur tail : jsstring,
    ~ In 10%N line ->
    split_lines_from cur (line ++ tail) = split_lines_from (cur ++ line) tail.
Proof.
  induction line as [|c line IH]; intros cur tail Hline; simpl.
  - now rewrite app_nil_r.
  - destruct (N.eqb_spec c 10) as [Hc|Hc]; [exfalso; apply Hline; now left|].
    rewrite IH by (intros Hin; apply Hline; now right).
    now rewrite <- app_assoc.
Qed.

Lemma split_lines_join (lines : list jsstring) :
  forall (cur line : jsstring),
    Forall (fun l => ~ In 10%N l) (line :: lines) ->
    split_lines_from cur (join_lines (line :: lines)) = (cur ++ line) :: lines.
Proof.
  induction lines as [|next lines IH]; intros cur line Hall.
  - simpl. inversion Hall; subst.
    rewrite <- (app_nil_r line) at 1. rewrite split_lines_from_app by assumption.
    reflexivity.
  - inversion Hall as [|? ? Hline Hrest]; subst.
    change (join_lines (line :: next :: lines))
      with (line ++ [10%N] ++ join_lines (next :: lines)).
    rewrite split_lines_from_app by assumption.
    change ([10%N] ++ join_lines (next :: lines))
      with (10%N :: join_lines (next :: lines)).
    change (split_lines_from (cur ++ line) (10%N :: join_lines (next :: lines)))
      with ((cur ++ line) :: split_lines_from [] (join_lines (next :: lines))).
    rewrite (IH [] next Hrest). reflexivity.
Qed.

Lemma filter_all {A} (f : A -> bool) (l : list A) :
  Forall (fun x => f x = true) l -> filter f l = l.
Proof.
  induction 1 as [|x l Hx Hl IH]; simpl; [reflexivity|]. now rewrite Hx, IH.
Qed.

Lemma map_fixed {A} (f : A -> A) (l : list A) :
  Forall (fun x => f x = x) l -> map f l = l.
Proof.
  induction 1 as [|x l Hx Hl IH]; simpl; [reflexivity|]. now rewrite Hx, IH.
Qed.

Lemma parseIgnoreFile_kept (content : jsstring) :
  Forall (fun pattern =>
            is_pattern pattern = true /\ trim pattern = pattern /\ ~ In 10%N pattern)
    (parseIgnoreFile content).
Proof.
  apply Forall_forall. intros pattern Hin.
  unfold parseIgnoreFile in Hin. apply filter_In in Hin. destruct Hin as [Hin Hkeep].
  apply in_map_iff in Hin. destruct Hin as [line [Hline Hin]]. subst pattern.
  split; [exact Hkeep|]. split; [apply trim_idem|].
  intros Hlf. apply In_trim in Hlf.
  pose proof (split_lines_from_no_lf content [] (fun H => H)) as Hall.
  rewrite Forall_forall in Hall. exact (Hall line Hin Hlf).
Qed.

(** X21.  A pattern read from the ignore file is not empty, has no white space
    at either end and no line feed inside, and starts with neither [#]
    nor [!]: comments, blank lines and negations are dropped. *)
Theorem parseIgnoreFile_patterns (content : jsstring) :
  Forall (fun pattern =>
            pattern <> []
            /\ trimmed pattern
            /\ ~ In 10%N pattern
            /\ starts_with 35%N pattern = false
            /\ starts_with 33%N pattern = false)
    (parseIgnoreFile content).
Proof.
  eapply Forall_impl; [|apply parseIgnoreFile_kept].
  intros pattern [Hkeep [Htrim Hlf]]. unfold is_pattern in Hkeep.
  apply andb_prop in Hkeep. destruct Hkeep as [Hkeep Hbang].
  apply andb_prop in Hkeep. destruct Hkeep as [Hlen Hhash].
  split; [|split; [|split; [|split]]]; auto.
  - intros Hnil. rewrite Hnil in Hlen. discriminate.
  - now apply negb_true_iff in Hhash.
  - now apply negb_true_iff in Hbang.
Qed.

(** X22.  The patterns written back one per line read as the same patterns. *)
Theorem parseIgnoreFile_round_trip (content : jsstring) :
  parseIgnoreFile (join_lines (parseIgnoreFile content)) = parseIgnoreFile content.
Proof.
  pose proof (parseIgnoreFile_kept content) as Hkept.
  destruct (parseIgnoreFile content) as [|pattern patterns] eqn:Hparse; [reflexivity|].
  unfold parseIgnoreFile at 1. unfold split_lines.
  rewrite split_lines_join.
  - simpl app. rewrite map_fixed.
    + apply filter_all. eapply Forall_impl; [|exact Hkept]. intros p Hp; apply Hp.
    + eapply Forall_impl; [|exact Hkept]. intros p Hp; apply Hp.
  - eapply Forall_impl; [|exact Hkept]. intros p Hp; apply Hp.
Qed.

(** ** The delete tool *)

Lemma listed_In (filePaths : list string) (r : Row.t) :
  listed filePaths r = true <-> In (Row.file_path r) filePaths.
Proof.
  unfold listed. rewrite existsb_exists. split.
  - intros [p [Hin Heq]]. apply String.eqb_eq in Heq. now rewrite Heq.
  - intros Hin. exists (Row.file_path r). split; [exact Hin|apply String.eqb_refl].
Qed.

Lemma distinct_In (l : list string) :
  forall (seen : list string) (x : string),
    In x (distinct seen l) <-> In x l /\ ~ In x seen.
Proof.
  induction l as [|y l IH]; intros seen x; simpl; [tauto|].
  destruct (existsb (String.eqb y) seen) eqn:Hseen.
  - apply existsb_exists in Hseen. destruct Hseen as [z [Hz Heq]].
    apply String.eqb_eq in Heq. subst z. rewrite IH. split.
    + intros [Hin Hnot]. split; [now right|exact Hnot].
    + intros [[Heq|Hin] Hnot]; [subst; contradiction|now split].
  - assert (Hnew : ~ In y seen).
    { intros Hin. assert (Htrue : existsb (String.eqb y) seen = true).
      { apply existsb_exists. exists y. split; [exact Hin|apply String.eqb_refl]. }
      rewrite Htrue in Hseen. discriminate. }
    simpl. rewrite IH. simpl. split.
    + intros [Heq|[Hin Hnot]]; [subst; split; [now left|exact Hnew]|].
      split; [now right|tauto].
    + intros [[Heq|Hin] Hnot]; [now left|].
      destruct (String.eqb_spec y x) as [Hyx|Hyx]; [now left|right].
      split; [exact Hin|]. intros [Heq|Hs]; [contradiction|contradiction].
Qed.

Lemma distinct_NoDup (l : list string) :
  forall seen : list string, NoDup (distinct seen l).
Proof.
  induction l as [|y l IH]; intros seen; simpl; [constructor|].
  destruct (existsb (String.eqb y) seen); [apply IH|].
  constructor; [|apply IH]. rewrite distinct_In. intros [_ Hnot]. apply Hnot. now left.
Qed.

Lemma length_filter_negb {A} (f : A -> bool) (l : list A) :
  (length (filter f l) + length (filter (fun x => negb (f x)) l) = length l)%nat.
Proof.
  induction l as [|x l IH]; simpl; [reflexivity|].
  destruct (f x); simpl; lia.
Qed.

Lemma rows_of_not_listed (filePaths : list string) (filePath : string) (t : Table) :
  rows_of filePath (filter (fun r => negb (listed filePaths r)) t)
  = if existsb (String.eqb filePath) filePaths then [] else rows_of filePath t.
Proof.
  induction t as [|r t IH]; simpl; [now destruct (existsb _ _)|].
  unfold rows_of in *. simpl.
  destruct (String.eqb_spec (Row.file_path r) filePath) as [Heq|Hne].
  - unfold listed at 1. rewrite Heq.
    destruct (existsb (String.eqb filePath) filePaths) eqn:Hin; simpl.
    + exact IH.
    + now rewrite Heq, String.eqb_refl, IH.
  - destruct (listed filePaths r); simpl; [exact IH|].
    destruct (String.eqb_spec (Row.file_path r) filePath); [contradiction|exact IH].
Qed.

Lemma existsb_eqb_In (x : string) (l : list string) :
  existsb (String.eqb x) l = true <-> In x l.
Proof.
  rewrite existsb_exists. split.
  - intros [y [Hin Heq]]. apply String.eqb_eq in Heq. now subst.
  - intros Hin. exists x. split; [exact Hin|apply String.eqb_refl].
Qed.

Section DeleteTool.

Variable env : Env.
Variable workspaceRoot : string.

(** X23.  A confirmed deletion of files either is refused by the database and
    changes nothing, or removes every row of the paths it names and no
    other row; it reports the number of rows removed and, once each, the
    paths that had rows. *)
Theorem deleteTool_files (f : string) (others : list string) (t : Table) :
  match deleteTool env workspaceRoot (Some (f :: others)) true t with
  | (FilesDeleted deletedFiles chunks, t') =>
      postgres_up env 0 = true
      /\ (forall filePath,
            rows_of filePath t'
            = if existsb (String.eqb filePath) (map (absolute workspaceRoot) (f :: others))
              then [] else rows_of filePath t)
      /\ chunks = Z.of_nat (length t) - Z.of_nat (length t')
      /\ NoDup deletedFiles
      /\ (forall filePath,
            In filePath deletedFiles
            <-> In filePath (map (absolute workspaceRoot) (f :: others))
                /\ rows_of filePath t <> [])
  | (DeletionFailed error, t') =>
      postgres_up env 0 = false /\ error = DatabaseError /\ t' = t
  | _ => False
  end.
Proof.
  unfold deleteTool. simpl negb. cbv iota. unfold run_statement, delete_any.
  set (filePaths := map (absolute workspaceRoot) (f :: others)).
  destruct (postgres_up env 0); [|repeat split].
  split; [reflexivity|]. split; [|split; [|split]].
  - intros filePath. apply rows_of_not_listed.
  - rewrite length_map. pose proof (length_filter_negb (listed filePaths) t). lia.
  - apply distinct_NoDup.
  - intros filePath. rewrite distinct_In. split.
    + intros [Hin _]. apply in_map_iff in Hin. destruct Hin as [r [Hp Hr]].
      apply filter_In in Hr. destruct Hr as [Hr Hl]. apply listed_In in Hl.
      subst filePath. split; [exact Hl|].
      intros Hnone.
      assert (Hmine : In r (rows_of (Row.file_path r) t)).
      { unfold rows_of. apply filter_In. split; [exact Hr|apply String.eqb_refl]. }
      rewrite Hnone in Hmine. contradiction.
    + intros [Hin Hrows]. split; [|intros []].
      destruct (rows_of filePath t) as [|r rows] eqn:Hmine; [contradiction|].
      assert (Hr : In r (rows_of filePath t)) by (rewrite Hmine; now left).
      unfold rows_of in Hr. apply filter_In in Hr. destruct Hr as [Hr Hp].
      apply String.eqb_eq in Hp. apply in_map_iff. exists r. split; [exact Hp|].
      apply filter_In. split; [exact Hr|]. apply listed_In. now rewrite Hp.
Qed.

(** X24.  Without confirmation the tool deletes nothing, whatever files it is
    given.  A confirmed call with no file or an empty list of files
    empties the table once the count and the deletion are answered, and
    reports the number of rows there were; when the reset of the metadata
    then fails it reports a failure, with the rows gone all the same. *)
Theorem deleteTool_all (files : option (list string)) (t : Table) :
  deleteTool env workspaceRoot files false t = (ConfirmationRequired, t)
  /\ match files with
     | Some (_ :: _) => True
     | _ =>
         (postgres_up env 0 = true -> postgres_up env 1 = true ->
          snd (deleteTool env workspaceRoot files true t) = []
          /\ fst (deleteTool env workspaceRoot files true t)
             = if postgres_up env 2 then AllDeleted (Z.of_nat (length t))
               else DeletionFailed DatabaseError)
         /\ (postgres_up env 0 = false \/ postgres_up env 1 = false ->
             deleteTool env workspaceRoot files true t
             = (DeletionFailed DatabaseError, t))
     end.
Proof.
  split; [reflexivity|].
  destruct files as [[|f others]|]; [|exact I|];
    unfold deleteTool, run_statement, count_chunks, delete_all, reset_metadata;
    simpl negb; cbv iota; (split; [intros H0 H1; rewrite H0, H1;
      now destruct (postgres_up env 2)|]);
    intros [H|H]; rewrite H; [reflexivity| |reflexivity|];
    now destruct (postgres_up env 0).
Qed.

End DeleteTool.

(** X25.  After a confirmed deletion of files, a sync of one of their paths
    finds no fingerprint: it is not skipped, and when it returns it has
    embedded and stored every storable chunk of the file again. *)
Theorem deleteTool_then_syncFile (sha256 : jsstring -> string)
    (extname : string -> string) (env env' : Env) (workspaceRoot f : string)
    (others deletedFiles : list string) (chunks : Z) (t t' : Table)
    (filePath : string) (content : jsstring) (result : FileResult.t) :
  deleteTool env workspaceRoot (Some (f :: others)) true t
  = (FilesDeleted deletedFiles chunks, t') ->
  In filePath (map (absolute workspaceRoot) (f :: others)) ->
  fs env' filePath = Ok content ->
  fst (syncFile sha256 extname env' filePath false (start t')) = Ok result ->
  FileResult.skipped result = false
  /\ FileResult.chunks result
     = Z.of_nat (length (storable (new_chunks sha256 extname filePath content)))
  /\ length (rows_of filePath
               (table (snd (syncFile sha256 extname env' filePath false (start t')))))
     = length (storable (new_chunks sha256 extname filePath content)).
Proof.
  intros Hdel Hin Hfs.
  assert (Hnone : rows_of filePath t' = []).
  { assert (Ht' : t' = filter (fun r => negb (listed (map (absolute workspaceRoot)
                                                           (f :: others)) r)) t).
    { unfold deleteTool, run_statement, delete_any in Hdel.
      destruct (postgres_up env 0); [|discriminate]. now inversion Hdel. }
    rewrite Ht', rows_of_not_listed.
    apply existsb_eqb_In in Hin. now rewrite Hin. }
  rewrite syncFile_cases, Hfs.
  destruct (postgres_up env' 1); [|discriminate].
  unfold unchanged, stored_fingerprint. rewrite Hnone. simpl andb. cbv iota.
  destruct (postgres_up env' 2); [|discriminate].
  destruct (proceeds_run sha256 extname env' filePath content t')
    as [k [rows [ext [Hrows [Htab [_ [_ Hres]]]]]]].
  intros Hok. rewrite Hok in Hres. destruct Hres as [Hk Hresult].
  rewrite Htab. destruct (replaced_table _ _ _ _ _ t' Hrows) as [Hmine _].
  rewrite Hmine.
  destruct (rows_for_path _ _ _ _ _ Hrows) as [_ [_ [_ [_ Hlen]]]].
  subst result. simpl. split; [reflexivity|]. split; [now rewrite Hk|].
  rewrite Hlen, length_firstn. lia.
Qed.

(** * Worked runs *)

(** C5 as stated fails: 200 characters make two chunks, the whole content
    and its last 100 characters again, and ceil(200 / 924) is 1. *)
Lemma chunkPlainText_bound_refuted :
  ~ (forall (sha256 : jsstring -> string) (content : jsstring),
       Z.of_nat (length (chunkPlainText sha256 content))
       <= ceil_div (len content) (MAX_CHUNK_SIZE - OVERLAP_SIZE)).
Proof.
  intros H. specialize (H text_digest (repeat 97%N 200)).
  vm_compute in H. now apply H.
Qed.

(** C6 as stated fails for Markdown: of the content "# Title", line feed,
    "body", the only chunk is "body"; the heading line has become the
    label of the chunk and the line feed is trimmed away. *)
Lemma chunkMarkdown_drops_heading :
  ~ (forall (sha256 : jsstring -> string) (filePath : string) (content : jsstring)
            (fileType : FileType),
       non_overlapping (chunkDocument sha256 filePath content fileType) = content).
Proof.
  intros H.
  specialize (H text_digest "title.md"%string (js "# Title" ++ [10%N] ++ js "body") md).
  vm_compute in H. discriminate.
Qed.

(** The run behind it. *)
Example chunkMarkdown_title :
  chunkMarkdown text_digest (js "# Title" ++ [10%N] ++ js "body")
  = [createChunk text_digest (js "body") 0 (Some (js "Title"))].
Proof. vm_compute. reflexivity. Qed.

(** C6 at an input: a file of 1025 characters. *)
Lemma chunkDocument_lossless_plain_witness :
  ts <> md
  /\ non_overlapping (chunkDocument text_digest "a.ts" (repeat 97%N 1025) ts)
     = repeat 97%N 1025.
Proof.
  split; [discriminate|].
  apply (chunkDocument_lossless_plain text_digest "a.ts" (repeat 97%N 1025) ts).
  discriminate.
Defined.

(** C10 at an input. *)
Lemma chunkDocument_plain_sizes_witness :
  json <> md
  /\ Forall (fun c => 0 < len (Chunk.content c) <= 1024 /\ oversized c = false)
       (chunkDocument text_digest "a.json" (repeat 97%N 1025) json)
  /\ storable (chunkDocument text_digest "a.json" (repeat 97%N 1025) json)
     = chunkDocument text_digest "a.json" (repeat 97%N 1025) json.
Proof.
  split; [discriminate|].
  apply (chunkDocument_plain_sizes text_digest "a.json" (repeat 97%N 1025) json).
  discriminate.
Defined.

(** C1 at an input: a.ts holds "hello", the table has its row, force is
    off; the file is skipped. *)
Lemma syncFile_skips_iff_witness :
  fs service_up "a.ts" = Ok (js "hello")
  /\ postgres_up service_up 1 = true
  /\ fst (syncFile text_digest name_extension service_up "a.ts" false
            (start [hello_row]))
     = Ok skip_result.
Proof.
  split; [reflexivity|]. split; [reflexivity|].
  destruct (syncFile_skips_iff text_digest name_extension service_up "a.ts" false
              (js "hello") [hello_row] eq_refl eq_refl) as [[_ Hskip] _].
  apply Hskip. split; reflexivity.
Defined.

(** C2 as stated fails: big.md is 4001 characters with no heading, so its
    chunks are the 4001 characters and their last 100; the sync returns,
    and the path has one row, of the second chunk only. *)
Lemma syncFile_drops_oversized :
  ~ (forall (sha256 : jsstring -> string) (extname : string -> string) (env : Env)
            (filePath : string) (force : bool) (content : jsstring) (t : Table)
            (result : FileResult.t),
       fs env filePath = Ok content ->
       fst (syncFile sha256 extname env filePath force (start t)) = Ok result ->
       FileResult.skipped result = false ->
       rows_for filePath (hashFile sha256 content) (getFileType extname filePath)
         (chunkDocument sha256 filePath content (getFileType extname filePath))
         (rows_of filePath
            (table (snd (syncFile sha256 extname env filePath force (start t)))))).
Proof.
  intros H.
  assert (Hrun : fst (syncFile text_digest name_extension service_up "big.md" false
                        (start [stale_row "big.md"]))
                 = Ok {| FileResult.chunks := 1; FileResult.skipped := false |})
    by (vm_compute; reflexivity).
  assert (Hchunks : length (chunkDocument text_digest "big.md" (repeat 97%N 4001)
                              (getFileType name_extension "big.md")) = 2%nat)
    by (vm_compute; reflexivity).
  assert (Hrows : length (rows_of "big.md"
                    (table (snd (syncFile text_digest name_extension service_up
                                   "big.md" false (start [stale_row "big.md"])))))
                  = 1%nat)
    by (vm_compute; reflexivity).
  assert (Hfs : fs service_up "big.md" = Ok (repeat 97%N 4001)) by reflexivity.
  pose proof (H text_digest name_extension service_up "big.md"%string false
                (repeat 97%N 4001) [stale_row "big.md"] _ Hfs Hrun eq_refl) as Hall.
  apply Forall2_length in Hall.
  rewrite Hchunks, Hrows in Hall. discriminate.
Qed.

(** C2 at that input. *)
Lemma syncFile_replaces_rows_witness :
  fs service_up "big.md" = Ok (repeat 97%N 4001)
  /\ fst (syncFile text_digest name_extension service_up "big.md" false
            (start [stale_row "big.md"]))
     = Ok {| FileResult.chunks := 1; FileResult.skipped := false |}
  /\ exists rows,
       rows_of "big.md"
         (table (snd (syncFile text_digest name_extension service_up "big.md" false
                        (start [stale_row "big.md"])))) = rows
       /\ 1 = Z.of_nat (length rows).
Proof.
  assert (Hrun : fst (syncFile text_digest name_extension service_up "big.md" false
                        (start [stale_row "big.md"]))
                 = Ok {| FileResult.chunks := 1; FileResult.skipped := false |})
    by (vm_compute; reflexivity).
  split; [reflexivity|]. split; [exact Hrun|].
  destruct (syncFile_replaces_rows text_digest name_extension service_up "big.md" false
              [stale_row "big.md"]) as [_ Hreplaced].
  destruct (Hreplaced (repeat 97%N 4001) _ eq_refl Hrun eq_refl)
    as [rows [_ [_ [Hrows [_ Hcount]]]]].
  exists rows. split; [exact Hrows | exact Hcount].
Defined.

(** C3 as stated fails: a.ts has a row of an earlier content, it now holds
    "hello", and the embedding service does not answer.  [syncFile] raises
    and the row of the earlier content is gone. *)
Lemma syncFile_not_atomic :
  ~ (forall (sha256 : jsstring -> string) (extname : string -> string) (env : Env)
            (filePath : string) (force : bool) (content : jsstring) (t : Table)
            (e : Exn),
       fs env filePath = Ok content ->
       postgres_up env 1 = true ->
       fst (syncFile sha256 extname env filePath force (start t)) = Throw e ->
       rows_of filePath
         (table (snd (syncFile sha256 extname env filePath force (start t))))
       = rows_of filePath t).
Proof.
  intros H.
  specialize (H text_digest name_extension service_down "a.ts"%string false
                (js "hello") [stale_row "a.ts"] FetchFailed eq_refl eq_refl eq_refl).
  vm_compute in H. discriminate.
Qed.

(** C3 at that input. *)
Lemma syncFile_failure_keeps_prefix_witness :
  fs service_down "a.ts" = Ok (js "hello")
  /\ postgres_up service_down 1 = true
  /\ fst (syncFile text_digest name_extension service_down "a.ts" false
            (start [stale_row "a.ts"])) = Throw FetchFailed
  /\ exists rows,
       rows_of "a.ts"
         (table (snd (syncFile text_digest name_extension service_down "a.ts" false
                        (start [stale_row "a.ts"])))) = rows
       /\ (length rows < 1)%nat.
Proof.
  split; [reflexivity|]. split; [reflexivity|]. split; [reflexivity|].
  destruct (syncFile_failure_keeps_prefix text_digest name_extension service_down
              "a.ts" false [stale_row "a.ts"]) as [_ Hfailed].
  destruct (Hfailed (js "hello") FetchFailed eq_refl eq_refl eq_refl)
    as [[Hdown _] | [_ [k [rows [Hk [Hfor [Hrows _]]]]]]].
  - discriminate.
  - exists rows. split; [exact Hrows|].
    apply Forall2_length in Hfor. rewrite <- Hfor, length_firstn.
    change (length (storable (new_chunks text_digest name_extension "a.ts" (js "hello"))))
      with 1%nat in *.
    lia.
Defined.

(** C4 as stated fails: empty.ts is empty, its sync returns with no row
    written, so no fingerprint is recorded, and the next sync is not
    skipped. *)
Lemma syncFile_empty_not_skipped :
  ~ (forall (sha256 : jsstring -> string) (extname : string -> string)
            (env env' : Env) (filePath : string) (force : bool) (content : jsstring)
            (t : Table) (result : FileResult.t),
       fs env filePath = Ok content ->
       fst (syncFile sha256 extname env filePath force (start t)) = Ok result ->
       fs env' filePath = Ok content ->
       postgres_up env' 1 = true ->
       fst (syncFile sha256 extname env' filePath false
              (start (table (snd (syncFile sha256 extname env filePath force
                                    (start t))))))
       = Ok skip_result).
Proof.
  intros H.
  specialize (H text_digest name_extension service_up service_up "empty.ts"%string
                false [] [] _ eq_refl eq_refl eq_refl eq_refl).
  vm_compute in H. discriminate.
Qed.

(** C4 at an input: a.ts synced onto an empty table, then three times
    more, the third time with a database that answers nothing. *)
Lemma syncFile_idempotent_witness :
  fs service_up "a.ts" = Ok (js "hello")
  /\ fst (syncFile text_digest name_extension service_up "a.ts" false (start []))
     = Ok {| FileResult.chunks := 1; FileResult.skipped := false |}
  /\ Forall (fun env' => fs env' "a.ts" = Ok (js "hello"))
       [service_up; service_down; database_down]
  /\ snd (resync text_digest name_extension [service_up; service_down; database_down]
            "a.ts"
            (table (snd (syncFile text_digest name_extension service_up "a.ts" false
                           (start [])))))
     = table (snd (syncFile text_digest name_extension service_up "a.ts" false
                     (start [])))
  /\ fst (resync text_digest name_extension [service_up; service_down; database_down]
            "a.ts"
            (table (snd (syncFile text_digest name_extension service_up "a.ts" false
                           (start [])))))
     = [Ok skip_result; Ok skip_result; Throw DatabaseError].
Proof.
  assert (Henvs : Forall (fun env' => fs env' "a.ts" = Ok (js "hello"))
                    [service_up; service_down; database_down])
    by (repeat constructor).
  split; [reflexivity|]. split; [reflexivity|]. split; [exact Henvs|].
  destruct (syncFile_idempotent text_digest name_extension service_up "a.ts" false
              (js "hello") [] _ [service_up; service_down; database_down]
              eq_refl eq_refl Henvs) as [Htable _].
  split; [exact Htable|]. vm_compute. reflexivity.
Defined.

Lemma opposite_distance : cosine_distance [1%R] [(-1)%R] = Some 2%R.
Proof.
  unfold cosine_distance. simpl.
  destruct (Req_dec_T ((1 * 1 + 0) * (-1 * -1 + 0)) 0) as [H|H]; [lra|].
  replace ((1 * 1 + 0) * (-1 * -1 + 0))%R with 1%R by lra.
  rewrite sqrt_1. f_equal. lra.
Qed.

Lemma opposite_query :
  fst (queryVectorDatabase service_opposite (js "hello") 10 None (start [hello_row]))
  = Ok [to_result (hello_row, Some (1 - 2)%R)].
Proof.
  transitivity
    (@Ok (list RetrievalResult.t)
       [to_result (hello_row,
                   option_map (fun d => (1 - d)%R)
                     (cosine_distance [1%R] [(-1)%R]))]).
  - reflexivity.
  - now rewrite opposite_distance.
Qed.

(** C9 as stated fails, also of an operator that is a cosine distance:
    the table holds one row with the vector (1), the query is embedded as
    (-1); the row comes back with similarity 1 - 2 = -1. *)
Lemma similarity_below_zero :
  ~ (forall (env : Env) (query : jsstring) (topK : Z)
            (fileTypeFilter : option (list string)) (w : World)
            (results : list RetrievalResult.t),
       (forall a b d, distance env a b = Some d -> (0 <= d <= 2)%R) ->
       fst (queryVectorDatabase env query topK fileTypeFilter w) = Ok results ->
       Forall (fun result =>
                 exists s, RetrievalResult.similarity result = Some s
                           /\ (0 <= s <= 1)%R)
         results).
Proof.
  intros H.
  specialize (H service_opposite _ _ _ _ _ cosine_distance_range opposite_query).
  inversion H as [|result rest [s [Hs Hrange]] _]; subst.
  simpl in Hs. inversion Hs; subst s. lra.
Qed.

(** C9 at that input. *)
Lemma queryVectorDatabase_similarity_witness :
  (forall a b d, distance service_opposite a b = Some d -> (0 <= d <= 2)%R)
  /\ fst (queryVectorDatabase service_opposite (js "hello") 10 None (start [hello_row]))
     = Ok [to_result (hello_row, Some (1 - 2)%R)]
  /\ Forall
       (fun result =>
          exists (row : Row.t) (v : vector),
            In row (table (start [hello_row]))
            /\ ollama service_opposite (length (log (start [hello_row]))) (js "hello")
               = Json (Some v)
            /\ result
               = to_result
                   (row,
                    option_map (fun d => (1 - d)%R)
                      (distance service_opposite (Row.embedding row) v))
            /\ match RetrievalResult.similarity result with
               | Some s =>
                   (-1 <= s <= 1)%R
                   /\ (distance service_opposite (Row.embedding row) v = Some 0%R
                       -> s = 1%R)
               | None => distance service_opposite (Row.embedding row) v = None
               end)
       [to_result (hello_row, Some (1 - 2)%R)].
Proof.
  split; [exact cosine_distance_range|]. split; [exact opposite_query|].
  exact (queryVectorDatabase_similarity service_opposite (js "hello") 10 None
           (start [hello_row]) _ cosine_distance_range opposite_query).
Defined.

(** ** Further worked runs *)

(** X2 at an input: 150 [a] and 50 [b] make two chunks, the whole content
    and its last 100 characters. *)
Lemma chunkPlainText_overlap_witness :
  nth_error (chunkPlainText text_digest (repeat 97%N 150 ++ repeat 98%N 50)) 0
  = Some (createChunk text_digest (repeat 97%N 150 ++ repeat 98%N 50) 0 None)
  /\ nth_error (chunkPlainText text_digest (repeat 97%N 150 ++ repeat 98%N 50)) 1
     = Some (createChunk text_digest (repeat 97%N 50 ++ repeat 98%N 50) 1 None)
  /\ slice_from (repeat 97%N 150 ++ repeat 98%N 50) (- OVERLAP_SIZE)
     = slice (repeat 97%N 50 ++ repeat 98%N 50) 0 OVERLAP_SIZE.
Proof.
  split; [vm_compute; reflexivity|]. split; [vm_compute; reflexivity|].
  apply (chunkPlainText_overlap text_digest (repeat 97%N 150 ++ repeat 98%N 50) 0
           (createChunk text_digest (repeat 97%N 150 ++ repeat 98%N 50) 0 None)
           (createChunk text_digest (repeat 97%N 50 ++ repeat 98%N 50) 1 None));
    vm_compute; reflexivity.
Defined.

(** X3 at an input: 200 characters. *)
Lemma chunkPlainText_repeats_tail_witness :
  OVERLAP_SIZE < len (repeat 97%N 200)
  /\ exists (front : list Chunk.t) (prev last : Chunk.t),
       chunkPlainText text_digest (repeat 97%N 200) = front ++ [prev; last]
       /\ Chunk.content last = slice_from (repeat 97%N 200) (- OVERLAP_SIZE)
       /\ slice_from (Chunk.content prev) (- OVERLAP_SIZE) = Chunk.content last.
Proof.
  split; [reflexivity|].
  apply (chunkPlainText_repeats_tail text_digest (repeat 97%N 200)). reflexivity.
Defined.

(** X6 at an input: 1100 characters and no heading make a chunk of 1100
    characters and one of 100. *)
Lemma chunkMarkdown_no_heading_witness :
  hash_free (repeat 97%N 1100)
  /\ map (fun c => len (Chunk.content c)) (chunkMarkdown text_digest (repeat 97%N 1100))
     = [1100; 100].
Proof.
  assert (Hfree : hash_free (repeat 97%N 1100)).
  { apply Forall_forall. intros c Hc. apply repeat_spec in Hc. now subst c. }
  split; [exact Hfree|].
  rewrite (chunkMarkdown_no_heading text_digest (repeat 97%N 1100) Hfree).
  vm_compute. reflexivity.
Defined.

(** X7 at an input: two sections of three characters each make one chunk,
    under the label of the second. *)
Lemma chunkMarkdown_merges_sections_witness :
  len (body_text (split_on_headings
                    (js "# A" ++ [10%N] ++ js "foo" ++ [10%N]
                     ++ js "# B" ++ [10%N] ++ js "bar")))
  <= MAX_CHUNK_SIZE
  /\ chunkMarkdown text_digest
       (js "# A" ++ [10%N] ++ js "foo" ++ [10%N] ++ js "# B" ++ [10%N] ++ js "bar")
     = [createChunk text_digest (js "foo" ++ [10%N; 10%N] ++ js "bar") 0
          (Some (js "B"))].
Proof.
  assert (Hlen : len (body_text (split_on_headings
                                   (js "# A" ++ [10%N] ++ js "foo" ++ [10%N]
                                    ++ js "# B" ++ [10%N] ++ js "bar")))
                 <= MAX_CHUNK_SIZE) by (vm_compute; discriminate).
  split; [exact Hlen|].
  rewrite (chunkMarkdown_merges_sections text_digest _ Hlen).
  vm_compute. reflexivity.
Defined.

(** X8 at an input: of 4001 characters [a] one row is stored, of 100
    characters. *)
Lemma chunkMarkdown_too_long_witness :
  hash_free (repeat 97%N 4001)
  /\ 4000 < len (trim (repeat 97%N 4001))
  /\ map (fun c => len (Chunk.content c))
       (storable (chunkMarkdown text_digest (repeat 97%N 4001)))
     = [100].
Proof.
  assert (Hfree : hash_free (repeat 97%N 4001)).
  { apply Forall_forall. intros c Hc. apply repeat_spec in Hc. now subst c. }
  assert (Hlong : 4000 < len (trim (repeat 97%N 4001))) by (vm_compute; reflexivity).
  split; [exact Hfree|]. split; [exact Hlong|].
  destruct (chunkMarkdown_too_long text_digest (repeat 97%N 4001) Hfree Hlong)
    as [Hst _].
  rewrite Hst. vm_compute. reflexivity.
Defined.

(** X10 at an input: two texts and a service that does not answer. *)
Lemma embed_stops_at_first_failure_witness :
  fst (embed service_down [js "one"; js "two"] (start [])) = Throw FetchFailed
  /\ exists (k : nat) (text : jsstring) (vectors : list vector),
       nth_error [js "one"; js "two"] k = Some text
       /\ answered service_down (length (log (start []))) (firstn k [js "one"; js "two"])
            vectors
       /\ refusal (ollama service_down (length (log (start [])) + k) text)
          = Some FetchFailed
       /\ snd (embed service_down [js "one"; js "two"] (start []))
          = {| table := table (start []);
               log := log (start [])
                      ++ requests (firstn (S k) [js "one"; js "two"])
                           (table (start [])) |}
       /\ FetchFailed <> CountMismatch.
Proof.
  split; [reflexivity|].
  apply (embed_stops_at_first_failure service_down [js "one"; js "two"] (start [])
           FetchFailed).
  reflexivity.
Defined.

(** X17 at an input: long.ts has 200 characters, two chunks; the service
    answers the request for the first and not the one for the second, and
    the next sync is skipped with one row of two in the table. *)
Lemma syncFile_partial_then_skipped_witness :
  fst (syncFile text_digest name_extension (service_until 5) "long.ts" false (start []))
  = Throw FetchFailed
  /\ length (rows_of "long.ts"
               (table (snd (syncFile text_digest name_extension (service_until 5)
                              "long.ts" false (start [])))))
     = 1%nat
  /\ length (storable (new_chunks text_digest name_extension "long.ts"
                         (repeat 97%N 200)))
     = 2%nat
  /\ Forall (fun r => Row.file_hash r = hashFile text_digest (repeat 97%N 200))
       (rows_of "long.ts"
          (table (snd (syncFile text_digest name_extension (service_until 5)
                         "long.ts" false (start [])))))
  /\ fst (syncFile text_digest name_extension (service_until 9) "long.ts" false
            (start (table (snd (syncFile text_digest name_extension (service_until 5)
                                  "long.ts" false (start []))))))
     = Ok skip_result.
Proof.
  assert (Hthrow : fst (syncFile text_digest name_extension (service_until 5) "long.ts"
                          false (start []))
                   = Throw FetchFailed) by (vm_compute; reflexivity).
  assert (Hrows : rows_of "long.ts"
                    (table (snd (syncFile text_digest name_extension (service_until 5)
                                   "long.ts" false (start []))))
                  <> []) by (vm_compute; discriminate).
  split; [exact Hthrow|]. split; [vm_compute; reflexivity|].
  split; [vm_compute; reflexivity|].
  destruct (syncFile_partial_then_skipped text_digest name_extension (service_until 5)
              "long.ts" false (repeat 97%N 200) [] FetchFailed (service_until 9)
              eq_refl eq_refl eq_refl Hthrow Hrows eq_refl)
    as [_ [Hhash [Hnext _]]].
  split; [exact Hhash|exact Hnext].
Defined.

(** X25 at an input: the row of a.ts is deleted, and a.ts synced again. *)
Lemma deleteTool_then_syncFile_witness :
  deleteTool service_up "" (Some ["a.ts"%string]) true [hello_row]
  = (FilesDeleted ["a.ts"%string] 1, [])
  /\ fst (syncFile text_digest name_extension service_up "a.ts" false (start []))
     = Ok {| FileResult.chunks := 1; FileResult.skipped := false |}
  /\ FileResult.skipped {| FileResult.chunks := 1; FileResult.skipped := false |} = false
  /\ FileResult.chunks {| FileResult.chunks := 1; FileResult.skipped := false |}
     = Z.of_nat (length (storable (new_chunks text_digest name_extension "a.ts"
                                     (js "hello"))))
  /\ length (rows_of "a.ts"
               (table (snd (syncFile text_digest name_extension service_up "a.ts"
                              false (start [])))))
     = length (storable (new_chunks text_digest name_extension "a.ts" (js "hello"))).
Proof.
  assert (Hdel : deleteTool service_up "" (Some ["a.ts"%string]) true [hello_row]
                 = (FilesDeleted ["a.ts"%string] 1, [])) by reflexivity.
  assert (Hrun : fst (syncFile text_digest name_extension service_up "a.ts" false
                        (start []))
                 = Ok {| FileResult.chunks := 1; FileResult.skipped := false |})
    by (vm_compute; reflexivity).
  split; [exact Hdel|]. split; [exact Hrun|].
  apply (deleteTool_then_syncFile text_digest name_extension service_up service_up ""
           "a.ts" [] ["a.ts"%string] 1 [hello_row] [] "a.ts" (js "hello") _
           Hdel (or_introl eq_refl) eq_refl Hrun).
Defined.

(** X19 at an input: a batch that names a.ts twice, with its row in the
    table. *)
Lemma syncFiles_up_to_date_witness :
  Forall (up_to_date text_digest service_up (table (start [hello_row])))
    ["a.ts"%string; "a.ts"%string]
  /\ syncFiles text_digest name_extension service_up ["a.ts"%string; "a.ts"%string]
       false (start [hello_row])
     = (Ok {| SyncResult.filesProcessed := 0;
              SyncResult.chunksCreated := 0;
              SyncResult.chunksUpdated := 0;
              SyncResult.chunksSkipped :=
                Z.of_nat (length ["a.ts"%string; "a.ts"%string]);
              SyncResult.files := [];
              SyncResult.errors := [] |},
        {| table := table (start [hello_row]);
           log := log (start [hello_row])
                  ++ flat_map (skip_reads (table (start [hello_row])))
                       ["a.ts"%string; "a.ts"%string] |}).
Proof.
  assert (Hall : Forall (up_to_date text_digest service_up (table (start [hello_row])))
                   ["a.ts"%string; "a.ts"%string]).
  { repeat constructor; exists (js "hello"); split; reflexivity. }
  split; [exact Hall|].
  apply (syncFiles_up_to_date text_digest name_extension service_up
           ["a.ts"%string; "a.ts"%string] (start [hello_row]) Hall).
  intros n. reflexivity.
Defined.
